(** * ICRC humanitarian ledger: hash-chained block store and prediction market

    A shallow embedding of [contracts/ledger.js], [contracts/market.js] and
    [contracts/shares.js], with the properties of the specification stated
    and settled against it.

    Conventions of the embedding.
    - The ledger directory is a finite map from the number in the file name
      [block_<n>.json] to the block stored in that file; other files of the
      directory are ignored by every method and are left out.
    - The digest is SHA-256 itself, run on closed inputs and never unfolded
      in a general proof.
    - The system clock is an argument of the methods that read it, one
      argument for each reading.
    - A JS object used as a dictionary is a [gmap] with string keys (keys
      inherited from [Object.prototype] are not modelled).
    - A thrown exception is the [Throw] outcome of an operation; the state
      returned next to it is the state at the moment of the throw, so that
      partial mutation is visible.
    - JS numbers ([num]) are exact rationals extended with [NaN] and the two
      infinities; the binary rounding of doubles and the sign of zero are
      not modelled. The concrete market runs are checked a second time in
      binary64 ([market_runs_in_binary64]). *)

From Stdlib Require Import ZArith NArith QArith Qround Qabs Lqa String Ascii List Lia.
From Stdlib Require Import DecimalString.
From Stdlib Require Import Floats.PrimFloat.
From stdpp Require Import base gmap list strings fin_maps sorting.

Local Open Scope Z_scope.

(* ===================================================================== *)
(** ** SHA-256 (Node's [crypto.createHash('sha256')], FIPS 180-4)        *)
(* ===================================================================== *)

Module Sha256.

Definition mask32 : Z := 4294967295.

Definition add32 (x y : Z) : Z := Z.land (x + y) mask32.

Definition rotr (n x : Z) : Z :=
  Z.lor (Z.shiftr x n) (Z.land (Z.shiftl x (32 - n)) mask32).

Definition ch (x y z : Z) : Z :=
  Z.lxor (Z.land x y) (Z.land (Z.lxor x mask32) z).

Definition maj (x y z : Z) : Z :=
  Z.lxor (Z.lxor (Z.land x y) (Z.land x z)) (Z.land y z).

Definition bsig0 (x : Z) : Z := Z.lxor (Z.lxor (rotr 2 x) (rotr 13 x)) (rotr 22 x).
Definition bsig1 (x : Z) : Z := Z.lxor (Z.lxor (rotr 6 x) (rotr 11 x)) (rotr 25 x).
Definition ssig0 (x : Z) : Z := Z.lxor (Z.lxor (rotr 7 x) (rotr 18 x)) (Z.shiftr x 3).
Definition ssig1 (x : Z) : Z := Z.lxor (Z.lxor (rotr 17 x) (rotr 19 x)) (Z.shiftr x 10).

(** The round constants are the first 32 fractional bits of the cube roots
    of the first 64 primes, the initial state those of the square roots of
    the first 8 primes; both are computed rather than tabulated. *)
Definition primes64 : list Z :=
  [2; 3; 5; 7; 11; 13; 17; 19; 23; 29; 31; 37; 41; 43; 47; 53;
   59; 61; 67; 71; 73; 79; 83; 89; 97; 101; 103; 107; 109; 113; 127; 131;
   137; 139; 149; 151; 157; 163; 167; 173; 179; 181; 191; 193; 197; 199; 211; 223;
   227; 229; 233; 239; 241; 251; 257; 263; 269; 271; 277; 281; 283; 293; 307; 311].

(** Integer cube root by bisection on [lo, hi). *)
Fixpoint icbrt_go (fuel : nat) (n lo hi : Z) : Z :=
  match fuel with
  | O => lo
  | S fuel' =>
      if hi - lo <=? 1 then lo
      else let mid := (lo + hi) / 2 in
           if mid * mid * mid <=? n then icbrt_go fuel' n mid hi
           else icbrt_go fuel' n lo mid
  end.

Definition icbrt (n : Z) : Z := icbrt_go 64 n 0 (Z.shiftl 1 40).

Definition frac_cbrt32 (p : Z) : Z := Z.land (icbrt (Z.shiftl p 96)) mask32.
Definition frac_sqrt32 (p : Z) : Z := Z.land (Z.sqrt (Z.shiftl p 64)) mask32.

Definition K : list Z := Eval vm_compute in map frac_cbrt32 primes64.
Definition H0 : list Z := Eval vm_compute in map frac_sqrt32 (take 8 primes64).

(** Padding: one [0x80] byte, zero bytes up to 56 modulo 64, then the
    message length in bits as a 64-bit big-endian number. *)
Definition be_bytes (count : nat) (v : Z) : list Z :=
  map (fun i => Z.land (Z.shiftr v (8 * Z.of_nat (count - 1 - i))) 255) (seq 0 count).

Definition pad (msg : list Z) : list Z :=
  let len := Z.of_nat (length msg) in
  let zeros := Z.to_nat ((55 - len) mod 64) in
  msg ++ [128] ++ replicate zeros 0 ++ be_bytes 8 (8 * len).

Fixpoint words_of_bytes (fuel : nat) (bs : list Z) : list Z :=
  match fuel, bs with
  | S fuel', b0 :: b1 :: b2 :: b3 :: rest =>
      (Z.shiftl b0 24 + Z.shiftl b1 16 + Z.shiftl b2 8 + b3) :: words_of_bytes fuel' rest
  | _, _ => []
  end.

Definition nth_word (ws : list Z) (i : nat) : Z := nth i ws 0.

(** The message schedule, built front to back. *)
Definition schedule (block : list Z) : list Z :=
  fold_left (fun w t =>
    w ++ [add32 (add32 (ssig1 (nth_word w (t - 2))) (nth_word w (t - 7)))
                (add32 (ssig0 (nth_word w (t - 15))) (nth_word w (t - 16)))])
    (seq 16 48) block.

Record regs := Regs { ra : Z; rb : Z; rc : Z; rd : Z; re : Z; rf : Z; rg : Z; rh : Z }.

Definition round (r : regs) (kw : Z * Z) : regs :=
  let t1 := add32 (add32 (add32 (rh r) (bsig1 (re r))) (ch (re r) (rf r) (rg r)))
                  (add32 (fst kw) (snd kw)) in
  let t2 := add32 (bsig0 (ra r)) (maj (ra r) (rb r) (rc r)) in
  Regs (add32 t1 t2) (ra r) (rb r) (rc r) (add32 (rd r) t1) (re r) (rf r) (rg r).

Definition compress (h : regs) (block : list Z) : regs :=
  let r := fold_left round (combine K (schedule block)) h in
  Regs (add32 (ra h) (ra r)) (add32 (rb h) (rb r)) (add32 (rc h) (rc r))
       (add32 (rd h) (rd r)) (add32 (re h) (re r)) (add32 (rf h) (rf r))
       (add32 (rg h) (rg r)) (add32 (rh h) (rh r)).

Fixpoint blocks (fuel : nat) (ws : list Z) : list (list Z) :=
  match fuel, ws with
  | S fuel', _ :: _ => take 16 ws :: blocks fuel' (drop 16 ws)
  | _, _ => []
  end.

Definition init : regs :=
  Regs (nth_word H0 0) (nth_word H0 1) (nth_word H0 2) (nth_word H0 3)
       (nth_word H0 4) (nth_word H0 5) (nth_word H0 6) (nth_word H0 7).

Definition digest_words (msg : list Z) : list Z :=
  let bs := pad msg in
  let ws := words_of_bytes (length bs) bs in
  let r := fold_left compress (blocks (length ws) ws) init in
  [ra r; rb r; rc r; rd r; re r; rf r; rg r; rh r].

Definition hex_digit (d : Z) : ascii :=
  if d <? 10 then ascii_of_N (Z.to_N (48 + d)) else ascii_of_N (Z.to_N (87 + d)).

Definition hex_word (w : Z) : string :=
  fold_right (fun i acc => String (hex_digit (Z.land (Z.shiftr w (4 * Z.of_nat (7 - i))) 15)) acc)
             EmptyString (seq 0 8).

Definition bytes_of_string (s : string) : list Z :=
  map (fun c => Z.of_N (N_of_ascii c)) (list_ascii_of_string s).

(** [createHash('sha256').update(s).digest('hex')] *)
Definition sha256_hex (s : string) : string :=
  fold_right (fun w acc => (hex_word w ++ acc)%string) EmptyString
             (digest_words (bytes_of_string s)).

End Sha256.

(** The digest is never unfolded by simplification; it is only run on
    closed inputs. *)
Arguments Sha256.sha256_hex : simpl never.

(* ===================================================================== *)
(** ** JSON payloads and [JSON.stringify]                                *)
(* ===================================================================== *)

#[local] Set Warnings "-register-all".

(** The payload of a block is whatever [JSON.parse] returns for the stored
    file. Numbers in payloads are restricted to integers; the fields of an
    object are listed in the order in which JS enumerates them. *)
Inductive json : Type :=
  | JNull
  | JBool (b : bool)
  | JNum (n : Z)
  | JStr (s : string)
  | JArr (items : list json)
  | JObj (fields : list (string * json)).

Module Json.

Definition dquote : ascii := "034"%char.
Definition backslash : ascii := "092"%char.

Definition string_of_Z (n : Z) : string :=
  NilZero.string_of_int (Z.to_int n).

Definition hex4 (n : N) : string :=
  let d (k : N) := Sha256.hex_digit (Z.of_N (N.land (N.shiftr n (4 * k)) 15)) in
  String (d 3%N) (String (d 2%N) (String (d 1%N) (String (d 0%N) EmptyString))).

Definition escape_char (c : ascii) : string :=
  let n := N_of_ascii c in
  if (n =? 34)%N then String backslash (String dquote EmptyString)
  else if (n =? 92)%N then String backslash (String backslash EmptyString)
  else if (n =? 8)%N then String backslash "b"
  else if (n =? 9)%N then String backslash "t"
  else if (n =? 10)%N then String backslash "n"
  else if (n =? 12)%N then String backslash "f"
  else if (n =? 13)%N then String backslash "r"
  else if (n <? 32)%N then (String backslash "u" ++ hex4 n)%string
  else String c EmptyString.

Fixpoint escape (s : string) : string :=
  match s with
  | EmptyString => EmptyString
  | String c rest => (escape_char c ++ escape rest)%string
  end.

Definition quote (s : string) : string :=
  (String dquote (escape s) ++ String dquote EmptyString)%string.

Fixpoint join (parts : list string) : string :=
  match parts with
  | [] => EmptyString
  | [p] => p
  | p :: rest => (p ++ "," ++ join rest)%string
  end.

(** [JSON.stringify(v)] without indentation. *)
Fixpoint stringify (v : json) : string :=
  match v with
  | JNull => "null"
  | JBool true => "true"
  | JBool false => "false"
  | JNum n => string_of_Z n
  | JStr s => quote s
  | JArr items => ("[" ++ join (map stringify items) ++ "]")%string
  | JObj fields =>
      ("{" ++ join (map (fun kv => (quote (fst kv) ++ ":" ++ stringify (snd kv))%string) fields)
           ++ "}")%string
  end.



End Json.

(** The outcome of a call: its return value, or the message of the [Error]
    it threw. *)
Inductive result (A : Type) : Type :=
  | Ok (a : A)
  | Throw (msg : string).
Arguments Ok {A} a.
Arguments Throw {A} msg.

(* ===================================================================== *)
(** ** contracts/ledger.js: the [Blockchain] class                       *)
(* ===================================================================== *)

Record Block := mkBlock {
  index : N;
  timestamp : string;
  data : json;
  previousHash : string;
  hash : string
}.

(** One entry of the list returned by [detectTampering]. *)
Record TamperReport := mkTamperReport {
  report_index : N;
  reason : string;
  report_status : string
}.

(** The block files of the ledger directory, keyed by the number in
    [block_<n>.json]. *)
Abbreviation Store := (gmap N Block).

Module Blockchain.

Definition genesisPreviousHash : string :=
  "0000000000000000000000000000000000000000000000000000000000000000".

Definition string_of_index (n : N) : string :=
  NilZero.string_of_uint (N.to_uint n).

(** [calculateHash(index, timestamp, data, previousHash)] *)
Definition calculateHash (idx : N) (ts : string) (d : json) (prev : string) : string :=
  let dataString := Json.stringify d in
  Sha256.sha256_hex (string_of_index idx ++ ts ++ dataString ++ prev)%string.

(** The hash the block should carry, recomputed from its own fields. *)
Definition expectedHash (b : Block) : string :=
  calculateHash (index b) (timestamp b) (data b) (previousHash b).

(** [getLatestBlock()]: one pass over the directory keeping the file with
    the highest number seen so far ([None] stands for [maxIndex = -1]). *)
Definition latest_step (acc : option (N * Block)) (file : N * Block)
  : option (N * Block) :=
  match acc with
  | None => Some file
  | Some (maxIndex, _) => if (maxIndex <? fst file)%N then Some file else acc
  end.

Definition getLatestBlock (store : Store) : option Block :=
  snd <$> foldl latest_step None (map_to_list store).

(** [addBlock(data)]. The system clock is read twice: [now_stamp] is the
    reading stored in the [timestamp] field, [now_hash] the reading that
    enters the hash. Broadcasting to peers does not touch the store. *)
Definition addBlock (now_stamp now_hash : string) (d : json) (store : Store) : Store :=
  let latestBlock := getLatestBlock store in
  let idx := match latestBlock with Some b => (index b + 1)%N | None => 0%N end in
  let prev := match latestBlock with Some b => hash b | None => genesisPreviousHash end in
  let newBlock :=
    {| index := idx;
       timestamp := now_stamp;
       data := d;
       previousHash := prev;
       hash := calculateHash idx now_hash d prev |} in
  <[idx := newBlock]> store.

(** [getFullChain()]: the block files sorted by their number. *)
Definition file_le (a b : N * Block) : Prop := (fst a <= fst b)%N.

#[global] Instance file_le_dec : RelDecision file_le.
Proof. intros a b. unfold file_le. apply _. Defined.

Definition getFullChain (store : Store) : list Block :=
  snd <$> merge_sort file_le (map_to_list store).

(** The body of the loop of [validateChain] for position [i]. *)
Definition hashValidAt (chain : list Block) (i : nat) : bool :=
  match chain !! i with
  | Some currentBlock => String.eqb (hash currentBlock) (expectedHash currentBlock)
  | None => true
  end.

Definition linkValidAt (chain : list Block) (i : nat) : bool :=
  match i with
  | O => true
  | S i' =>
      match chain !! i, chain !! i' with
      | Some currentBlock, Some previousBlock =>
          String.eqb (previousHash currentBlock) (hash previousBlock)
      | _, _ => true
      end
  end.

(** [validateChain(chain)] *)
Definition validateChain (chain : list Block) : bool :=
  forallb (fun i => hashValidAt chain i && linkValidAt chain i) (seq 0 (length chain)).

(** Reading [currentBlock.data.kitID] throws when the payload is [null]. *)
Definition canReadProperty (d : json) : bool :=
  match d with JNull => false | _ => true end.

Definition typeError : string := "TypeError: Cannot read properties of null".

(** The body of the loop of [detectTampering] for position [i]: at most one
    report is pushed. A block that passes both checks and is not the first
    has the [kitID] of its payload read (the comparison that follows has an
    empty body). *)
Definition tamperAt (chain : list Block) (i : nat) : result (list TamperReport) :=
  match chain !! i with
  | Some currentBlock =>
      if negb (hashValidAt chain i) then
        Ok [mkTamperReport (index currentBlock) "Invalid block hash" "tampered"]
      else if negb (linkValidAt chain i) then
        Ok [mkTamperReport (index currentBlock) "Invalid previous hash link" "tampered"]
      else if (0 <? i)%nat && negb (canReadProperty (data currentBlock)) then
        Throw typeError
      else Ok []
  | None => Ok []
  end.

(** The loop over the remaining positions, [tamperedBlocks] being the
    reports pushed so far. *)
Fixpoint scanFrom (chain : list Block) (todo : list nat) (tamperedBlocks : list TamperReport)
  : result (list TamperReport) :=
  match todo with
  | [] => Ok tamperedBlocks
  | i :: rest =>
      match tamperAt chain i with
      | Ok found => scanFrom chain rest (tamperedBlocks ++ found)
      | Throw msg => Throw msg
      end
  end.

(** [detectTampering(chain)] *)
Definition detectTampering (chain : list Block) : result (list TamperReport) :=
  scanFrom chain (seq 0 (length chain)) [].

(** [clearLedger()] removes every block file. *)
Definition clearLedger (store : Store) : Store := ∅.

(** Writing the blocks of a chain one after the other, each to the file
    named after its own [index]. *)
Definition writeBlocks (chain : list Block) (store : Store) : Store :=
  foldl (fun st block => <[index block := block]> st) store chain.

(** [replaceChain(newChain)] *)
Definition replaceChain (newChain : list Block) (store : Store) : bool * Store :=
  let currentChain := getFullChain store in
  if (length newChain <=? length currentChain)%nat then (false, store)
  else if negb (validateChain newChain) then (false, store)
  else (true, writeBlocks newChain (clearLedger store)).

(** [saveReceivedBlock(block)] *)
Definition saveReceivedBlock (block : Block) (store : Store) : bool * Store :=
  if negb (String.eqb (hash block) (expectedHash block)) then (false, store)
  else
    match store !! index block with
    | Some existingBlock =>
        if String.eqb (hash existingBlock) (hash block) then (true, store)
        else (false, store)
    | None =>
        match getLatestBlock store with
        | Some latestBlock =>
            if (index block <=? index latestBlock)%N then (false, store)
            else (true, <[index block := block]> store)
        | None => (true, <[index block := block]> store)
        end
    end.

(** [syncWithPeer(peerUrl)]: [response] is the chain the peer answered
    with, [None] when the request failed or the answer carried no chain
    (the exception is caught and the method returns false). *)
Definition syncWithPeer (response : option (list Block)) (store : Store) : bool * Store :=
  match response with
  | Some neighborChain =>
      if validateChain neighborChain
         && (length (getFullChain store) <=? length neighborChain)%nat
      then (true, writeBlocks neighborChain (clearLedger store))
      else (false, store)
  | None => (false, store)
  end.

End Blockchain.

Arguments Blockchain.calculateHash : simpl never.
Arguments Blockchain.expectedHash : simpl never.

(* ===================================================================== *)
(** ** JS numbers                                                        *)
(* ===================================================================== *)

(** A JS number is a finite value, one of the two infinities or [NaN].
    Finite values are exact rationals kept in lowest terms, so that equal
    numbers are equal terms. *)
Inductive num : Type :=
  | Fin (q : Q)
  | PInf
  | NInf
  | NaN.

Module JsNum.

Definition of_Z (z : Z) : num := Fin (inject_Z z).

(** Sign of a number that is not [NaN]: -1, 0 or 1. *)
Definition sgn (x : num) : Z :=
  match x with
  | Fin q => Z.sgn (Qnum q)
  | PInf => 1
  | NInf => -1
  | NaN => 0
  end.

Definition inf_of_sign (s : Z) : num :=
  if 0 <? s then PInf else if s <? 0 then NInf else NaN.

Definition neg (x : num) : num :=
  match x with
  | Fin q => Fin (Qred (- q))
  | PInf => NInf
  | NInf => PInf
  | NaN => NaN
  end.

(** [x + y] *)
Definition add (x y : num) : num :=
  match x, y with
  | NaN, _ | _, NaN => NaN
  | Fin a, Fin b => Fin (Qred (a + b))
  | PInf, NInf | NInf, PInf => NaN
  | PInf, _ | _, PInf => PInf
  | NInf, _ | _, NInf => NInf
  end.

(** [x - y] *)
Definition sub (x y : num) : num := add x (neg y).

(** [x * y] *)
Definition mul (x y : num) : num :=
  match x, y with
  | NaN, _ | _, NaN => NaN
  | Fin a, Fin b => Fin (Qred (a * b))
  | _, _ => inf_of_sign (sgn x * sgn y)
  end.

(** [x / y]; a zero divisor is the positive zero. *)
Definition div (x y : num) : num :=
  match x, y with
  | NaN, _ | _, NaN => NaN
  | Fin a, Fin b =>
      if Qeq_bool b 0 then inf_of_sign (sgn x) else Fin (Qred (a / b))
  | Fin _, _ => Fin 0
  | _, Fin b => inf_of_sign (sgn x * (if Z.sgn (Qnum b) <? 0 then -1 else 1))
  | _, _ => NaN
  end.

(** [Math.round(x)]: the nearest integer, halves going up. *)
Definition round (x : num) : num :=
  match x with
  | Fin q => Fin (inject_Z (Qfloor (q + (1 # 2))))
  | other => other
  end.

(** [x < y] *)
Definition ltb (x y : num) : bool :=
  match x, y with
  | NaN, _ | _, NaN => false
  | Fin a, Fin b => negb (Qle_bool b a)
  | NInf, NInf | PInf, _ | _, NInf => false
  | _, _ => true
  end.

(** [x > y] *)
Definition gtb (x y : num) : bool := ltb y x.

(** [ToNumber] of a property that may be [undefined]. *)
Definition to_number (o : option num) : num := default NaN o.

End JsNum.

Arguments JsNum.add : simpl never.
Arguments JsNum.sub : simpl never.
Arguments JsNum.mul : simpl never.
Arguments JsNum.div : simpl never.
Arguments JsNum.round : simpl never.
Arguments JsNum.ltb : simpl never.
Arguments JsNum.gtb : simpl never.
Arguments JsNum.of_Z : simpl never.

(** The same expressions in IEEE binary64, the arithmetic JS really runs,
    used to check that the concrete runs below do not depend on taking
    numbers to be exact. *)
Module Binary64.

(** The argument of [Math.round] in [calculatePrice]. *)
Definition price100 (amount otherPool currentPool : float) : float :=
  (amount * (otherPool / currentPool) * 100)%float.

(** The argument of [Math.round] in [getProbabilities]. *)
Definition percent (yesPool noPool : float) : float :=
  (noPool / (yesPool + noPool) * 100)%float.

(** [Math.round(x)] is the integer [n]: [n - 0.5 <= x < n + 0.5]. *)
Definition rounds_to (x n : float) : bool :=
  PrimFloat.leb (n - 0.5)%float x && PrimFloat.ltb x (n + 0.5)%float.

End Binary64.

(* ===================================================================== *)
(** ** A state monad with exceptions                                     *)
(* ===================================================================== *)

(** A method running on a mutable state [S]; the state that comes back with
    a [Throw] is the state reached when the exception was raised. *)
Definition M (S A : Type) : Type := S -> result A * S.

Module Eff.

Definition ret {S A} (a : A) : M S A := fun s => (Ok a, s).

Definition bind {S A B} (m : M S A) (k : A -> M S B) : M S B :=
  fun s => match m s with
           | (Ok a, s') => k a s'
           | (Throw msg, s') => (Throw msg, s')
           end.

Definition throw {S A} (msg : string) : M S A := fun s => (Throw msg, s).

Definition get {S} : M S S := fun s => (Ok s, s).

Definition modify {S} (f : S -> S) : M S unit := fun s => (Ok tt, f s).

Definition when {S} (c : bool) (m : M S unit) : M S unit :=
  if c then m else ret tt.

(** Run a method of a component on the part of the state it lives in. *)
Definition zoom {S T A} (proj : S -> T) (inj : T -> S -> S) (m : M T A) : M S A :=
  fun s => let '(r, t') := m (proj s) in (r, inj t' s).

End Eff.

Declare Scope eff_scope.
Delimit Scope eff_scope with eff.
Notation "x <- m ;; k" := (Eff.bind m (fun x => k))
  (at level 100, m at next level, right associativity) : eff_scope.
Notation "m ;; k" := (Eff.bind m (fun _ => k))
  (at level 100, right associativity) : eff_scope.

(* ===================================================================== *)
(** ** contracts/market.js: the [PredictionMarket] class                 *)
(* ===================================================================== *)

Inductive Outcome : Type := YES | NO.

Inductive Status : Type := OPEN | CLOSED | RESOLVED.

(** An object of the shape [{ YES: n, NO: n }]: the two pools of a market,
    a position, a holdings entry. *)
Record Shares := mkShares { yes : num; no : num }.

Record PredictionMarket := mkMarket {
  marketID : string;
  question : string;
  kitID : string;
  deadline : string;
  createdBy : string;
  createdAt : string;
  outcomes : Shares;
  positions : gmap string Shares;
  status : Status;
  winningOutcome : option Outcome;
  totalVolume : num
}.

(** The object returned by a trade; a buy carries [cost], a sell [payout],
    the other property is [undefined]. *)
Record Transaction := mkTransaction {
  tx_marketID : string;
  tx_userId : string;
  tx_outcome : Outcome;
  tx_shares : num;
  tx_cost : option num;
  tx_payout : option num;
  tx_timestamp : string
}.

Module Market.
Import JsNum.

Definition other (o : Outcome) : Outcome :=
  match o with YES => NO | NO => YES end.

(** [obj[outcome]] and [obj[outcome] = v] *)
Definition side (o : Outcome) (s : Shares) : num :=
  match o with YES => yes s | NO => no s end.

Definition set_side (o : Outcome) (v : num) (s : Shares) : Shares :=
  match o with
  | YES => mkShares v (no s)
  | NO => mkShares (yes s) v
  end.

Definition isOpen (st : Status) : bool :=
  match st with OPEN => true | _ => false end.

Definition set_outcomes (v : Shares) (m : PredictionMarket) : PredictionMarket :=
  mkMarket (marketID m) (question m) (kitID m) (deadline m) (createdBy m) (createdAt m)
           v (positions m) (status m) (winningOutcome m) (totalVolume m).

Definition set_positions (v : gmap string Shares) (m : PredictionMarket) : PredictionMarket :=
  mkMarket (marketID m) (question m) (kitID m) (deadline m) (createdBy m) (createdAt m)
           (outcomes m) v (status m) (winningOutcome m) (totalVolume m).

Definition set_totalVolume (v : num) (m : PredictionMarket) : PredictionMarket :=
  mkMarket (marketID m) (question m) (kitID m) (deadline m) (createdBy m) (createdAt m)
           (outcomes m) (positions m) (status m) (winningOutcome m) v.

Definition set_resolution (st : Status) (w : option Outcome) (m : PredictionMarket)
  : PredictionMarket :=
  mkMarket (marketID m) (question m) (kitID m) (deadline m) (createdBy m) (createdAt m)
           (outcomes m) (positions m) st w (totalVolume m).

(** [new PredictionMarket(marketID, question, kitID, deadline, createdBy)] *)
Definition create (now mid q kit dl creator : string) : PredictionMarket :=
  {| marketID := mid; question := q; kitID := kit; deadline := dl;
     createdBy := creator; createdAt := now;
     outcomes := mkShares (of_Z 1000) (of_Z 1000);
     positions := ∅;
     status := OPEN;
     winningOutcome := None;
     totalVolume := of_Z 0 |}.

(** [calculatePrice(outcome, amount)] *)
Definition calculatePrice (outcome : Outcome) (amount : num) (m : PredictionMarket) : num :=
  let currentPool := side outcome (outcomes m) in
  let otherPool := side (other outcome) (outcomes m) in
  let price := mul amount (div otherPool currentPool) in
  div (round (mul price (of_Z 100))) (of_Z 100).

Local Open Scope eff_scope.

(** [buyShares(userId, outcome, amount)] *)
Definition buyShares (now userId : string) (outcome : Outcome) (amount : num)
  : M PredictionMarket Transaction :=
  m0 <- Eff.get ;;
  if negb (isOpen (status m0)) then Eff.throw "Market is not open for trading"
  else
    let cost := calculatePrice outcome amount m0 in
    Eff.modify (fun m =>
      set_outcomes (set_side outcome (sub (side outcome (outcomes m)) amount) (outcomes m)) m) ;;
    Eff.modify (fun m => set_totalVolume (add (totalVolume m) cost) m) ;;
    m1 <- Eff.get ;;
    Eff.when (bool_decide (positions m1 !! userId = None))
      (Eff.modify (fun m =>
         set_positions (<[userId := mkShares (of_Z 0) (of_Z 0)]> (positions m)) m)) ;;
    Eff.modify (fun m =>
      set_positions (alter (fun p => set_side outcome (add (side outcome p) amount) p)
                           userId (positions m)) m) ;;
    Eff.ret {| tx_marketID := marketID m0; tx_userId := userId; tx_outcome := outcome;
               tx_shares := amount; tx_cost := Some cost; tx_payout := None;
               tx_timestamp := now |}.

(** [sellShares(userId, outcome, amount)] *)
Definition sellShares (now userId : string) (outcome : Outcome) (amount : num)
  : M PredictionMarket Transaction :=
  m0 <- Eff.get ;;
  if negb (isOpen (status m0)) then Eff.throw "Market is not open for trading"
  else if match positions m0 !! userId with
          | None => true
          | Some p => ltb (side outcome p) amount
          end
  then Eff.throw "Insufficient shares"
  else
    let payout := calculatePrice outcome amount m0 in
    Eff.modify (fun m =>
      set_outcomes (set_side outcome (add (side outcome (outcomes m)) amount) (outcomes m)) m) ;;
    Eff.modify (fun m => set_totalVolume (add (totalVolume m) payout) m) ;;
    Eff.modify (fun m =>
      set_positions (alter (fun p => set_side outcome (sub (side outcome p) amount) p)
                           userId (positions m)) m) ;;
    Eff.ret {| tx_marketID := marketID m0; tx_userId := userId; tx_outcome := outcome;
               tx_shares := amount; tx_cost := None; tx_payout := Some payout;
               tx_timestamp := now |}.

(** [resolve(actualOutcome)] *)
Definition resolve (actualOutcome : Outcome) : M PredictionMarket unit :=
  m0 <- Eff.get ;;
  if negb (isOpen (status m0)) then Eff.throw "Market already closed"
  else Eff.modify (set_resolution RESOLVED (Some actualOutcome)).

(** [getProbabilities()] returns [{ YES: yesProb, NO: noProb }]. *)
Definition getProbabilities (m : PredictionMarket) : Shares :=
  let totalPool := add (yes (outcomes m)) (no (outcomes m)) in
  let yesProb := round (mul (div (no (outcomes m)) totalPool) (of_Z 100)) in
  let noProb := sub (of_Z 100) yesProb in
  mkShares yesProb noProb.

End Market.

(* ===================================================================== *)
(** ** contracts/shares.js: the [ShareManager] class                     *)
(* ===================================================================== *)

Record Balance := mkBalance {
  credits : num;
  holdings : gmap string Shares
}.

(** The counters only ever move by [++] from 0 and are kept as integers;
    [profit] is a JS number because it can become [NaN]. *)
Record Stats := mkStats {
  correctPredictions : Z;
  totalPredictions : Z;
  profit : num;
  totalTrades : Z
}.

Record ShareManager := mkShareManager {
  userBalances : gmap string Balance;
  userStats : gmap string Stats
}.

(** The object returned by [getBalance]. *)
Record BalanceView := mkBalanceView {
  view_credits : num;
  view_holdings : gmap string Shares;
  view_stats : option Stats
}.

(** A trade through the share manager works on two mutable objects: the
    manager itself and the market object it is handed. *)
Record World := mkWorld {
  manager : ShareManager;
  market : PredictionMarket
}.

Module Shares.
Import JsNum.
Local Open Scope eff_scope.

(** [new ShareManager()] *)
Definition create : ShareManager := mkShareManager ∅ ∅.

Definition set_manager (sm : ShareManager) (w : World) : World := mkWorld sm (market w).
Definition set_market (m : PredictionMarket) (w : World) : World := mkWorld (manager w) m.

Definition onManager {A} (c : M ShareManager A) : M World A := Eff.zoom manager set_manager c.
Definition onMarket {A} (c : M PredictionMarket A) : M World A := Eff.zoom market set_market c.

Definition typeError : string := "TypeError: Cannot read properties of undefined".

(** An in-place update of [this.userBalances[userId]]; reading a property
    of a missing entry throws. *)
Definition updateBalance (userId : string) (f : Balance -> Balance) : M ShareManager unit :=
  sm <- Eff.get ;;
  match userBalances sm !! userId with
  | Some b => Eff.modify (fun sm' =>
                mkShareManager (<[userId := f b]> (userBalances sm')) (userStats sm'))
  | None => Eff.throw typeError
  end.

(** An in-place update of [this.userStats[userId]]. *)
Definition updateStats (userId : string) (f : Stats -> Stats) : M ShareManager unit :=
  sm <- Eff.get ;;
  match userStats sm !! userId with
  | Some st => Eff.modify (fun sm' =>
                 mkShareManager (userBalances sm') (<[userId := f st]> (userStats sm')))
  | None => Eff.throw typeError
  end.

(** An in-place update of [this.userBalances[userId].holdings[mid]]. *)
Definition updateHolding (userId mid : string) (f : Shares -> Shares) : M ShareManager unit :=
  sm <- Eff.get ;;
  match userBalances sm !! userId with
  | Some b =>
      match holdings b !! mid with
      | Some h => updateBalance userId (fun b' =>
                    mkBalance (credits b') (<[mid := f h]> (holdings b')))
      | None => Eff.throw typeError
      end
  | None => Eff.throw typeError
  end.

Definition hasBalance (userId : string) (sm : ShareManager) : bool :=
  bool_decide (is_Some (userBalances sm !! userId)).

(** [initializeUser(userId, initialCredits)] *)
Definition initializeUser (userId : string) (initialCredits : num) : M ShareManager unit :=
  sm <- Eff.get ;;
  Eff.when (negb (hasBalance userId sm))
    (Eff.modify (fun sm' =>
       mkShareManager
         (<[userId := mkBalance initialCredits ∅]> (userBalances sm'))
         (<[userId := mkStats 0 0 (of_Z 0) 0]> (userStats sm')))).

Definition defaultCredits : num := of_Z 10000.

(** [getBalance(userId)] *)
Definition getBalance (userId : string) : M ShareManager BalanceView :=
  sm <- Eff.get ;;
  Eff.when (negb (hasBalance userId sm)) (initializeUser userId defaultCredits) ;;
  sm1 <- Eff.get ;;
  match userBalances sm1 !! userId with
  | Some b => Eff.ret (mkBalanceView (credits b) (holdings b) (userStats sm1 !! userId))
  | None => Eff.throw typeError
  end.

(** [buyShares(userId, market, outcome, amount)] *)
Definition buyShares (now userId : string) (outcome : Outcome) (amount : num)
  : M World Transaction :=
  w0 <- Eff.get ;;
  Eff.when (negb (hasBalance userId (manager w0)))
    (onManager (initializeUser userId defaultCredits)) ;;
  transaction <- onMarket (Market.buyShares now userId outcome amount) ;;
  onManager (updateBalance userId (fun b =>
    mkBalance (sub (credits b) (to_number (tx_cost transaction))) (holdings b))) ;;
  w1 <- Eff.get ;;
  let mid := marketID (market w1) in
  Eff.when (match userBalances (manager w1) !! userId with
            | Some b => bool_decide (holdings b !! mid = None)
            | None => false
            end)
    (onManager (updateBalance userId (fun b =>
       mkBalance (credits b) (<[mid := mkShares (of_Z 0) (of_Z 0)]> (holdings b))))) ;;
  onManager (updateHolding userId mid (fun h =>
    Market.set_side outcome (add (Market.side outcome h) amount) h)) ;;
  onManager (updateStats userId (fun st =>
    mkStats (correctPredictions st) (totalPredictions st) (profit st) (totalTrades st + 1))) ;;
  Eff.ret transaction.

(** [sellShares(userId, market, outcome, amount)] *)
Definition sellShares (now userId : string) (outcome : Outcome) (amount : num)
  : M World Transaction :=
  w0 <- Eff.get ;;
  if negb (hasBalance userId (manager w0)) then Eff.throw "User account not found"
  else
    transaction <- onMarket (Market.sellShares now userId outcome amount) ;;
    onManager (updateBalance userId (fun b =>
      mkBalance (add (credits b) (to_number (tx_payout transaction))) (holdings b))) ;;
    w1 <- Eff.get ;;
    onManager (updateHolding userId (marketID (market w1)) (fun h =>
      Market.set_side outcome (sub (Market.side outcome h) amount) h)) ;;
    onManager (updateStats userId (fun st =>
      mkStats (correctPredictions st) (totalPredictions st) (profit st) (totalTrades st + 1))) ;;
    onManager (updateStats userId (fun st =>
      mkStats (correctPredictions st) (totalPredictions st)
              (add (profit st)
                   (sub (to_number (tx_payout transaction)) (to_number (tx_cost transaction))))
              (totalTrades st))) ;;
    Eff.ret transaction.

(** [holdings[market.winningOutcome]]: [undefined] while the market has
    no winning outcome. *)
Definition winningSharesOf (m : PredictionMarket) (h : Shares) : option num :=
  match winningOutcome m with
  | Some w => Some (Market.side w h)
  | None => None
  end.

(** [holdings[market.winningOutcome === 'YES' ? 'NO' : 'YES']] *)
Definition losingSharesOf (m : PredictionMarket) (h : Shares) : num :=
  match winningOutcome m with
  | Some YES => no h
  | _ => yes h
  end.

(** [resolvePosition(userId, market)]; the market is only read. *)
Definition resolvePosition (userId : string) (m : PredictionMarket) : M ShareManager unit :=
  sm <- Eff.get ;;
  match userBalances sm !! userId with
  | None => Eff.ret tt
  | Some b =>
      match holdings b !! marketID m with
      | None => Eff.ret tt
      | Some h =>
          let winningShares := to_number (winningSharesOf m h) in
          let losingShares := losingSharesOf m h in
          Eff.when (gtb winningShares (of_Z 0))
            (updateStats userId (fun st =>
               mkStats (correctPredictions st + 1) (totalPredictions st)
                       (profit st) (totalTrades st))) ;;
          Eff.when (gtb winningShares (of_Z 0) || gtb losingShares (of_Z 0))
            (updateStats userId (fun st =>
               mkStats (correctPredictions st) (totalPredictions st + 1)
                       (profit st) (totalTrades st))) ;;
          updateBalance userId (fun b' =>
            mkBalance (credits b') (delete (marketID m) (holdings b')))
      end
  end.

End Shares.

(* ===================================================================== *)
(** ** Runs of the ledger and notions used in the statements             *)
(* ===================================================================== *)

(** One call [addBlock(payload)] together with the two clock readings it
    makes. *)
Record Append := mkAppend {
  stamp_reading : string;
  hash_reading : string;
  payload : json
}.

(** A sequence of [addBlock] calls. *)
Definition appendAll (calls : list Append) (store : Store) : Store :=
  foldl (fun st c => Blockchain.addBlock (stamp_reading c) (hash_reading c) (payload c) st)
        store calls.

(** Every block file holds the block whose [index] is in its name; all
    writers of the class keep it so. *)
Definition store_wf (store : Store) : Prop :=
  ∀ k b, store !! k = Some b → index b = k.




(** The store holds exactly the blocks of [chain], block [i] in file [i]. *)
Definition holds (chain : list Block) (store : Store) : Prop :=
  (∀ k, store !! k = chain !! N.to_nat k)
  ∧ (∀ i b, chain !! i = Some b → index b = N.of_nat i).

(** The block [addBlock] appends to a chain. *)
Definition nextBlock (chain : list Block) (c : Append) : Block :=
  let idx := N.of_nat (length chain) in
  let prev := match last chain with
              | Some b => hash b
              | None => Blockchain.genesisPreviousHash
              end in
  {| index := idx; timestamp := stamp_reading c; data := payload c;
     previousHash := prev;
     hash := Blockchain.calculateHash idx (hash_reading c) (payload c) prev |}.

Definition grow (chain : list Block) (c : Append) : list Block :=
  chain ++ [nextBlock chain c].

(** A value whose text needs every escape of [JSON.stringify]: a quote, a
    backslash, a newline, a tab and the control character 1; the character
    127 is left as it is. *)
Definition escapesSample : json :=
  JObj [("note"%string,
         JStr (String "a" (String Json.dquote (String "b" (String Json.backslash
              (String "c" (String "010" (String "d" (String "009" (String "e"
              (String "001" (String "f" (String "127" (String "g" EmptyString))))))))))))));
        ("n"%string, JArr [JNum (-3); JBool true; JNull; JObj []]);
        ("e"%string, JArr [])].

(** A custody record as [MedicalKit.toObject()] lays it out, used for the
    concrete runs below. *)
Definition kitRecord (kit : string) (temperature : Z) (location : string) : json :=
  JObj [("kitID"%string, JStr kit); ("type"%string, JStr "Vaccine");
        ("origin"%string, JStr "Geneva HQ"); ("temperature"%string, JNum temperature);
        ("location"%string, JStr location);
        ("timestamp"%string, JStr "2026-02-01T08:00:00.000Z");
        ("signature"%string, JStr "3045022100c1a5")].

(** The reports of an audit that runs to the end of the chain: for each
    position, in order, the report of the first check that fails there. *)
Definition reportAt (chain : list Block) (i : nat) : list TamperReport :=
  match chain !! i with
  | Some b =>
      if negb (Blockchain.hashValidAt chain i) then
        [mkTamperReport (index b) "Invalid block hash" "tampered"]
      else if negb (Blockchain.linkValidAt chain i) then
        [mkTamperReport (index b) "Invalid previous hash link" "tampered"]
      else []
  | None => []
  end.

Definition auditReport (chain : list Block) : list TamperReport :=
  flat_map (reportAt chain) (seq 0 (length chain)).

(** No block after the first has [null] as its payload. *)
Definition payloads_present (chain : list Block) : Prop :=
  ∀ i b, chain !! S i = Some b → data b ≠ JNull.

(** Position [i] of a chain fails one of the two checks: the block's own
    hash is not the digest of its fields, or its [previousHash] is not the
    hash of the block before it. *)
Definition tampered (chain : list Block) (i : nat) : Prop :=
  ∃ b, chain !! i = Some b
       ∧ (hash b ≠ Blockchain.expectedHash b
          ∨ ∃ i' p, i = S i' ∧ chain !! i' = Some p ∧ previousHash b ≠ hash p).


(** Three appends with a steady clock, the blocks they store, and what a
    peer holding a different first record has. *)
Definition firstCall : Append :=
  mkAppend "2026-03-01T10:15:30.123Z" "2026-03-01T10:15:30.123Z"
           (kitRecord "KIT-001" 4 "Warehouse").
Definition secondCall : Append :=
  mkAppend "2026-03-02T07:00:00.000Z" "2026-03-02T07:00:00.000Z"
           (kitRecord "KIT-001" 5 "Nairobi Hub").
Definition thirdCall : Append :=
  mkAppend "2026-03-03T16:45:10.500Z" "2026-03-03T16:45:10.500Z"
           (kitRecord "KIT-002" 3 "Juba").

Definition threeAppends : list Append := [firstCall; secondCall; thirdCall].

Definition block0 : Block := nextBlock [] firstCall.
Definition block1 : Block := nextBlock [block0] secondCall.
Definition block2 : Block := nextBlock [block0; block1] thirdCall.

(** A valid block for index 1 that is not the one the node stored there. *)
Definition rivalBlock : Block := nextBlock [block0] thirdCall.

(** A node that holds block 0 only and has then been pushed block 2: files
    0 and 2, nothing at 1. *)
Definition gapStore : Store :=
  snd (Blockchain.saveReceivedBlock block2 (appendAll [firstCall] ∅)).

Definition peerAppends : list Append :=
  [mkAppend "2026-03-01T09:00:00.000Z" "2026-03-01T09:00:00.000Z"
            (kitRecord "KIT-777" 6 "Goma")].


(** A freshly created market, as in the scenarios of the specification. *)
Definition freshMarket : PredictionMarket :=
  Market.create "2026-02-01T00:00:00.000Z" "MKT-001"
                "Will Kit-001 arrive in Nairobi by Friday?" "KIT-001"
                "2026-02-21T23:59:59Z" "admin".

(** The market [buyShares] leaves behind when it goes through. *)
Definition afterBuy (userId : string) (outcome : Outcome) (amount : num)
    (m : PredictionMarket) : PredictionMarket :=
  let cost := Market.calculatePrice outcome amount m in
  let held := default (mkShares (JsNum.of_Z 0) (JsNum.of_Z 0)) (positions m !! userId) in
  mkMarket (marketID m) (question m) (kitID m) (deadline m) (createdBy m) (createdAt m)
    (Market.set_side outcome (JsNum.sub (Market.side outcome (outcomes m)) amount) (outcomes m))
    (<[userId := Market.set_side outcome (JsNum.add (Market.side outcome held) amount) held]>
       (positions m))
    (status m) (winningOutcome m)
    (JsNum.add (totalVolume m) cost).

(** The transaction object of a buy. *)
Definition buyReceipt (now userId : string) (outcome : Outcome) (amount : num)
    (m : PredictionMarket) : Transaction :=
  {| tx_marketID := marketID m; tx_userId := userId; tx_outcome := outcome;
     tx_shares := amount; tx_cost := Some (Market.calculatePrice outcome amount m);
     tx_payout := None; tx_timestamp := now |}.

(** Every account has its statistics; [initializeUser], the only creator of
    accounts, sets both entries. *)
Definition manager_wf (sm : ShareManager) : Prop :=
  ∀ userId, is_Some (userBalances sm !! userId) → is_Some (userStats sm !! userId).

(** A method keeps an invariant of the state, also when it throws. *)
Definition keeps {S A} (I : S → Prop) (c : M S A) : Prop :=
  ∀ s, I s → I (snd (c s)).

(** The calls a client can make on a share manager and the market it trades
    on. *)
Inductive TradeCall : Type :=
  | CallInitializeUser (userId : string) (initialCredits : num)
  | CallGetBalance (userId : string)
  | CallBuy (now userId : string) (outcome : Outcome) (amount : num)
  | CallSell (now userId : string) (outcome : Outcome) (amount : num)
  | CallResolvePosition (userId : string)
  | CallMarketBuy (now userId : string) (outcome : Outcome) (amount : num)
  | CallMarketSell (now userId : string) (outcome : Outcome) (amount : num)
  | CallMarketResolve (actualOutcome : Outcome).

Definition runTrade (w : World) (call : TradeCall) : World :=
  match call with
  | CallInitializeUser userId c =>
      snd (Shares.onManager (Shares.initializeUser userId c) w)
  | CallGetBalance userId => snd (Shares.onManager (Shares.getBalance userId) w)
  | CallBuy now userId o amount => snd (Shares.buyShares now userId o amount w)
  | CallSell now userId o amount => snd (Shares.sellShares now userId o amount w)
  | CallResolvePosition userId =>
      snd (Shares.onManager (Shares.resolvePosition userId (market w)) w)
  | CallMarketBuy now userId o amount =>
      snd (Shares.onMarket (Market.buyShares now userId o amount) w)
  | CallMarketSell now userId o amount =>
      snd (Shares.onMarket (Market.sellShares now userId o amount) w)
  | CallMarketResolve actualOutcome => snd (Shares.onMarket (Market.resolve actualOutcome) w)
  end.

(** The holdings entry of a participant for a market, if there is one. *)
Definition held (sm : ShareManager) (userId mid : string) : option Shares :=
  userBalances sm !! userId ≫= fun b => holdings b !! mid.

(** The statistics of a new account. *)
Definition zeroStats : Stats := mkStats 0 0 (JsNum.of_Z 0) 0.

(** What [resolvePosition] does to the statistics of a participant holding
    [h] in a market won by [w]. *)
Definition settle (w : Outcome) (h : Shares) (st : Stats) : Stats :=
  let won := JsNum.gtb (Market.side w h) (JsNum.of_Z 0) in
  let lost := JsNum.gtb (Market.side (Market.other w) h) (JsNum.of_Z 0) in
  mkStats (correctPredictions st + (if won then 1 else 0))
          (totalPredictions st + (if won || lost then 1 else 0))
          (profit st) (totalTrades st).

(** A manager on which [user_alice] has an account with the default
    credits, and the world of that manager and a fresh market. *)
Definition managerWithAlice : ShareManager :=
  snd (Shares.initializeUser "user_alice" (JsNum.of_Z 10000) Shares.create).


(** The manager [ShareManager.buyShares] leaves behind when the trade goes
    through at price [cost]: the account (created with the default credits
    if it was missing) is charged, the holdings entry of the market gains the
    shares and the trade is counted. *)
Definition afterManagerBuy (userId mid : string) (outcome : Outcome) (amount cost : num)
    (sm : ShareManager) : ShareManager :=
  let b0 := default (mkBalance Shares.defaultCredits ∅) (userBalances sm !! userId) in
  let st0 := match userBalances sm !! userId with
             | Some _ => default zeroStats (userStats sm !! userId)
             | None => zeroStats
             end in
  let h0 := default (mkShares (JsNum.of_Z 0) (JsNum.of_Z 0)) (holdings b0 !! mid) in
  mkShareManager
    (<[userId := mkBalance (JsNum.sub (credits b0) cost)
                   (<[mid := Market.set_side outcome
                               (JsNum.add (Market.side outcome h0) amount) h0]>
                      (holdings b0))]> (userBalances sm))
    (<[userId := mkStats (correctPredictions st0) (totalPredictions st0) (profit st0)
                         (totalTrades st0 + 1)]> (userStats sm)).

(** A world in which Alice bought 10 YES shares from the market object
    directly, so that the market records a position the manager knows
    nothing about. *)
Definition directBuyWorld : World :=
  mkWorld managerWithAlice
          (snd (Market.buyShares "2026-02-02T09:00:00.000Z" "user_alice" YES (JsNum.of_Z 10)
                                 freshMarket)).

(** Alice holds 200 YES shares and Bob 300 NO shares of a market that is
    then resolved as YES. *)
Definition tradedWorld : World :=
  snd (Shares.buyShares "2026-02-03T10:00:00.000Z" "user_bob" NO (JsNum.of_Z 300)
    (snd (Shares.buyShares "2026-02-02T09:00:00.000Z" "user_alice" YES (JsNum.of_Z 200)
       (mkWorld Shares.create freshMarket)))).

Definition resolvedMarket : PredictionMarket :=
  snd (Market.resolve YES (market tradedWorld)).

(* ===================================================================== *)
(** ** Reading a payload the way the handlers do                          *)
(* ===================================================================== *)

Module Payload.

(** [obj[key]] on a parsed payload; [None] stands for [undefined]. An
    object has the property when it has the field; no other payload has
    any of the properties the handlers ask for. *)
Definition get (key : string) (v : json) : option json :=
  match v with
  | JObj fields => snd <$> List.find (fun kv => String.eqb (fst kv) key) fields
  | _ => None
  end.

(** Whether a value counts as true in a condition. *)
Definition truthy (v : json) : bool :=
  match v with
  | JNull => false
  | JBool b => b
  | JNum n => negb (n =? 0)
  | JStr s => negb (String.eqb s EmptyString)
  | JArr _ | JObj _ => true
  end.

(** [typeof obj[key] !== 'undefined'] *)
Definition defined (key : string) (v : json) : bool :=
  match get key v with Some _ => true | None => false end.

(** [d && d.kitID === kitId] for the payload [d] of a block, [kitId] being
    a string. *)
Definition ofKit (kitId : string) (d : json) : bool :=
  truthy d
  && match get "kitID" d with
     | Some (JStr s) => String.eqb s kitId
     | _ => false
     end.

End Payload.

(* ===================================================================== *)
(** ** contracts/ledger.js: peers and block tags                          *)
(* ===================================================================== *)

(** A block after [updateBlockStatus]: the block with its [status] tag and,
    when one was set, its [tamperReason]. No method of the class reads the
    two tags; the store keeps the five hashed fields. *)
Record TaggedBlock := mkTaggedBlock {
  tagged : Block;
  block_status : string;
  tamperReason : option string
}.

Module Ledger.
Import Blockchain.

(** [registerPeer(nodeUrl)] on [this.peers] *)
Definition registerPeer (nodeUrl : string) (peers : list string) : list string :=
  if bool_decide (nodeUrl ∈ peers) then peers else peers ++ [nodeUrl].

(** [updateBlockStatus(block)] *)
Definition updateBlockStatus (block : Block) : TaggedBlock :=
  if negb (String.eqb (hash block) (expectedHash block)) then
    mkTaggedBlock block "tampered" (Some "Invalid block hash"%string)
  else if Payload.truthy (data block)
          && (Payload.defined "location" (data block)
              || Payload.defined "temperature" (data block)
              || Payload.defined "kitID" (data block))
  then mkTaggedBlock block "verified" None
  else mkTaggedBlock block "unverified" (Some "Missing critical data fields"%string).

End Ledger.

(* ===================================================================== *)
(** ** contracts/p2p.js: the [P2PServer] class                            *)
(* ===================================================================== *)

(** What a [P2PServer] works on: the peer list and the ledger directory of
    its [Blockchain]. *)
Record Node := mkNode {
  peers : list string;
  ledger : Store
}.

Module P2PServer.
Import Blockchain.

(** [registerPeer(nodeUrl)] *)
Definition registerPeer (nodeUrl : string) (n : Node) : Node :=
  mkNode (Ledger.registerPeer nodeUrl (peers n)) (ledger n).

(** [syncWithPeer(peerUrl)]: [answer] is the [chain] of the peer's reply,
    [None] when the request failed or the reply carried none. *)
Definition syncWithPeer (answer : option (list Block)) (n : Node) : bool * Node :=
  match answer with
  | None => (false, n)
  | Some peerChain =>
      let '(chainReplaced, store) := replaceChain peerChain (ledger n) in
      if chainReplaced then (true, mkNode (peers n) store)
      else (true, mkNode (peers n) store)
  end.

(** [initializeSync(knownPeers)]: each peer comes with the answer it gives
    when asked. *)
Fixpoint initializeSync (knownPeers : list (string * option (list Block))) (n : Node) : Node :=
  match knownPeers with
  | [] => n
  | (peerUrl, answer) :: rest =>
      let registered := registerPeer peerUrl n in
      let '(syncSuccess, synced) := syncWithPeer answer registered in
      if syncSuccess then synced else initializeSync rest synced
  end.

End P2PServer.

(* ===================================================================== *)
(** ** server.js and test-asset.js: the handlers on the ledger            *)
(* ===================================================================== *)

(** The body of the reply of [GET /audit]. *)
Inductive AuditReply : Type :=
  | AuditEmpty
  | AuditTamperedAt (atBlock : N) (message : string)
  | AuditTamperedBlocks (tamperedBlocks : list TamperReport) (blockCount : nat)
  | AuditSecure (blockCount : nat)
  | AuditError (message : string).

(** The reply of a handler that answers with a list of blocks or with
    status 404. *)
Inductive HistoryReply : Type :=
  | HistoryNotFound
  | HistoryFound (recordCount : nat) (history : list Block).

(** The reply of a handler that takes a block from a peer: the HTTP status
    and the message or tag it carries. *)
Record ReceiveReply := mkReceiveReply {
  http_status : nat;
  reply_text : string
}.

(** The reply of [POST /admin/rollback-kit]. *)
Inductive RollbackReply : Type :=
  | RollbackBadRequest
  | RollbackNotFound
  | RollbackDeleted (deletedBlock : Block).

Module Server.
Import Blockchain.

(** The verification loop of [GET /audit] over the positions still to be
    visited: the first failing check ends it. *)
Fixpoint auditLoop (blocks : list Block) (todo : list nat) : option (N * string) :=
  match todo with
  | [] => None
  | i :: rest =>
      match blocks !! i with
      | Some currentBlock =>
          if negb (String.eqb (hash currentBlock) (expectedHash currentBlock)) then
            Some (index currentBlock, "Block hash does not match expected value"%string)
          else
            match i with
            | S i' =>
                match blocks !! i' with
                | Some previousBlock =>
                    if negb (String.eqb (previousHash currentBlock) (hash previousBlock)) then
                      Some (index currentBlock,
                            "Previous hash does not match previous block's hash"%string)
                    else auditLoop blocks rest
                | None => auditLoop blocks rest
                end
            | O => auditLoop blocks rest
            end
      | None => auditLoop blocks rest
      end
  end.

(** [GET /audit] of server.js *)
Definition audit (store : Store) : AuditReply :=
  let blocks := getFullChain store in
  if (length blocks =? 0)%nat then AuditEmpty
  else match auditLoop blocks (seq 0 (length blocks)) with
       | Some (atBlock, message) => AuditTamperedAt atBlock message
       | None => AuditSecure (length blocks)
       end.

(** [GET /ledger/:kitId] *)
Definition ledgerKit (requestedKitId : string) (store : Store) : HistoryReply :=
  let kitHistory := filter (fun block => Payload.ofKit requestedKitId (data block) = true)
                           (getFullChain store) in
  if (length kitHistory =? 0)%nat then HistoryNotFound
  else HistoryFound (length kitHistory) kitHistory.

End Server.

Module Gateway.
Import Blockchain.

(** [GET /audit] of test-asset.js: [detectTampering] first, then the same
    loop as in server.js; an exception becomes the reply with status 500. *)
Definition audit (store : Store) : AuditReply :=
  let blocks := getFullChain store in
  if (length blocks =? 0)%nat then AuditEmpty
  else match detectTampering blocks with
       | Throw msg => AuditError msg
       | Ok tamperedBlocks =>
           if (0 <? length tamperedBlocks)%nat then
             AuditTamperedBlocks tamperedBlocks (length blocks)
           else match Server.auditLoop blocks (seq 0 (length blocks)) with
                | Some (atBlock, message) => AuditTamperedAt atBlock message
                | None => AuditSecure (length blocks)
                end
       end.

(** [POST /blocks/receive] *)
Definition blocksReceive (newBlock : Block) (store : Store) : ReceiveReply * Store :=
  let updatedBlock := Ledger.updateBlockStatus newBlock in
  let '(success, store') := saveReceivedBlock (tagged updatedBlock) store in
  if success then (mkReceiveReply 200 (block_status updatedBlock), store')
  else (mkReceiveReply 400 "Block rejected (Invalid hash/sequence)", store').

(** [POST /receive-block]; [request] is the [block] of the request body,
    if it has one. *)
Definition receiveBlock (request : option Block) (store : Store) : ReceiveReply * Store :=
  match request with
  | None => (mkReceiveReply 400 "Missing required field: block", store)
  | Some block =>
      let added :=
        mkReceiveReply 200 ("Block " ++ string_of_index (index block)
                            ++ " received and added to ledger") in
      if negb (String.eqb (hash block) (expectedHash block)) then
        (mkReceiveReply 400 "Received block has invalid hash", store)
      else
        match store !! index block with
        | Some existingBlock =>
            if String.eqb (hash existingBlock) (hash block) then
              (mkReceiveReply 200 "Block already exists in ledger", store)
            else (added, <[index block := block]> store)
        | None => (added, <[index block := block]> store)
        end
  end.

(** [POST /admin/rollback-kit]: the block files are walked from the highest
    number down and the first one that belongs to the kit is deleted. *)
Definition file_ge (a b : N * Block) : Prop := (fst b <= fst a)%N.

#[global] Instance file_ge_dec : RelDecision file_ge.
Proof. intros a b. unfold file_ge. apply _. Defined.

Definition rollbackKit (kitID : string) (store : Store) : RollbackReply * Store :=
  if String.eqb kitID EmptyString then (RollbackBadRequest, store)
  else
    let blockFiles := merge_sort file_ge (map_to_list store) in
    let blocksToDelete :=
      filter (fun file => Payload.ofKit kitID (data (snd file)) = true) blockFiles in
    match blocksToDelete with
    | [] => (RollbackNotFound, store)
    | blockToDelete :: _ =>
        (RollbackDeleted (snd blockToDelete), delete (fst blockToDelete) store)
    end.

End Gateway.

(** The chain a run of [addBlock] calls builds on a ledger whose next index
    is [idx] and whose latest hash is [prev]. *)
Fixpoint chainFrom (idx : N) (prev : string) (calls : list Append) : list Block :=
  match calls with
  | [] => []
  | c :: rest =>
      let block :=
        {| index := idx; timestamp := stamp_reading c; data := payload c;
           previousHash := prev;
           hash := Blockchain.calculateHash idx (hash_reading c) (payload c) prev |} in
      block :: chainFrom (idx + 1) (hash block) rest
  end.

(** A block numbered 1 whose hash is the digest of its own fields and whose
    [previousHash] is not the hash of any stored block. *)
Definition unlinkedBlock : Block :=
  let ts := "2026-03-02T07:00:00.000Z"%string in
  let d := kitRecord "KIT-009" 7 "Unknown" in
  {| index := 1; timestamp := ts; data := d;
     previousHash := Blockchain.genesisPreviousHash;
     hash := Blockchain.calculateHash 1 ts d Blockchain.genesisPreviousHash |}.

(* ===================================================================== *)
(** ** Runs of the market and notions used in the statements             *)
(* ===================================================================== *)

(** The market [sellShares] leaves behind when it goes through. *)
Definition afterSell (userId : string) (outcome : Outcome) (amount : num)
    (m : PredictionMarket) : PredictionMarket :=
  let payout := Market.calculatePrice outcome amount m in
  mkMarket (marketID m) (question m) (kitID m) (deadline m) (createdBy m) (createdAt m)
    (Market.set_side outcome (JsNum.add (Market.side outcome (outcomes m)) amount) (outcomes m))
    (alter (fun p => Market.set_side outcome (JsNum.sub (Market.side outcome p) amount) p)
           userId (positions m))
    (status m) (winningOutcome m)
    (JsNum.add (totalVolume m) payout).

(** The transaction object of a sell. *)
Definition sellReceipt (now userId : string) (outcome : Outcome) (amount : num)
    (m : PredictionMarket) : Transaction :=
  {| tx_marketID := marketID m; tx_userId := userId; tx_outcome := outcome;
     tx_shares := amount; tx_cost := None;
     tx_payout := Some (Market.calculatePrice outcome amount m);
     tx_timestamp := now |}.

(** The number of shares a call trades, if it is a trade. *)
Definition amountOf (call : TradeCall) : option num :=
  match call with
  | CallBuy _ _ _ amount | CallSell _ _ _ amount
  | CallMarketBuy _ _ _ amount | CallMarketSell _ _ _ amount => Some amount
  | _ => None
  end.


(** The value of a finite number. *)
Definition valueOf (x : num) : Q :=
  match x with Fin q => q | _ => 0%Q end.

Definition isFinite (x : num) : Prop := ∃ q, x = Fin q.



(** A market on which trading has begun: the state a market is in between
    its creation and its resolution. *)
Definition lifecycle (m : PredictionMarket) : Prop :=
  (status m = OPEN ∧ winningOutcome m = None)
  ∨ (status m = RESOLVED ∧ ∃ o, winningOutcome m = Some o).


(* ===================================================================== *)
(** ** contracts/shares.js: the views of the [ShareManager]               *)
(* ===================================================================== *)

(** One row of the leaderboard: the statistics of a participant together
    with the accuracy and the credits shown for them. *)
Record LeaderboardEntry := mkLeaderboardEntry {
  entry_userId : string;
  entry_stats : Stats;
  accuracy : num;
  entry_credits : num
}.

Module Views.
Import JsNum.


(** [x || 0] for a number that may be missing. *)
Definition orZero (x : option num) : num :=
  match x with
  | Some (Fin q) => if Qeq_bool q 0 then of_Z 0 else Fin q
  | Some NaN | None => of_Z 0
  | Some inf => inf
  end.

(** [a !== b] on numbers. *)
Definition differ (a b : num) : bool :=
  match a, b with
  | Fin x, Fin y => negb (Qeq_bool x y)
  | PInf, PInf | NInf, NInf => false
  | _, _ => true
  end.

(** The row [getLeaderboard] builds for one key of [userStats]. *)
Definition entryOf (sm : ShareManager) (userId : string) (st : Stats) : LeaderboardEntry :=
  {| entry_userId := userId;
     entry_stats := st;
     accuracy :=
       if 0 <? totalPredictions st
       then round (mul (div (of_Z (correctPredictions st)) (of_Z (totalPredictions st)))
                       (of_Z 100))
       else of_Z 0;
     entry_credits := orZero (credits <$> userBalances sm !! userId) |}.

(** The comparison function handed to [sort]. *)
Definition compareEntries (a b : LeaderboardEntry) : num :=
  if differ (accuracy b) (accuracy a) then sub (accuracy b) (accuracy a)
  else sub (profit (entry_stats b)) (profit (entry_stats a)).

(** [Array.prototype.sort] with that comparison: a stable sort, written
    as the insertion of each row before the first row it does not have to
    follow. The order it gives is the one of the language whenever the
    comparison is consistent, which it is as long as no profit is [NaN]. *)
Fixpoint insertEntry (x : LeaderboardEntry) (sorted : list LeaderboardEntry)
  : list LeaderboardEntry :=
  match sorted with
  | [] => [x]
  | y :: rest =>
      if gtb (compareEntries x y) (of_Z 0) then y :: insertEntry x rest
      else x :: y :: rest
  end.

Definition sortEntries (rows : list LeaderboardEntry) : list LeaderboardEntry :=
  foldr insertEntry [] rows.

(** [getLeaderboard()]; [keys] is [Object.keys(this.userStats)], the users
    in the order in which their accounts were created. *)
Definition getLeaderboard (keys : list string) (sm : ShareManager) : list LeaderboardEntry :=
  sortEntries (omap (fun userId => entryOf sm userId <$> userStats sm !! userId) keys).

End Views.

(* ===================================================================== *)
(** ** server.js: resolving a market                                      *)
(* ===================================================================== *)

Module MarketApi.
Local Open Scope eff_scope.

(** The [outcome] of the request body: only the two strings pass the
    check. *)
Definition outcomeOf (outcome : string) : option Outcome :=
  if String.eqb outcome "YES" then Some YES
  else if String.eqb outcome "NO" then Some NO
  else None.

(** [for (const x of xs) body(x)] *)
Fixpoint forEach {S A} (xs : list A) (body : A -> M S unit) : M S unit :=
  match xs with
  | [] => Eff.ret tt
  | x :: rest => body x ;; forEach rest body
  end.

(** [POST /api/markets/:id/resolve] for a market that exists; [keys] is
    [Object.keys(shareManager.userBalances)]. A [Throw] is the reply with
    status 400 carrying the message. *)
Definition resolveMarket (keys : list string) (outcome : string) : M World unit :=
  match outcomeOf outcome with
  | None => Eff.throw "Invalid outcome. Must be YES or NO"
  | Some o =>
      Shares.onMarket (Market.resolve o) ;;
      forEach keys (fun userId =>
        w <- Eff.get ;;
        Shares.onManager (Shares.resolvePosition userId (market w)))
  end.

End MarketApi.

(** The counters of a participant are consistent: no more correct
    predictions than predictions, and nothing negative. *)
Definition counters_ok (st : Stats) : Prop :=
  0 <= correctPredictions st <= totalPredictions st ∧ 0 <= totalTrades st.

Definition all_counters_ok (sm : ShareManager) : Prop :=
  ∀ u st, userStats sm !! u = Some st → counters_ok st.

(** What the resolution of a market won by [w] leaves of an account: the
    credits as they were, the holdings without the entry of the market. *)
Definition closeOut (mid : string) (b : Balance) : Balance :=
  mkBalance (credits b) (delete mid (holdings b)).

(** Alice buys 200 YES shares, the market is resolved as YES and her
    position is settled. *)
Definition settledTrades : list TradeCall :=
  [CallBuy "2026-02-02T09:00:00.000Z" "user_alice" YES (JsNum.of_Z 200);
   CallMarketResolve YES;
   CallResolvePosition "user_alice"].

(** Row [a] may stand before row [b] on the leaderboard: it has the higher
    accuracy, or the same accuracy and at least the profit of [b]. *)
Definition precedes (a b : LeaderboardEntry) : Prop :=
  (valueOf (accuracy b) < valueOf (accuracy a))%Q
  ∨ ((valueOf (accuracy a) == valueOf (accuracy b))%Q
     ∧ (valueOf (profit (entry_stats b)) <= valueOf (profit (entry_stats a)))%Q).

(** The rows of the leaderboard before they are sorted. *)
Definition boardRows (keys : list string) (sm : ShareManager) : list LeaderboardEntry :=
  omap (fun userId => Views.entryOf sm userId <$> userStats sm !! userId) keys.

(** A manager with three accounts whose predictions have been settled. *)
Definition rankedManager : ShareManager :=
  mkShareManager
    (<["user_alice" := mkBalance (JsNum.of_Z 9800) ∅]>
       (<["user_bob" := mkBalance (JsNum.of_Z 0) ∅]>
          (<["user_carol" := mkBalance (JsNum.of_Z 10000) ∅]> ∅)))
    (<["user_alice" := mkStats 1 2 (JsNum.of_Z 0) 3]>
       (<["user_bob" := mkStats 3 3 (JsNum.of_Z 0) 4]>
          (<["user_carol" := mkStats 0 0 (JsNum.of_Z 0) 0]> ∅))).

(** Accounts and statistics belong to the same participants. *)
Definition same_users (sm : ShareManager) : Prop :=
  ∀ userId, is_Some (userBalances sm !! userId) ↔ is_Some (userStats sm !! userId).



(** Three appends with a steady clock, the second of which stores [null]. *)
Definition nullAppends : list Append :=
  [firstCall;
   mkAppend "2026-03-02T07:00:00.000Z" "2026-03-02T07:00:00.000Z" JNull;
   thirdCall].

(* ===================================================================== *)
(** * The primitives on known values                                      *)
(* ===================================================================== *)

(** The digest on the test vectors of FIPS 180-4: a short message, the
    empty message and one whose padding takes a second block. *)
Lemma sha256_test_vectors :
  Sha256.sha256_hex "abc"
  = "ba7816bf8f01cfea414140de5dae2223b00361a396177a9cb410ff61f20015ad"%string
  ∧ Sha256.sha256_hex EmptyString
    = "e3b0c44298fc1c149afbf4c8996fb92427ae41e4649b934ca495991b7852b855"%string
  ∧ Sha256.sha256_hex "abcdbcdecdefdefgefghfghighijhijkijkljklmklmnlmnomnopnopq"
    = "248d6a61d20638b8e5c026930c3e6039a33ce45964ff2167f6ecedd419db06c1"%string.
Proof. split_and!; vm_compute; reflexivity. Qed.

(** [JSON.stringify] checked through the digest of its output: a custody
    record (164 characters) and a value with every kind of escape. *)
Lemma stringify_digests :
  String.length (Json.stringify (kitRecord "KIT-001" 4 "Warehouse")) = 164%nat
  ∧ Sha256.sha256_hex (Json.stringify (kitRecord "KIT-001" 4 "Warehouse"))
    = "294e8b0d81b816f885741bc427f330e5102b203d578a2e5cc8dfe4d2dbf9cddc"%string
  ∧ Sha256.sha256_hex (Json.stringify escapesSample)
    = "dd71d4999c484d4a4fa22ce494b0fe833860d4f2aea4dacb8d8c07c9dc6d4dcc"%string.
Proof. split_and!; vm_compute; reflexivity. Qed.

(** The market runs used below, in binary64: the price of 200, 1500 and
    20000 shares at pools 1000/1000 is the amount itself, the pools and the
    credits that result are exact, and the implied YES percentage rounds to
    50 at pools 1000/1000 and 999/1000, to 56 at 800/1000 and to -100 at
    -2000/1000. *)
Lemma market_runs_in_binary64 :
  Binary64.rounds_to (Binary64.price100 200 1000 1000) 20000 = true
  ∧ PrimFloat.eqb (20000 / 100) 200 = true
  ∧ PrimFloat.eqb (1000 - 200) 800 = true
  ∧ Binary64.rounds_to (Binary64.price100 1500 1000 1000) 150000 = true
  ∧ PrimFloat.eqb (1000 - 1500) (-500) = true
  ∧ Binary64.rounds_to (Binary64.price100 20000 1000 1000) 2000000 = true
  ∧ PrimFloat.eqb (10000 - 2000000 / 100) (-10000) = true
  ∧ Binary64.rounds_to (Binary64.percent 1000 1000) 50 = true
  ∧ Binary64.rounds_to (Binary64.percent (1000 - 1) 1000) 50 = true
  ∧ Binary64.rounds_to (Binary64.percent (1000 - 200) 1000) 56 = true
  ∧ Binary64.rounds_to (Binary64.percent (1000 - 3000) 1000) (-100) = true.
Proof. split_and!; vm_compute; reflexivity. Qed.

(* ===================================================================== *)
(** * Properties of the ledger                                            *)
(* ===================================================================== *)

Section LedgerFacts.
Import Blockchain.

Lemma latest_step_fold (l : list (N * Block)) (acc : option (N * Block)) :
  match foldl latest_step acc l with
  | None => acc = None ∧ l = []
  | Some f =>
      (acc = Some f ∨ f ∈ l)
      ∧ (∀ g, acc = Some g → (fst g <= fst f)%N)
      ∧ (∀ g, g ∈ l → (fst g <= fst f)%N)
  end.
Proof.
  revert acc. induction l as [|x l IH]; intros acc; simpl.
  - destruct acc as [f|]; [|done]. split_and!; [by left | | ].
    + intros g [= ->]. lia.
    + intros g Hg. by apply elem_of_nil in Hg.
  - specialize (IH (latest_step acc x)).
    destruct (foldl latest_step (latest_step acc x) l) as [f|] eqn:E.
    + destruct IH as (Hin & Hacc & Hl). split_and!.
      * destruct Hin as [Hin|Hin]; [|right; by apply elem_of_cons; right].
        unfold latest_step in Hin. destruct acc as [[k bk]|].
        -- destruct (k <? fst x)%N; [right | by left].
           injection Hin as <-. apply elem_of_cons; by left.
        -- right. injection Hin as <-. apply elem_of_cons; by left.
      * intros g ->. unfold latest_step in Hacc. destruct g as [k bk]; simpl in *.
        destruct (k <? fst x)%N eqn:Hk.
        -- specialize (Hacc x eq_refl). apply N.ltb_lt in Hk. lia.
        -- by apply (Hacc (k, bk)).
      * intros g Hg. apply elem_of_cons in Hg as [->|Hg]; [|by apply Hl].
        unfold latest_step in Hacc. destruct acc as [[k bk]|].
        -- destruct (k <? fst x)%N eqn:Hk.
           ++ by apply Hacc.
           ++ specialize (Hacc (k, bk) eq_refl). apply N.ltb_ge in Hk. simpl in *. lia.
        -- by apply Hacc.
    + destruct IH as [Hacc _]. unfold latest_step in Hacc.
      destruct acc as [[k bk]|]; [|done]. by destruct (k <? fst x)%N.
Qed.

Lemma getLatestBlock_None (store : Store) :
  getLatestBlock store = None ↔ store = ∅.
Proof.
  unfold getLatestBlock. pose proof (latest_step_fold (map_to_list store) None) as H.
  destruct (foldl latest_step None (map_to_list store)) as [f|]; simpl.
  - split; [done|]. intros ->. rewrite map_to_list_empty in H.
    destruct H as ([?|Hin] & _); [done|]. by apply elem_of_nil in Hin.
  - split; [|done]. intros _. destruct H as [_ H]. by apply map_to_list_empty_iff.
Qed.

Lemma getLatestBlock_Some (store : Store) (b : Block) :
  getLatestBlock store = Some b →
  ∃ k, store !! k = Some b ∧ ∀ k', is_Some (store !! k') → (k' <= k)%N.
Proof.
  unfold getLatestBlock. pose proof (latest_step_fold (map_to_list store) None) as H.
  destruct (foldl latest_step None (map_to_list store)) as [[k bk]|]; simpl; [|done].
  intros [= ->]. destruct H as ([?|Hin] & _ & Hmax); [done|].
  exists k. split; [by apply elem_of_map_to_list in Hin|].
  intros k' [b' Hb']. apply elem_of_map_to_list in Hb'. by apply (Hmax (k', b')).
Qed.

Lemma getLatestBlock_empty : getLatestBlock ∅ = None.
Proof. by apply getLatestBlock_None. Qed.

(** In a well-formed store the latest block carries the highest index. *)
Lemma getLatestBlock_max (store : Store) (b : Block) :
  store_wf store → getLatestBlock store = Some b →
  store !! index b = Some b ∧ ∀ k', is_Some (store !! k') → (k' <= index b)%N.
Proof.
  intros Hwf Hl. apply getLatestBlock_Some in Hl as (k & Hk & Hmax).
  pose proof (Hwf _ _ Hk) as ->. done.
Qed.


Lemma store_wf_insert (store : Store) (b : Block) :
  store_wf store → store_wf (<[index b := b]> store).
Proof.
  intros Hwf k b'. rewrite lookup_insert. case_decide as Hk.
  - by intros [= <-].
  - apply Hwf.
Qed.


Lemma getFullChain_length (store : Store) :
  length (getFullChain store) = size store.
Proof.
  unfold getFullChain. rewrite length_fmap, merge_sort_Permutation.
  apply length_map_to_list.
Qed.

#[local] Instance file_le_trans : Transitive file_le.
Proof. intros a b c. unfold file_le. lia. Qed.

#[local] Instance file_le_total : Total file_le.
Proof. intros a b. unfold file_le. lia. Qed.

Lemma numbered_sorted (l : list Block) (n : nat) :
  StronglySorted file_le (imap (fun i b => (N.of_nat (n + i), b)) l).
Proof.
  revert n. induction l as [|b l IH]; intros n; simpl; [constructor|].
  constructor.
  - erewrite imap_ext; [apply (IH (S n))|].
    intros i x _. simpl. f_equal. lia.
  - apply Forall_forall. intros [k bk] Hin.
    apply elem_of_lookup_imap in Hin as (i & y & Heq & _).
    injection Heq as -> ->. unfold file_le. simpl. lia.
Qed.

(** The files of a store that holds [chain], in any directory order. *)
Lemma holds_files (chain : list Block) (store : Store) :
  holds chain store →
  map_to_list store ≡ₚ imap (fun i b => (N.of_nat (0 + i), b)) chain.
Proof.
  intros [Hlook _]. apply NoDup_Permutation.
  - apply NoDup_map_to_list.
  - apply NoDup_alt. intros i j [k b] Hi Hj.
    apply list_lookup_imap_Some in Hi as (x & Hx & Heq).
    apply list_lookup_imap_Some in Hj as (y & Hy & Heq').
    simplify_eq. lia.
  - intros [k b]. rewrite elem_of_map_to_list, Hlook, elem_of_lookup_imap. split.
    + intros Hb. exists (N.to_nat k), b. split; [|done]. f_equal. lia.
    + intros (i & y & Heq & Hy). injection Heq as -> ->.
      by rewrite Nat2N.id.
Qed.

(** Reading such a store back gives the chain, in order. *)
Lemma getFullChain_holds (chain : list Block) (store : Store) :
  holds chain store → getFullChain store = chain.
Proof.
  intros Hh. unfold getFullChain.
  assert (merge_sort file_le (map_to_list store)
          = imap (fun i b => (N.of_nat (0 + i), b)) chain) as ->.
  { apply (StronglySorted_unique_strong file_le).
    - intros [k1 b1] [k2 b2] H1 H2 Hle1 Hle2. unfold file_le in *. simpl in *.
      assert (k1 = k2) as -> by lia.
      rewrite merge_sort_Permutation, (holds_files _ _ Hh) in H1.
      apply elem_of_lookup_imap in H1 as (i1 & y1 & E1 & L1).
      apply elem_of_lookup_imap in H2 as (i2 & y2 & E2 & L2).
      simplify_eq. simpl in *. congruence.
    - apply StronglySorted_merge_sort; apply _.
    - apply numbered_sorted.
    - rewrite merge_sort_Permutation. by apply holds_files. }
  apply list_eq. intros i. rewrite list_lookup_fmap, list_lookup_imap.
  by destruct (chain !! i).
Qed.

Lemma holds_empty : holds [] ∅.
Proof. split; intros; [by rewrite lookup_empty | done]. Qed.

Lemma holds_latest (chain : list Block) (store : Store) :
  holds chain store → getLatestBlock store = last chain.
Proof.
  intros [Hlook Hidx]. destruct (getLatestBlock store) as [b|] eqn:E.
  - apply getLatestBlock_Some in E as (k & Hk & Hmax).
    rewrite Hlook in Hk. pose proof (lookup_lt_Some _ _ _ Hk) as Hlt.
    rewrite last_lookup. rewrite <- Hk. f_equal.
    destruct (decide (N.to_nat k = pred (length chain))) as [|Hne]; [done|].
    destruct (lookup_lt_is_Some_2 chain (S (N.to_nat k))) as [b' Hb']; [lia|].
    specialize (Hmax (N.of_nat (S (N.to_nat k)))).
    rewrite Hlook, Nat2N.id in Hmax. specialize (Hmax (ex_intro _ _ Hb')). lia.
  - apply getLatestBlock_None in E as ->.
    destruct chain as [|b chain]; [done|].
    specialize (Hlook 0%N). by rewrite lookup_empty in Hlook.
Qed.

Lemma holds_wf (chain : list Block) (store : Store) :
  holds chain store → store_wf store.
Proof.
  intros [Hlook Hidx] k b Hk. rewrite Hlook in Hk.
  rewrite (Hidx _ _ Hk). lia.
Qed.

(** One [addBlock] extends the chain held by the store by [nextBlock]. *)
Lemma addBlock_holds (chain : list Block) (store : Store) (c : Append) :
  holds chain store →
  holds (grow chain c) (addBlock (stamp_reading c) (hash_reading c) (payload c) store).
Proof.
  intros Hh. pose proof (holds_latest _ _ Hh) as Hlatest.
  pose proof Hh as [Hlook Hidx].
  assert (match getLatestBlock store with
          | Some b => (index b + 1)%N | None => 0%N end
          = N.of_nat (length chain)) as Hnext.
  { rewrite Hlatest, last_lookup.
    destruct chain as [|b0 chain0] eqn:Ec; [done|]. rewrite <- Ec in *.
    assert (is_Some (chain !! pred (length chain))) as [b Hb].
    { apply lookup_lt_is_Some_2. subst chain. simpl. lia. }
    rewrite Hb. rewrite (Hidx _ _ Hb). subst chain. simpl. lia. }
  unfold addBlock, grow, nextBlock. rewrite Hnext, Hlatest.
  split.
  - intros k. rewrite lookup_insert. case_decide as Hk.
    + subst k. rewrite Nat2N.id.
      by rewrite lookup_app_r, Nat.sub_diag by lia.
    + rewrite Hlook. destruct (decide (N.to_nat k < length chain)%nat).
      * by rewrite lookup_app_l by done.
      * rewrite !lookup_ge_None_2; [done| |lia].
        rewrite length_app. simpl. lia.
  - intros i b Hb. apply lookup_app_Some in Hb as [Hb|[Hge Hb]].
    + by apply Hidx.
    + apply list_lookup_singleton_Some in Hb as [Hi <-]. simpl. f_equal. lia.
Qed.

Lemma appendAll_holds (calls : list Append) (chain : list Block) (store : Store) :
  holds chain store → holds (foldl grow chain calls) (appendAll calls store).
Proof.
  revert chain store. induction calls as [|c calls IH]; intros chain store Hh; simpl.
  - done.
  - apply IH. by apply addBlock_holds.
Qed.

(** The chain read back after a run of [addBlock] calls on an empty
    ledger. *)
Lemma getFullChain_appendAll (calls : list Append) :
  getFullChain (appendAll calls ∅) = foldl grow [] calls.
Proof. apply getFullChain_holds, appendAll_holds, holds_empty. Qed.

(** *** The checks of [validateChain], position by position *)

Lemma validateChain_true (chain : list Block) :
  validateChain chain = true
  ↔ ∀ i, (i < length chain)%nat → hashValidAt chain i = true ∧ linkValidAt chain i = true.
Proof.
  unfold validateChain. rewrite forallb_forall. split.
  - intros H i Hi. apply andb_prop, H, in_seq. lia.
  - intros H i Hi. apply in_seq in Hi. apply andb_true_intro, H. lia.
Qed.

Lemma hashValidAt_app_l (chain tail : list Block) (i : nat) :
  (i < length chain)%nat → hashValidAt (chain ++ tail) i = hashValidAt chain i.
Proof. intros Hi. unfold hashValidAt. by rewrite lookup_app_l. Qed.

Lemma linkValidAt_app_l (chain tail : list Block) (i : nat) :
  (i < length chain)%nat → linkValidAt (chain ++ tail) i = linkValidAt chain i.
Proof.
  intros Hi. unfold linkValidAt. destruct i as [|i']; [done|].
  by rewrite !lookup_app_l by lia.
Qed.

(** The link of a newly appended block is right whatever the clock says. *)
Lemma grow_link (chain : list Block) (c : Append) :
  linkValidAt (grow chain c) (length chain) = true.
Proof.
  unfold linkValidAt, grow. destruct (length chain) as [|n] eqn:Hlen; [done|].
  rewrite lookup_app_r by lia. rewrite lookup_app_l by lia.
  rewrite Hlen, Nat.sub_diag. simpl.
  destruct (lookup_lt_is_Some_2 chain n) as [p Hp]; [lia|]. rewrite Hp.
  unfold nextBlock. simpl. rewrite last_lookup, Hlen. simpl. rewrite Hp.
  apply String.eqb_refl.
Qed.

(** Its own hash is right exactly when hashing the stored timestamp gives
    the digest that was computed from the second clock reading. *)
Lemma grow_hash (chain : list Block) (c : Append) :
  hashValidAt (grow chain c) (length chain)
  = String.eqb (hash (nextBlock chain c)) (expectedHash (nextBlock chain c)).
Proof.
  unfold hashValidAt, grow. by rewrite lookup_app_r, Nat.sub_diag by lia.
Qed.

Lemma grow_length (chain : list Block) (c : Append) :
  length (grow chain c) = S (length chain).
Proof. unfold grow. rewrite length_app. simpl. lia. Qed.

Lemma foldl_grow_linked (calls : list Append) (chain : list Block) :
  (∀ i, (i < length chain)%nat → linkValidAt chain i = true) →
  ∀ i, (i < length (foldl grow chain calls))%nat →
       linkValidAt (foldl grow chain calls) i = true.
Proof.
  revert chain. induction calls as [|c calls IH]; intros chain Hc; simpl; [done|].
  apply IH. intros i Hi. rewrite grow_length in Hi.
  destruct (decide (i = length chain)) as [->|Hne].
  - apply grow_link.
  - unfold grow. rewrite linkValidAt_app_l by lia. apply Hc. lia.
Qed.

Lemma foldl_grow_valid (calls : list Append) (chain : list Block) :
  validateChain chain = true →
  (∀ c, c ∈ calls → stamp_reading c = hash_reading c) →
  validateChain (foldl grow chain calls) = true.
Proof.
  revert chain. induction calls as [|c calls IH]; intros chain Hv Hclock; simpl; [done|].
  apply IH; [|intros c' Hc'; apply Hclock; by apply elem_of_cons; right].
  rewrite validateChain_true in *. intros i Hi. rewrite grow_length in Hi.
  destruct (decide (i = length chain)) as [->|Hne].
  - split; [|apply grow_link]. rewrite grow_hash. unfold expectedHash, nextBlock.
    cbn [index timestamp data previousHash hash].
    rewrite (Hclock c) by (apply elem_of_cons; by left). apply String.eqb_refl.
  - unfold grow. rewrite hashValidAt_app_l, linkValidAt_app_l by lia. apply Hv. lia.
Qed.

(** *** What a run of [addBlock] calls guarantees *)

(** Appended blocks are linked: for all [i > 0], [block[i].previousHash]
    is [block[i-1].hash], whatever the clock returned. *)
Lemma addBlock_linkage (calls : list Append) (i : nat) (cur prev : Block) :
  getFullChain (appendAll calls ∅) !! S i = Some cur →
  getFullChain (appendAll calls ∅) !! i = Some prev →
  previousHash cur = hash prev.
Proof.
  rewrite getFullChain_appendAll. intros Hcur Hprev.
  pose proof (foldl_grow_linked calls [] (fun i (H : (i < 0)%nat) => False_ind _ (Nat.nlt_0_r _ H))
                (S i) (lookup_lt_Some _ _ _ Hcur)) as Hl.
  unfold linkValidAt in Hl. rewrite Hcur, Hprev in Hl.
  by apply String.eqb_eq.
Qed.

(** When the two clock readings of every call agree, the stored chain
    validates. *)
Lemma addBlock_valid_stable_clock (calls : list Append) :
  (∀ c, c ∈ calls → stamp_reading c = hash_reading c) →
  validateChain (getFullChain (appendAll calls ∅)) = true.
Proof. intros H. rewrite getFullChain_appendAll. by apply foldl_grow_valid. Qed.

(** C1 (fails on the code). [addBlock] reads the clock once for the
    [timestamp] field and once more for the hash. On an empty ledger, one
    [addBlock] whose two readings fall in different milliseconds stores a
    block whose hash is not the digest of its stored fields:
    [validateChain] over the stored chain returns false and
    [detectTampering] reports block 0. *)
Theorem addBlock_clock_tick_breaks_chain :
  let store := appendAll [mkAppend "2026-03-01T10:15:30.123Z" "2026-03-01T10:15:30.124Z"
                                   (kitRecord "KIT-001" 4 "Warehouse")] ∅ in
  validateChain (getFullChain store) = false
  ∧ hash <$> getFullChain store ≠ expectedHash <$> getFullChain store
  ∧ detectTampering (getFullChain store)
    = Ok [mkTamperReport 0 "Invalid block hash" "tampered"].
Proof.
  intros store. split_and!.
  - vm_compute. reflexivity.
  - intros H. vm_compute in H. discriminate H.
  - vm_compute. reflexivity.
Qed.

(** *** File names and indices agree in every reachable store *)







(** *** Chain replacement *)

Lemma replaceChain_eq (candidate : list Block) (store : Store) :
  replaceChain candidate store
  = if (length (getFullChain store) <? length candidate)%nat && validateChain candidate
    then (true, writeBlocks candidate ∅) else (false, store).
Proof.
  unfold replaceChain, clearLedger.
  destruct (Nat.leb_spec (length candidate) (length (getFullChain store))) as [Hle|Hlt].
  - apply Nat.ltb_ge in Hle. by rewrite Hle.
  - apply Nat.ltb_lt in Hlt. rewrite Hlt. by destruct (validateChain candidate).
Qed.

Lemma syncWithPeer_eq (chain : list Block) (store : Store) :
  syncWithPeer (Some chain) store
  = if (length (getFullChain store) <=? length chain)%nat && validateChain chain
    then (true, writeBlocks chain ∅) else (false, store).
Proof. unfold syncWithPeer, clearLedger. by rewrite andb_comm. Qed.

(** What a rewrite leaves in file [k]: the last block of the candidate that
    carries index [k]. *)
Lemma writeBlocks_lookup (chain : list Block) (store : Store) (k : N) :
  writeBlocks chain store !! k
  = match last (filter (fun b => index b = k) chain) with
    | Some b => Some b
    | None => store !! k
    end.
Proof.
  unfold writeBlocks. revert store. induction chain as [|b chain IH]; intros store; simpl.
  - done.
  - rewrite IH. rewrite filter_cons. case_decide as Hk.
    + rewrite last_cons. destruct (last (filter _ chain)); [done|].
      subst k. by rewrite lookup_insert_eq.
    + destruct (last (filter _ chain)); [done|]. by rewrite lookup_insert_ne.
Qed.

Lemma holds_snoc (chain : list Block) (store : Store) (b : Block) :
  holds chain store → index b = N.of_nat (length chain) →
  holds (chain ++ [b]) (<[index b := b]> store).
Proof.
  intros [Hlook Hidx] Hb. split.
  - intros k. rewrite lookup_insert. case_decide as Hk.
    + subst k. rewrite Hb, Nat2N.id.
      by rewrite lookup_app_r, Nat.sub_diag by lia.
    + rewrite Hlook. destruct (decide (N.to_nat k < length chain)%nat).
      * by rewrite lookup_app_l by done.
      * rewrite !lookup_ge_None_2; [done| |lia].
        rewrite length_app. simpl. lia.
  - intros i b' Hb'. apply lookup_app_Some in Hb' as [Hb'|[Hge Hb']].
    + by apply Hidx.
    + apply list_lookup_singleton_Some in Hb' as [Hi <-]. rewrite Hb. f_equal. lia.
Qed.

(** A chain whose blocks are numbered by their position is read back, after
    the rewrite, exactly as it was handed over. *)
Lemma writeBlocks_reads_back (chain : list Block) :
  (∀ i b, chain !! i = Some b → index b = N.of_nat i) →
  getFullChain (writeBlocks chain ∅) = chain.
Proof.
  intros Hnum. apply getFullChain_holds. unfold writeBlocks.
  induction chain as [|b chain IH] using rev_ind; [apply holds_empty|].
  rewrite foldl_app. simpl. apply holds_snoc.
  - apply IH. intros i b' Hb'. apply Hnum. by rewrite lookup_app_l by (by eapply lookup_lt_Some).
  - apply Hnum. by rewrite lookup_app_r, Nat.sub_diag by lia.
Qed.

(** C3 (as amended). [replaceChain] accepts the candidate iff it is strictly
    longer than the local chain and validates; [syncWithPeer] accepts the
    chain a peer answered with iff it validates and is at least as long as
    the local chain. On acceptance the block files are cleared and rewritten
    from the accepted chain, in order, each block under its own index (a
    chain numbered by position is read back as it was handed over); on
    rejection, and when the peer cannot be reached, the store is left as it
    was. *)
Theorem replaceChain_syncWithPeer_acceptance
    (candidate : list Block) (response : option (list Block)) (store : Store) :
  (fst (replaceChain candidate store) = true
   ↔ (length (getFullChain store) < length candidate)%nat ∧ validateChain candidate = true)
  ∧ (fst (syncWithPeer response store) = true
     ↔ ∃ chain, response = Some chain
                ∧ (length (getFullChain store) <= length chain)%nat
                ∧ validateChain chain = true)
  ∧ snd (replaceChain candidate store)
    = (if fst (replaceChain candidate store) then writeBlocks candidate ∅ else store)
  ∧ snd (syncWithPeer response store)
    = (if fst (syncWithPeer response store)
       then writeBlocks (default [] response) ∅ else store)
  ∧ (∀ chain k, writeBlocks chain ∅ !! k = last (filter (fun b => index b = k) chain))
  ∧ (∀ chain, (∀ i b, chain !! i = Some b → index b = N.of_nat i) →
       getFullChain (writeBlocks chain ∅) = chain).
Proof.
  split_and!.
  - rewrite replaceChain_eq.
    destruct (Nat.ltb_spec (length (getFullChain store)) (length candidate));
      destruct (validateChain candidate); simpl; split; try done; try lia;
      by intros [_ ?].
  - destruct response as [chain|].
    + rewrite syncWithPeer_eq.
      destruct (Nat.leb_spec (length (getFullChain store)) (length chain));
        destruct (validateChain chain) eqn:Hv; simpl; split; try done.
      * intros _. by exists chain.
      * intros (c & [= <-] & _ & Hc). congruence.
      * intros (c & [= <-] & Hle & _). lia.
      * intros (c & [= <-] & Hle & _). lia.
    + split; [done|]. by intros (c & Hc & _).
  - rewrite replaceChain_eq. by destruct (_ && _).
  - destruct response as [chain|]; [|done]. rewrite syncWithPeer_eq. by destruct (_ && _).
  - intros chain k. rewrite writeBlocks_lookup, lookup_empty.
    by destruct (last _).
  - apply writeBlocks_reads_back.
Qed.

(** C3 (as stated, fails for [syncWithPeer]). A node holding one block is
    offered a valid one-block chain by a peer: the chain is not longer than
    the local one, yet [syncWithPeer] accepts it and overwrites the store. *)
Lemma syncWithPeer_accepts_equal_length :
  let localStore := appendAll (take 1 threeAppends) ∅ in
  let peerChain := getFullChain (appendAll peerAppends ∅) in
  length peerChain = length (getFullChain localStore)
  ∧ fst (syncWithPeer (Some peerChain) localStore) = true
  ∧ snd (syncWithPeer (Some peerChain) localStore) ≠ localStore
  ∧ ¬ (fst (syncWithPeer (Some peerChain) localStore) = true
       → (length (getFullChain localStore) < length peerChain)%nat
         ∧ validateChain peerChain = true).
Proof.
  intros localStore peerChain.
  assert (length peerChain = length (getFullChain localStore)) as Hlen
    by (vm_compute; reflexivity).
  assert (fst (syncWithPeer (Some peerChain) localStore) = true) as Hacc
    by (vm_compute; reflexivity).
  split_and!; [done | done | |].
  - intros H. vm_compute in H. discriminate H.
  - intros H. destruct (H Hacc) as [Hlt _]. rewrite Hlen in Hlt. lia.
Qed.

(** C3, on a run: a node holding block 0 is handed the three-block chain;
    [replaceChain] accepts it and the store then reads back as that chain.
    Handed its own one-block chain, it refuses and keeps its store. *)
Lemma replaceChain_acceptance_witness :
  let store := appendAll [firstCall] ∅ in
  fst (replaceChain [block0; block1; block2] store) = true
  ∧ snd (replaceChain [block0; block1; block2] store) = writeBlocks [block0; block1; block2] ∅
  ∧ getFullChain (writeBlocks [block0; block1; block2] ∅) = [block0; block1; block2]
  ∧ fst (replaceChain [block0] store) = false
  ∧ snd (replaceChain [block0] store) = store.
Proof.
  intros store.
  pose proof (replaceChain_syncWithPeer_acceptance [block0; block1; block2] None store)
    as (Hlong & _ & Hstore & _ & _ & Hback).
  pose proof (replaceChain_syncWithPeer_acceptance [block0] None store)
    as (Hsame & _ & Hkeep & _).
  assert (fst (replaceChain [block0; block1; block2] store) = true) as Hyes.
  { apply (proj2 Hlong). split; [vm_compute; lia | vm_compute; reflexivity]. }
  assert (fst (replaceChain [block0] store) = false) as Hno.
  { apply not_true_is_false. intros H. apply (proj1 Hsame) in H as [Hlt _].
    vm_compute in Hlt. lia. }
  split; [exact Hyes|]. split; [rewrite Hstore, Hyes; reflexivity|].
  split; [|split; [exact Hno | rewrite Hkeep, Hno; reflexivity]].
  apply Hback. intros i b Hb.
  destruct i as [|[|[|i]]]; cbn [lookup list_lookup] in Hb;
    [injection Hb as <-; vm_compute; reflexivity..|discriminate Hb].
Defined.

(** *** Receiving a block from a peer *)

Lemma saveReceivedBlock_bad_hash (block : Block) (store : Store) :
  hash block ≠ expectedHash block → saveReceivedBlock block store = (false, store).
Proof.
  intros Hne. unfold saveReceivedBlock.
  apply String.eqb_neq in Hne. by rewrite Hne.
Qed.

Lemma saveReceivedBlock_existing (block existing : Block) (store : Store) :
  hash block = expectedHash block →
  store !! index block = Some existing →
  saveReceivedBlock block store = (String.eqb (hash existing) (hash block), store).
Proof.
  intros Hh Hex. unfold saveReceivedBlock.
  apply String.eqb_eq in Hh. rewrite Hh, Hex. simpl.
  by destruct (String.eqb (hash existing) (hash block)).
Qed.

Lemma saveReceivedBlock_stale (block latest : Block) (store : Store) :
  store !! index block = None →
  getLatestBlock store = Some latest →
  (index block <= index latest)%N →
  saveReceivedBlock block store = (false, store).
Proof.
  intros Hnone Hl Hle. unfold saveReceivedBlock. rewrite Hnone, Hl.
  apply N.leb_le in Hle. rewrite Hle.
  by destruct (negb (String.eqb (hash block) (expectedHash block))).
Qed.

Lemma saveReceivedBlock_fresh (block : Block) (store : Store) :
  store_wf store →
  hash block = expectedHash block →
  (∀ latest, getLatestBlock store = Some latest → (index latest < index block)%N) →
  store !! index block = None
  ∧ saveReceivedBlock block store = (true, <[index block := block]> store).
Proof.
  intros Hwf Hh Hnew.
  assert (store !! index block = None) as Hnone.
  { destruct (getLatestBlock store) as [latest|] eqn:Hl.
    - destruct (getLatestBlock_max _ _ Hwf Hl) as [_ Hmax].
      specialize (Hnew latest eq_refl).
      destruct (store !! index block) as [e|] eqn:He; [|done].
      specialize (Hmax (index block) (ex_intro _ e He)). lia.
    - apply getLatestBlock_None in Hl as ->. apply lookup_empty. }
  split; [done|]. unfold saveReceivedBlock.
  apply String.eqb_eq in Hh. rewrite Hh, Hnone. simpl.
  destruct (getLatestBlock store) as [latest|] eqn:Hl; [|done].
  specialize (Hnew latest eq_refl). apply N.leb_gt in Hnew. by rewrite Hnew.
Qed.

(** C5. In a store whose files hold the block their name says:
    (1) a block with a valid own hash and an index above the latest local
        one is accepted, a second call with the same block is accepted again
        and changes nothing, and the store then holds that block, once, at
        its index (one file more than before);
    (2) a block whose index is taken by a block with a different hash is
        rejected;
    (3) a block whose index is not above the latest local index never
        changes the store, and is turned down unless it is the duplicate of
        the block already stored at its index (the idempotent case of (1));
        with no block stored at its index it is rejected. *)
Theorem saveReceivedBlock_idempotent_and_rejects (block : Block) (store : Store) :
  store_wf store →
  (hash block = expectedHash block →
   (∀ latest, getLatestBlock store = Some latest → (index latest < index block)%N) →
   let first := saveReceivedBlock block store in
   let second := saveReceivedBlock block (snd first) in
   fst first = true ∧ fst second = true ∧ snd second = snd first
   ∧ snd first !! index block = Some block
   ∧ size (snd first) = S (size store)
   ∧ ∀ k, k ≠ index block → snd first !! k = store !! k)
  ∧ (∀ existing, store !! index block = Some existing → hash existing ≠ hash block →
     saveReceivedBlock block store = (false, store))
  ∧ (∀ latest, getLatestBlock store = Some latest → (index block <= index latest)%N →
     snd (saveReceivedBlock block store) = store
     ∧ (fst (saveReceivedBlock block store) = true
        ↔ hash block = expectedHash block
          ∧ ∃ existing, store !! index block = Some existing ∧ hash existing = hash block)
     ∧ (store !! index block = None → saveReceivedBlock block store = (false, store))).
Proof.
  intros Hwf. split_and!.
  - intros Hh Hnew first second.
    destruct (saveReceivedBlock_fresh _ _ Hwf Hh Hnew) as [Hnone Hfirst].
    assert (saveReceivedBlock block (<[index block := block]> store)
            = (true, <[index block := block]> store)) as Hsecond.
    { rewrite (saveReceivedBlock_existing block block); [|done|apply lookup_insert_eq].
      by rewrite String.eqb_refl. }
    subst second first. rewrite Hfirst. cbn [fst snd]. rewrite Hsecond. cbn [fst snd].
    split_and!; try done.
    + apply lookup_insert_eq.
    + by apply map_size_insert_None.
    + intros k Hk. by apply lookup_insert_ne.
  - intros existing Hex Hne.
    destruct (decide (hash block = expectedHash block)) as [Hh|Hh].
    + rewrite (saveReceivedBlock_existing _ _ _ Hh Hex).
      apply String.eqb_neq in Hne. by rewrite Hne.
    + by apply saveReceivedBlock_bad_hash.
  - intros latest Hl Hle.
    destruct (decide (hash block = expectedHash block)) as [Hh|Hh].
    + destruct (store !! index block) as [existing|] eqn:Hex.
      * rewrite (saveReceivedBlock_existing _ _ _ Hh Hex). cbn [fst snd].
        split_and!; [done | | done].
        rewrite String.eqb_eq. split.
        -- intros He. split; [done|]. by exists existing.
        -- by intros (_ & e & [= <-] & He).
      * rewrite (saveReceivedBlock_stale _ _ _ Hex Hl Hle). cbn [fst snd].
        split_and!; [done | | done]. split; [done|]. by intros (_ & e & ? & _).
    + rewrite (saveReceivedBlock_bad_hash _ _ Hh). cbn [fst snd].
      split_and!; [done | | done]. split; [done|]. by intros [? _].
Qed.

(** C5, on a run: a node holding blocks 0 and 1 receives block 2 twice, and
    a rival block for index 1; a node holding blocks 0 and 2 receives
    block 1. *)
Lemma saveReceivedBlock_idempotent_witness :
  let store := appendAll (take 2 threeAppends) ∅ in
  let first := saveReceivedBlock block2 store in
  let second := saveReceivedBlock block2 (snd first) in
  store_wf store
  ∧ (fst first = true ∧ fst second = true ∧ snd second = snd first
     ∧ snd first !! index block2 = Some block2
     ∧ size (snd first) = S (size store)
     ∧ ∀ k, k ≠ index block2 → snd first !! k = store !! k)
  ∧ saveReceivedBlock rivalBlock store = (false, store)
  ∧ store_wf gapStore
  ∧ saveReceivedBlock block1 gapStore = (false, gapStore).
Proof.
  intros store.
  assert (store_wf store) as Hwf
    by exact (holds_wf _ _ (appendAll_holds (take 2 threeAppends) [] ∅ holds_empty)).
  assert (store_wf gapStore) as Hgap.
  { assert (gapStore = <[index block2 := block2]> (appendAll [firstCall] ∅)) as ->
      by (vm_compute; reflexivity).
    apply store_wf_insert.
    exact (holds_wf _ _ (appendAll_holds [firstCall] [] ∅ holds_empty)). }
  split; [exact Hwf|]. split; [|split; [|split; [exact Hgap|]]].
  - apply (saveReceivedBlock_idempotent_and_rejects block2 store Hwf).
    + vm_compute. reflexivity.
    + intros latest Hl. vm_compute in Hl. injection Hl as <-. vm_compute. reflexivity.
  - apply (proj1 (proj2 (saveReceivedBlock_idempotent_and_rejects rivalBlock store Hwf))
             block1).
    + vm_compute. reflexivity.
    + vm_compute. discriminate.
  - apply (proj2 (proj2 (saveReceivedBlock_idempotent_and_rejects block1 gapStore Hgap))
             block2).
    + vm_compute. reflexivity.
    + vm_compute. discriminate.
    + vm_compute. reflexivity.
Defined.

(** *** Tamper detection *)

Lemma hashValidAt_lookup (chain : list Block) (i : nat) (b : Block) :
  chain !! i = Some b →
  hashValidAt chain i = true ↔ hash b = expectedHash b.
Proof. intros Hb. unfold hashValidAt. rewrite Hb. apply String.eqb_eq. Qed.

Lemma linkValidAt_false (chain : list Block) (i : nat) :
  linkValidAt chain i = false
  ↔ ∃ i' b p, i = S i' ∧ chain !! i = Some b ∧ chain !! i' = Some p
              ∧ previousHash b ≠ hash p.
Proof.
  unfold linkValidAt. destruct i as [|i'].
  - split; [done|]. by intros (? & ? & ? & ? & _).
  - destruct (chain !! S i') as [b|] eqn:Hb, (chain !! i') as [p|] eqn:Hp.
    + rewrite String.eqb_neq. split.
      * intros Hne. by exists i', b, p.
      * by intros (? & ? & ? & [= <-] & [= <-] & Hp' & Hne); simplify_eq.
    + split; [done|]. by intros (? & ? & ? & [= <-] & _ & ? & _); simplify_eq.
    + split; [done|]. by intros (? & ? & ? & _ & ? & _).
    + split; [done|]. by intros (? & ? & ? & _ & ? & _).
Qed.

(** A position yields a report exactly when it is tampered, and then one
    report, carrying the index of the block at that position. *)
Lemma reportAt_cases (chain : list Block) (i : nat) :
  (tampered chain i ∧ ∃ b r, chain !! i = Some b ∧ reportAt chain i = [r]
                            ∧ report_index r = index b)
  ∨ (¬ tampered chain i ∧ reportAt chain i = []).
Proof.
  unfold reportAt. destruct (chain !! i) as [b|] eqn:Hb.
  - destruct (hashValidAt chain i) eqn:Hh; simpl.
    + destruct (linkValidAt chain i) eqn:Hl; simpl.
      * right. split; [|done]. intros (b' & Hb' & [Hbad|(i' & p & -> & Hp & Hne)]).
        -- apply (hashValidAt_lookup _ _ _ Hb) in Hh. congruence.
        -- assert (linkValidAt chain (S i') = false) as Hf; [|congruence].
           apply linkValidAt_false. exists i', b', p. done.
      * left. apply linkValidAt_false in Hl as (i' & b' & p & -> & Hb' & Hp & Hne).
        split; [|by eexists _, _]. exists b. split; [done|]. right.
        exists i', p. split_and!; [done..|congruence].
    + left. split; [|by eexists _, _]. exists b. split; [done|]. left.
      intros Heq. apply (hashValidAt_lookup _ _ _ Hb) in Heq. congruence.
  - right. split; [|done]. intros (b & Hb' & _). congruence.
Qed.

(** Every tampered position is reported, wherever it is in the chain. *)
Lemma auditReport_complete (chain : list Block) (i : nat) (b : Block) :
  chain !! i = Some b → tampered chain i →
  ∃ r, r ∈ auditReport chain ∧ report_index r = index b.
Proof.
  intros Hb Ht. destruct (reportAt_cases chain i) as [(_ & b' & r & Hb' & Hr & Hi)|[Hn _]];
    [|done].
  exists r. split; [|congruence]. unfold auditReport.
  apply list_elem_of_In, in_flat_map. exists i. split.
  - apply in_seq. pose proof (lookup_lt_Some _ _ _ Hb). lia.
  - rewrite Hr. by left.
Qed.


(** The report is empty exactly on the chains [validateChain] accepts. *)
Lemma auditReport_nil (chain : list Block) :
  auditReport chain = [] ↔ validateChain chain = true.
Proof.
  rewrite validateChain_true. split.
  - intros Hnil i Hi.
    destruct (lookup_lt_is_Some_2 chain i Hi) as [b Hb].
    destruct (hashValidAt chain i) eqn:Hh, (linkValidAt chain i) eqn:Hl; try done;
      exfalso;
      (destruct (auditReport_complete chain i b Hb) as (r & Hr & _);
       [|rewrite Hnil in Hr; by apply elem_of_nil in Hr]).
    + apply linkValidAt_false in Hl as (i' & b' & p & -> & Hb' & Hp & Hne).
      exists b. split; [done|]. right. exists i', p. split_and!; [done..|congruence].
    + exists b. split; [done|]. left. intros Heq.
      apply (hashValidAt_lookup _ _ _ Hb) in Heq. congruence.
    + exists b. split; [done|]. left. intros Heq.
      apply (hashValidAt_lookup _ _ _ Hb) in Heq. congruence.
  - intros Hv. unfold auditReport.
    assert (∀ l, (∀ i, i ∈ l → (i < length chain)%nat) → flat_map (reportAt chain) l = [])
      as Hall.
    { induction l as [|i l IH]; intros Hl; simpl; [done|].
      rewrite IH by (intros j Hj; apply Hl; by apply elem_of_cons; right).
      destruct (Hv i) as [Hh Hk]; [apply Hl; apply elem_of_cons; by left|].
      unfold reportAt. rewrite Hh, Hk. simpl. by destruct (chain !! i). }
    apply Hall. intros i Hi. apply list_elem_of_In, in_seq in Hi. lia.
Qed.

(** Where the payload can be read, the loop body returns the report of the
    position. *)
Lemma tamperAt_Ok (chain : list Block) (i : nat) :
  (∀ i' b, i = S i' → chain !! i = Some b → data b ≠ JNull) →
  tamperAt chain i = Ok (reportAt chain i).
Proof.
  intros Hdata. unfold tamperAt, reportAt. destruct (chain !! i) as [b|] eqn:Hb; [|done].
  destruct (negb (hashValidAt chain i)); [done|].
  destruct (negb (linkValidAt chain i)); [done|].
  destruct i as [|i']; [done|].
  specialize (Hdata i' b eq_refl eq_refl). by destruct (data b).
Qed.

Lemma scanFrom_Ok (chain : list Block) (todo : list nat) (acc : list TamperReport) :
  (∀ i, i ∈ todo → tamperAt chain i = Ok (reportAt chain i)) →
  scanFrom chain todo acc = Ok (acc ++ flat_map (reportAt chain) todo).
Proof.
  revert acc. induction todo as [|i todo IH]; intros acc Hall; simpl.
  - by rewrite app_nil_r.
  - rewrite Hall by (apply elem_of_cons; by left).
    rewrite IH by (intros j Hj; apply Hall; by apply elem_of_cons; right).
    by rewrite app_assoc.
Qed.

(** On a chain whose payloads can be read the audit runs to the end. *)
Lemma detectTampering_Ok (chain : list Block) :
  payloads_present chain → detectTampering chain = Ok (auditReport chain).
Proof.
  intros Hp. unfold detectTampering, auditReport.
  rewrite scanFrom_Ok; [done|]. intros i _. apply tamperAt_Ok.
  intros i' b -> Hb. by apply (Hp i').
Qed.



(** The payload of a block that passes both checks is read: a [null]
    payload in a later block makes the audit throw instead of returning. *)
Lemma detectTampering_null_payload_throws :
  let nullBlock := nextBlock [block0] (mkAppend "2026-03-02T07:00:00.000Z"
                                                "2026-03-02T07:00:00.000Z" JNull) in
  validateChain [block0; nullBlock] = true
  ∧ detectTampering [block0; nullBlock] = Throw typeError.
Proof. split; vm_compute; reflexivity. Qed.

End LedgerFacts.

(* ===================================================================== *)
(** * Properties of the market engine                                     *)
(* ===================================================================== *)

Section NumFacts.
Import JsNum.
Local Open Scope Q_scope.

Lemma ltb_Fin (a b : Q) : ltb (Fin a) (Fin b) = true ↔ a < b.
Proof.
  unfold ltb. rewrite negb_true_iff. split.
  - intros H. apply Qnot_le_lt. intros Hle. apply Qle_bool_iff in Hle. congruence.
  - intros H. destruct (Qle_bool b a) eqn:E; [|done].
    apply Qle_bool_iff in E. apply Qlt_not_le in H. done.
Qed.

Lemma sub_Fin (a b : Q) : ∃ c, sub (Fin a) (Fin b) = Fin c ∧ c == a - b.
Proof.
  eexists. split; [reflexivity|].
  etransitivity; [apply Qred_correct|]. unfold Qminus.
  apply Qplus_comp; [reflexivity | apply Qred_correct].
Qed.

Lemma add_Fin (a b : Q) : ∃ c, add (Fin a) (Fin b) = Fin c ∧ c == a + b.
Proof. eexists. split; [reflexivity|]. apply Qred_correct. Qed.

Lemma mul_Fin (a b : Q) : ∃ c, mul (Fin a) (Fin b) = Fin c ∧ c == a * b.
Proof. eexists. split; [reflexivity|]. apply Qred_correct. Qed.

Lemma div_Fin (a b : Q) : ¬ b == 0 → ∃ c, div (Fin a) (Fin b) = Fin c ∧ c == a / b.
Proof.
  intros Hb. unfold div. destruct (Qeq_bool b 0) eqn:E.
  - apply Qeq_bool_iff in E. done.
  - eexists. split; [reflexivity|]. apply Qred_correct.
Qed.



End NumFacts.

Section MarketFacts.
Import JsNum Market.

(** On an open market [buyShares] goes through, whatever the amount. *)
Lemma buyShares_open (now userId : string) (o : Outcome) (amount : num)
    (m : PredictionMarket) :
  status m = OPEN →
  buyShares now userId o amount m
  = (Ok (buyReceipt now userId o amount m), afterBuy userId o amount m).
Proof.
  intros Hopen. unfold buyShares, Eff.bind, Eff.get, Eff.modify, Eff.when, Eff.ret, Eff.throw.
  rewrite Hopen. cbn [isOpen negb]. unfold afterBuy, buyReceipt.
  destruct (positions m !! userId) as [p|] eqn:Hp.
  - rewrite bool_decide_eq_false_2 by (cbn; congruence).
    unfold set_positions, set_totalVolume, set_outcomes. cbn.
    do 2 f_equal. apply map_eq. intros k. rewrite lookup_alter, lookup_insert.
    case_decide; [subst; by rewrite Hp | done].
  - rewrite bool_decide_eq_true_2 by done.
    unfold set_positions, set_totalVolume, set_outcomes. cbn.
    do 2 f_equal. apply map_eq. intros k. rewrite lookup_alter, !lookup_insert.
    case_decide; [|done]. by rewrite decide_True by done.
Qed.

(** The only rejection of [buyShares] is the one for a market that is not
    open, and it leaves the market as it was. *)
Lemma buyShares_not_open (now userId : string) (o : Outcome) (amount : num)
    (m : PredictionMarket) :
  status m ≠ OPEN →
  buyShares now userId o amount m = (Throw "Market is not open for trading", m).
Proof.
  intros Hclosed. unfold buyShares, Eff.bind, Eff.get, Eff.throw.
  by destruct (status m).
Qed.

Lemma side_set_side (o : Outcome) (v : num) (s : Shares) :
  side o (set_side o v s) = v.
Proof. by destruct o. Qed.

Lemma side_set_side_other (o : Outcome) (v : num) (s : Shares) :
  side (other o) (set_side o v s) = side (other o) s.
Proof. by destruct o. Qed.

(** C2 (as stated, fails). On a fresh market with 1000 shares in each pool,
    buying 1500 YES shares is not rejected: the call returns a transaction
    and leaves the YES pool at -500. Buying exactly the pool, 1000 shares, is
    accepted as well. *)
Lemma buyShares_drives_pool_negative :
  let big := buyShares "2026-02-02T09:00:00.000Z" "user_alice" YES (of_Z 1500) freshMarket in
  let all := buyShares "2026-02-02T09:00:00.000Z" "user_alice" YES (of_Z 1000) freshMarket in
  status freshMarket = OPEN
  ∧ yes (outcomes freshMarket) = of_Z 1000
  ∧ (∃ tx, fst big = Ok tx)
  ∧ yes (outcomes (snd big)) = of_Z (-500)
  ∧ ltb (yes (outcomes (snd big))) (of_Z 0) = true
  ∧ (∃ tx, fst all = Ok tx)
  ∧ yes (outcomes (snd all)) = of_Z 0.
Proof.
  intros big all. split_and!; try (vm_compute; reflexivity).
  - eexists. vm_compute. reflexivity.
  - eexists. vm_compute. reflexivity.
Qed.

(** C2 (as amended). [buyShares] has no liquidity check: on an open market
    it accepts every amount, takes the amount out of the pool of the bought
    outcome and leaves the other pool alone; its only rejection is for a
    market that is not open, and that one changes nothing. With finite
    numbers, the pool of the bought outcome ends below zero exactly when the
    amount exceeds it. *)
Theorem buyShares_never_rejects_for_liquidity
    (now userId : string) (o : Outcome) (amount : num) (m : PredictionMarket) :
  (status m = OPEN →
   ∃ tx m', buyShares now userId o amount m = (Ok tx, m')
            ∧ tx_shares tx = amount
            ∧ side o (outcomes m') = sub (side o (outcomes m)) amount
            ∧ side (other o) (outcomes m') = side (other o) (outcomes m))
  ∧ (status m ≠ OPEN →
     buyShares now userId o amount m = (Throw "Market is not open for trading", m))
  ∧ (∀ p a : Q, status m = OPEN → side o (outcomes m) = Fin p → amount = Fin a →
       (ltb (side o (outcomes (snd (buyShares now userId o amount m)))) (of_Z 0) = true
        ↔ (p < a)%Q)).
Proof.
  split_and!.
  - intros Hopen. rewrite (buyShares_open _ _ _ _ _ Hopen). eexists _, _.
    split; [reflexivity|]. unfold afterBuy. cbn [outcomes buyReceipt tx_shares].
    by rewrite side_set_side, side_set_side_other.
  - apply buyShares_not_open.
  - intros p a Hopen Hp ->. rewrite (buyShares_open _ _ _ _ _ Hopen).
    unfold afterBuy. cbn [snd outcomes]. rewrite side_set_side, Hp.
    destruct (sub_Fin p a) as (c & -> & Hc). unfold of_Z. rewrite ltb_Fin.
    change (inject_Z 0) with 0%Q. rewrite Hc. split; intros H; lra.
Qed.


(** C2, on a run: 1500 YES shares bought on a fresh market. *)
Lemma buyShares_liquidity_witness :
  ∃ tx m',
    buyShares "2026-02-02T09:00:00.000Z" "user_alice" YES (of_Z 1500) freshMarket = (Ok tx, m')
    ∧ yes (outcomes m') = sub (of_Z 1000) (of_Z 1500)
    ∧ no (outcomes m') = of_Z 1000
    ∧ ltb (yes (outcomes m')) (of_Z 0) = true.
Proof.
  destruct (buyShares_never_rejects_for_liquidity "2026-02-02T09:00:00.000Z" "user_alice"
              YES (of_Z 1500) freshMarket) as (Hopen & _ & Hneg).
  destruct (Hopen eq_refl) as (tx & m' & Hrun & _ & Hpool & Hother).
  exists tx, m'. split_and!; [exact Hrun | exact Hpool | exact Hother |].
  specialize (Hneg 1000%Q 1500%Q eq_refl eq_refl eq_refl).
  rewrite Hrun in Hneg. apply Hneg. vm_compute. reflexivity.
Defined.


(** Once a pool has been bought out, the price of any further share of that
    outcome is [Infinity]. *)
Lemma calculatePrice_empty_pool (o : Outcome) (m : PredictionMarket) (a po : Q) :
  side o (outcomes m) = Fin 0 → side (other o) (outcomes m) = Fin po →
  (0 < po)%Q → (0 < a)%Q →
  calculatePrice o (Fin a) m = PInf.
Proof.
  intros Hcur Hother Hpo Ha. unfold calculatePrice. rewrite Hcur, Hother.
  assert (∀ q : Q, (0 < q)%Q → Z.sgn (Qnum q) = 1) as Hsgn.
  { intros [qn qd]. unfold Qlt. simpl. intros H. apply Z.sgn_pos. lia. }
  assert (div (Fin po) (Fin 0) = PInf) as ->.
  { unfold div. simpl. unfold inf_of_sign, sgn. by rewrite (Hsgn po Hpo). }
  assert (mul (Fin a) PInf = PInf) as ->.
  { unfold mul, inf_of_sign, sgn. by rewrite (Hsgn a Ha). }
  reflexivity.
Qed.

(** *** Implied probabilities *)

Lemma getProbabilities_Fin (m : PredictionMarket) (y n : Q) :
  outcomes m = mkShares (Fin y) (Fin n) → ¬ (y + n == 0)%Q →
  ∃ x : Q, yes (getProbabilities m) = Fin (inject_Z (Qfloor (x + (1 # 2))))
           ∧ (x == n / (y + n) * 100)%Q.
Proof.
  intros Hm Hnz. unfold getProbabilities. rewrite Hm. cbn [yes no].
  destruct (add_Fin y n) as (t & -> & Ht).
  destruct (div_Fin n t) as (r & -> & Hr); [by rewrite Ht|].
  unfold of_Z. destruct (mul_Fin r (inject_Z 100)) as (x & -> & Hx).
  exists x. split; [reflexivity|].
  rewrite Hx, Hr, Ht. reflexivity.
Qed.





End MarketFacts.

(* ===================================================================== *)
(** * Properties of the position ledger                                   *)
(* ===================================================================== *)

Section SharesFacts.
Import JsNum Market Shares.

Lemma hasBalance_true (userId : string) (sm : ShareManager) (b : Balance) :
  userBalances sm !! userId = Some b → hasBalance userId sm = true.
Proof. intros H. unfold hasBalance. apply bool_decide_eq_true_2. by rewrite H. Qed.

Lemma hasBalance_false (userId : string) (sm : ShareManager) :
  userBalances sm !! userId = None → hasBalance userId sm = false.
Proof.
  intros H. unfold hasBalance. apply bool_decide_eq_false_2. rewrite H.
  by intros [? ?].
Qed.

Lemma initializeUser_new (userId : string) (c : num) (sm : ShareManager) :
  userBalances sm !! userId = None →
  initializeUser userId c sm
  = (Ok tt, mkShareManager (<[userId := mkBalance c ∅]> (userBalances sm))
                           (<[userId := zeroStats]> (userStats sm))).
Proof.
  intros H. unfold initializeUser, Eff.bind, Eff.get, Eff.when, Eff.modify.
  by rewrite (hasBalance_false _ _ H).
Qed.


Lemma updateBalance_Some (userId : string) (f : Balance → Balance) (sm : ShareManager)
    (b : Balance) :
  userBalances sm !! userId = Some b →
  updateBalance userId f sm
  = (Ok tt, mkShareManager (<[userId := f b]> (userBalances sm)) (userStats sm)).
Proof. intros H. unfold updateBalance, Eff.bind, Eff.get, Eff.modify. by rewrite H. Qed.

Lemma updateStats_Some (userId : string) (f : Stats → Stats) (sm : ShareManager)
    (st : Stats) :
  userStats sm !! userId = Some st →
  updateStats userId f sm
  = (Ok tt, mkShareManager (userBalances sm) (<[userId := f st]> (userStats sm))).
Proof. intros H. unfold updateStats, Eff.bind, Eff.get, Eff.modify. by rewrite H. Qed.

Lemma updateHolding_Some (userId mid : string) (f : Shares → Shares) (sm : ShareManager)
    (b : Balance) (h : Shares) :
  userBalances sm !! userId = Some b → holdings b !! mid = Some h →
  updateHolding userId mid f sm
  = (Ok tt, mkShareManager
              (<[userId := mkBalance (credits b) (<[mid := f h]> (holdings b))]>
                 (userBalances sm))
              (userStats sm)).
Proof.
  intros Hb Hh. unfold updateHolding, Eff.bind, Eff.get. rewrite Hb, Hh.
  by rewrite (updateBalance_Some _ _ _ _ Hb).
Qed.

Lemma manager_wf_create : manager_wf Shares.create.
Proof. intros u [b Hb]. cbn in Hb. by rewrite lookup_empty in Hb. Qed.

Lemma manager_wf_insert (sm : ShareManager) (userId : string) (b : Balance) (st : Stats) :
  manager_wf sm →
  manager_wf (mkShareManager (<[userId := b]> (userBalances sm))
                             (<[userId := st]> (userStats sm))).
Proof.
  intros Hwf u. cbn. rewrite !lookup_insert. case_decide; [by eauto|apply Hwf].
Qed.



(** *** Settlement *)

Lemma losingSharesOf_resolved (m : PredictionMarket) (w : Outcome) (h : Shares) :
  winningOutcome m = Some w → losingSharesOf m h = side (other w) h.
Proof. intros Hw. unfold losingSharesOf. rewrite Hw. by destruct w. Qed.

Lemma winningSharesOf_resolved (m : PredictionMarket) (w : Outcome) (h : Shares) :
  winningOutcome m = Some w → to_number (winningSharesOf m h) = side w h.
Proof. intros Hw. unfold winningSharesOf. by rewrite Hw. Qed.

(** Without a holdings entry for the market [resolvePosition] returns at
    once. *)
Lemma resolvePosition_nothing_held (userId : string) (m : PredictionMarket)
    (sm : ShareManager) :
  held sm userId (marketID m) = None → resolvePosition userId m sm = (Ok tt, sm).
Proof.
  unfold held, resolvePosition, Eff.bind, Eff.get, Eff.ret.
  destruct (userBalances sm !! userId) as [b|]; [|done]. cbn.
  by intros ->.
Qed.

(** With an entry, the statistics are settled and the entry is deleted. *)
Lemma resolvePosition_held (userId : string) (m : PredictionMarket) (w : Outcome)
    (sm : ShareManager) (b : Balance) (h : Shares) (st : Stats) :
  winningOutcome m = Some w →
  userBalances sm !! userId = Some b →
  holdings b !! marketID m = Some h →
  userStats sm !! userId = Some st →
  resolvePosition userId m sm
  = (Ok tt,
     mkShareManager
       (<[userId := mkBalance (credits b) (delete (marketID m) (holdings b))]> (userBalances sm))
       (if gtb (side w h) (of_Z 0) || gtb (side (other w) h) (of_Z 0)
        then <[userId := settle w h st]> (userStats sm) else userStats sm)).
Proof.
  intros Hw Hb Hh Hst. unfold resolvePosition, Eff.bind, Eff.get. rewrite Hb, Hh.
  rewrite (winningSharesOf_resolved _ _ _ Hw), (losingSharesOf_resolved _ _ _ Hw).
  unfold settle.
  destruct (gtb (side w h) (of_Z 0)) eqn:Hwon; cbn [Eff.when orb].
  - rewrite (updateStats_Some _ _ _ _ Hst).
    erewrite updateStats_Some by (cbn; apply lookup_insert_eq).
    erewrite updateBalance_Some by (cbn; exact Hb).
    cbn. by rewrite insert_insert_eq.
  - unfold Eff.ret at 1.
    destruct (gtb (side (other w) h) (of_Z 0)) eqn:Hlost; cbn [Eff.when].
    + rewrite (updateStats_Some _ _ _ _ Hst).
      erewrite updateBalance_Some by (cbn; exact Hb).
      cbn. by rewrite Z.add_0_r.
    + unfold Eff.ret. by rewrite (updateBalance_Some _ _ _ _ Hb).
Qed.

(** The manager [resolvePosition] leaves behind, entry by entry. *)
Lemma resolvePosition_effect (userId : string) (m : PredictionMarket)
    (w : Outcome) (sm : ShareManager) :
  manager_wf sm → winningOutcome m = Some w →
  ∃ sm',
    resolvePosition userId m sm = (Ok tt, sm')
    ∧ userStats sm' !! userId
      = match held sm userId (marketID m) with
        | Some h => settle w h <$> userStats sm !! userId
        | None => userStats sm !! userId
        end
    ∧ held sm' userId (marketID m) = None
    ∧ (∀ b, userBalances sm !! userId = Some b →
         userBalances sm' !! userId
         = Some (mkBalance (credits b) (delete (marketID m) (holdings b))))
    ∧ (userBalances sm !! userId = None → userBalances sm' !! userId = None)
    ∧ (∀ u, u ≠ userId → userBalances sm' !! u = userBalances sm !! u
                         ∧ userStats sm' !! u = userStats sm !! u)
    ∧ resolvePosition userId m sm' = (Ok tt, sm').
Proof.
  intros Hwf Hw. destruct (held sm userId (marketID m)) as [h|] eqn:Hheld.
  - unfold held in Hheld. destruct (userBalances sm !! userId) as [b|] eqn:Hb; [|done].
    cbn in Hheld. destruct (Hwf userId) as [st Hst]; [by rewrite Hb|].
    rewrite (resolvePosition_held _ _ _ _ _ _ _ Hw Hb Hheld Hst).
    eexists. split; [reflexivity|]. cbn [userBalances userStats].
    split_and!.
    + rewrite Hst. cbn. destruct (_ || _) eqn:Hany.
      * by rewrite lookup_insert_eq.
      * rewrite Hst. f_equal. unfold settle. rewrite Hany.
        apply orb_false_elim in Hany as [-> _]. destruct st; cbn; f_equal; lia.
    + unfold held. cbn. rewrite lookup_insert_eq. cbn. apply lookup_delete_eq.
    + intros b' [= <-]. apply lookup_insert_eq.
    + done.
    + intros u Hu. rewrite lookup_insert_ne by done. split; [done|].
      destruct (_ || _); [by rewrite lookup_insert_ne|done].
    + apply resolvePosition_nothing_held. unfold held. cbn.
      rewrite lookup_insert_eq. cbn. apply lookup_delete_eq.
  - rewrite (resolvePosition_nothing_held _ _ _ Hheld). exists sm.
    split_and!; try done.
    + intros b Hb. rewrite Hb. unfold held in Hheld. rewrite Hb in Hheld. cbn in Hheld.
      rewrite delete_id by done. by destruct b.
    + by apply resolvePosition_nothing_held.
Qed.



(** *** Trading through the share manager *)

Lemma onManager_run {A} (c : M ShareManager A) (sm sm' : ShareManager)
    (mk : PredictionMarket) (r : result A) :
  c sm = (r, sm') → onManager c (mkWorld sm mk) = (r, mkWorld sm' mk).
Proof. intros H. unfold onManager, Eff.zoom. cbn. by rewrite H. Qed.

Lemma onMarket_run {A} (c : M PredictionMarket A) (sm : ShareManager)
    (mk mk' : PredictionMarket) (r : result A) :
  c mk = (r, mk') → onMarket c (mkWorld sm mk) = (r, mkWorld sm mk').
Proof. intros H. unfold onMarket, Eff.zoom. cbn. by rewrite H. Qed.

Lemma bind_Ok {S A B} (c : M S A) (k : A → M S B) (s s' : S) (a : A) :
  c s = (Ok a, s') → Eff.bind c k s = k a s'.
Proof. intros H. unfold Eff.bind. by rewrite H. Qed.

Lemma bind_Throw {S A B} (c : M S A) (k : A → M S B) (s s' : S) (msg : string) :
  c s = (Throw msg, s') → Eff.bind c k s = (Throw msg, s').
Proof. intros H. unfold Eff.bind. by rewrite H. Qed.

Lemma bind_get {S B} (k : S → M S B) (s : S) : Eff.bind Eff.get k s = k s s.
Proof. reflexivity. Qed.

Lemma bind_ret {S A B} (a : A) (k : A → M S B) (s : S) : Eff.bind (Eff.ret a) k s = k a s.
Proof. reflexivity. Qed.

(** [ShareManager.buyShares] for a participant who has an account and
    statistics. *)
Lemma buyShares_known (now userId : string) (o : Outcome) (amount : num)
    (sm : ShareManager) (mk : PredictionMarket) (b : Balance) (st : Stats) :
  status mk = OPEN →
  userBalances sm !! userId = Some b →
  userStats sm !! userId = Some st →
  Shares.buyShares now userId o amount (mkWorld sm mk)
  = (Ok (buyReceipt now userId o amount mk),
     mkWorld (afterManagerBuy userId (marketID mk) o amount (calculatePrice o amount mk) sm)
             (afterBuy userId o amount mk)).
Proof.
  intros Hopen Hb Hst. unfold Shares.buyShares.
  rewrite bind_get. cbn [manager].
  rewrite (hasBalance_true _ _ _ Hb). cbn [negb Eff.when].
  rewrite bind_ret.
  rewrite (bind_Ok _ _ _ _ _ (onMarket_run _ _ _ _ _ (buyShares_open _ _ _ _ _ Hopen))).
  rewrite (bind_Ok _ _ _ _ _ (onManager_run _ _ _ _ _ (updateBalance_Some _ _ _ _ Hb))).
  rewrite bind_get. cbn [manager market userBalances afterBuy marketID].
  rewrite lookup_insert_eq. cbn [holdings tx_cost buyReceipt to_number default].
  unfold afterManagerBuy. rewrite Hb, Hst. cbn [default credits holdings].
  destruct (holdings b !! marketID mk) as [h|] eqn:Hh.
  - rewrite bool_decide_eq_false_2 by congruence. cbn [Eff.when].
    rewrite bind_ret.
    erewrite bind_Ok; cycle 1.
    { apply onManager_run. eapply updateHolding_Some; [apply lookup_insert_eq|exact Hh]. }
    erewrite bind_Ok; cycle 1.
    { apply onManager_run. eapply updateStats_Some. exact Hst. }
    unfold Eff.ret. cbn. by rewrite Hh, insert_insert_eq.
  - rewrite bool_decide_eq_true_2 by done. cbn [Eff.when].
    erewrite bind_Ok; cycle 1.
    { apply onManager_run. eapply updateBalance_Some. apply lookup_insert_eq. }
    erewrite bind_Ok; cycle 1.
    { apply onManager_run. eapply updateHolding_Some; cbn; apply lookup_insert_eq. }
    erewrite bind_Ok; cycle 1.
    { apply onManager_run. eapply updateStats_Some. exact Hst. }
    unfold Eff.ret. cbn. by rewrite Hh, !insert_insert_eq.
Qed.

(** For a participant without an account the call first creates it and then
    goes on as for one who has it. *)
Lemma buyShares_unknown (now userId : string) (o : Outcome) (amount : num)
    (sm : ShareManager) (mk : PredictionMarket) :
  userBalances sm !! userId = None →
  Shares.buyShares now userId o amount (mkWorld sm mk)
  = Shares.buyShares now userId o amount
      (mkWorld (mkShareManager (<[userId := mkBalance defaultCredits ∅]> (userBalances sm))
                               (<[userId := zeroStats]> (userStats sm))) mk).
Proof.
  intros Hnew. unfold Shares.buyShares. rewrite !bind_get. cbn [manager].
  rewrite (hasBalance_false _ _ Hnew).
  rewrite (hasBalance_true _ _ (mkBalance defaultCredits ∅))
    by (cbn; apply lookup_insert_eq).
  cbn [negb Eff.when]. rewrite bind_ret.
  by rewrite (bind_Ok _ _ _ _ _
                (onManager_run _ _ _ _ _ (initializeUser_new _ defaultCredits _ Hnew))).
Qed.

(** On an open market the share manager lets every buy through. *)
Lemma Shares_buyShares_open (now userId : string) (o : Outcome) (amount : num)
    (sm : ShareManager) (mk : PredictionMarket) :
  manager_wf sm → status mk = OPEN →
  Shares.buyShares now userId o amount (mkWorld sm mk)
  = (Ok (buyReceipt now userId o amount mk),
     mkWorld (afterManagerBuy userId (marketID mk) o amount (calculatePrice o amount mk) sm)
             (afterBuy userId o amount mk)).
Proof.
  intros Hwf Hopen. destruct (userBalances sm !! userId) as [b|] eqn:Hb.
  - destruct (Hwf userId) as [st Hst]; [by rewrite Hb|].
    by apply (buyShares_known _ _ _ _ _ _ b st).
  - rewrite (buyShares_unknown _ _ _ _ _ _ Hb).
    rewrite (buyShares_known _ _ _ _ _ _ (mkBalance defaultCredits ∅) zeroStats Hopen)
      by (cbn; apply lookup_insert_eq).
    do 2 f_equal. unfold afterManagerBuy. cbn [userBalances userStats].
    rewrite Hb, !lookup_insert_eq. cbn [default]. by rewrite !insert_insert_eq.
Qed.

Lemma afterManagerBuy_wf (userId mid : string) (o : Outcome) (amount cost : num)
    (sm : ShareManager) :
  manager_wf sm → manager_wf (afterManagerBuy userId mid o amount cost sm).
Proof. intros Hwf. unfold afterManagerBuy. by apply manager_wf_insert. Qed.

(** The two rejections of the market's own [sellShares]; neither changes
    the market. *)
Lemma sellShares_not_open (now userId : string) (o : Outcome) (amount : num)
    (m : PredictionMarket) :
  status m ≠ OPEN →
  Market.sellShares now userId o amount m = (Throw "Market is not open for trading", m).
Proof.
  intros Hclosed. unfold Market.sellShares, Eff.bind, Eff.get, Eff.throw.
  by destruct (status m).
Qed.

Lemma sellShares_insufficient (now userId : string) (o : Outcome) (amount : num)
    (m : PredictionMarket) :
  status m = OPEN →
  (positions m !! userId = None
   ∨ ∃ p, positions m !! userId = Some p ∧ ltb (side o p) amount = true) →
  Market.sellShares now userId o amount m = (Throw "Insufficient shares", m).
Proof.
  intros Hopen Hshort. unfold Market.sellShares, Eff.bind, Eff.get, Eff.throw.
  rewrite Hopen. cbn [isOpen negb].
  destruct Hshort as [->|(p & -> & ->)]; done.
Qed.



(** The share check of a sell reads the position recorded by the market,
    not the holdings of the manager: when the market records 10 YES shares
    for Alice and the manager none, her sell of 5 passes the check, changes
    the pool and her credits, and only then fails on the missing holdings
    entry. *)
Lemma sellShares_checks_market_position :
  let r := Shares.sellShares "2026-02-03T10:00:00.000Z" "user_alice" YES (of_Z 5)
                             directBuyWorld in
  held (manager directBuyWorld) "user_alice" "MKT-001" = None
  ∧ fst r = Throw Shares.typeError
  ∧ yes (outcomes (market directBuyWorld)) = of_Z 990
  ∧ yes (outcomes (market (snd r))) = of_Z 995
  ∧ credits <$> userBalances (manager (snd r)) !! "user_alice" = Some (Fin (200101 # 20)).
Proof. intros r. split_and!; vm_compute; reflexivity. Qed.

(** *** Every account keeps its statistics *)

Lemma keeps_ret {S A} (I : S → Prop) (a : A) : keeps I (Eff.ret a).
Proof. by intros s Hs. Qed.

Lemma keeps_throw {S A} (I : S → Prop) (msg : string) : keeps I (@Eff.throw S A msg).
Proof. by intros s Hs. Qed.

Lemma keeps_get {S} (I : S → Prop) : keeps I (@Eff.get S).
Proof. by intros s Hs. Qed.

Lemma keeps_bind {S A B} (I : S → Prop) (c : M S A) (k : A → M S B) :
  keeps I c → (∀ a, keeps I (k a)) → keeps I (Eff.bind c k).
Proof.
  intros Hc Hk s Hs. unfold Eff.bind. specialize (Hc s Hs).
  destruct (c s) as [[a|msg] s']; [by apply Hk | done].
Qed.

Lemma keeps_when {S} (I : S → Prop) (b : bool) (c : M S unit) :
  keeps I c → keeps I (Eff.when b c).
Proof. intros Hc. destruct b; [done | apply keeps_ret]. Qed.

Lemma keeps_onManager {A} (c : M ShareManager A) :
  keeps manager_wf c → keeps (fun w => manager_wf (manager w)) (onManager c).
Proof.
  intros Hc w Hw. unfold onManager, Eff.zoom. specialize (Hc (manager w) Hw).
  by destruct (c (manager w)).
Qed.

Lemma keeps_onMarket {A} (c : M PredictionMarket A) :
  keeps (fun w => manager_wf (manager w)) (onMarket c).
Proof. intros w Hw. unfold onMarket, Eff.zoom. by destruct (c (market w)). Qed.

Lemma keeps_updateBalance (userId : string) (f : Balance → Balance) :
  keeps manager_wf (updateBalance userId f).
Proof.
  intros sm Hwf. unfold updateBalance, Eff.bind, Eff.get, Eff.modify, Eff.throw.
  destruct (userBalances sm !! userId) as [b|] eqn:Hb; [|done].
  intros u. cbn. rewrite lookup_insert. case_decide as Hu; [|apply Hwf].
  intros _. subst u. apply Hwf. by rewrite Hb.
Qed.

Lemma keeps_updateStats (userId : string) (f : Stats → Stats) :
  keeps manager_wf (updateStats userId f).
Proof.
  intros sm Hwf. unfold updateStats, Eff.bind, Eff.get, Eff.modify, Eff.throw.
  destruct (userStats sm !! userId) as [st|] eqn:Hst; [|done].
  intros u Hu. cbn in *. rewrite lookup_insert. case_decide; [by eauto|by apply Hwf].
Qed.

Lemma keeps_updateHolding (userId mid : string) (f : Shares → Shares) :
  keeps manager_wf (updateHolding userId mid f).
Proof.
  unfold updateHolding. apply keeps_bind; [apply keeps_get|]. intros sm.
  destruct (userBalances sm !! userId) as [b|]; [|apply keeps_throw].
  destruct (holdings b !! mid); [apply keeps_updateBalance | apply keeps_throw].
Qed.

Lemma keeps_initializeUser (userId : string) (c : num) :
  keeps manager_wf (initializeUser userId c).
Proof.
  intros sm Hwf. unfold initializeUser, Eff.bind, Eff.get, Eff.when, Eff.modify.
  destruct (negb _); [|done]. by apply manager_wf_insert.
Qed.

(** One step of a proof that a method keeps the invariant. *)
Ltac keeps_step :=
  first
    [ apply keeps_ret | apply keeps_throw | apply keeps_get
    | apply keeps_onMarket
    | apply keeps_onManager
    | apply keeps_updateBalance | apply keeps_updateStats | apply keeps_updateHolding
    | apply keeps_initializeUser
    | apply keeps_when
    | apply keeps_bind; [|intros ?]
    | match goal with
      | |- keeps _ (if ?b then _ else _) => destruct b
      | |- keeps _ (match ?x with _ => _ end) => destruct x
      end ].

Lemma keeps_getBalance (userId : string) : keeps manager_wf (getBalance userId).
Proof. unfold getBalance. repeat keeps_step. Qed.

Lemma keeps_resolvePosition (userId : string) (m : PredictionMarket) :
  keeps manager_wf (resolvePosition userId m).
Proof. unfold resolvePosition. repeat keeps_step. Qed.

Lemma keeps_buyShares (now userId : string) (o : Outcome) (amount : num) :
  keeps (fun w => manager_wf (manager w)) (Shares.buyShares now userId o amount).
Proof. unfold Shares.buyShares. repeat keeps_step. Qed.

Lemma keeps_sellShares (now userId : string) (o : Outcome) (amount : num) :
  keeps (fun w => manager_wf (manager w)) (Shares.sellShares now userId o amount).
Proof. unfold Shares.sellShares. repeat keeps_step. Qed.

(** Whatever a client calls, and whether the call returns or throws, every
    account of the manager still has its statistics afterwards. *)
Lemma runTrade_wf (w : World) (call : TradeCall) :
  manager_wf (manager w) → manager_wf (manager (runTrade w call)).
Proof.
  intros Hwf. destruct call; simpl.
  - by apply (keeps_onManager _ (keeps_initializeUser _ _)).
  - by apply (keeps_onManager _ (keeps_getBalance _)).
  - by apply keeps_buyShares.
  - by apply keeps_sellShares.
  - by apply (keeps_onManager _ (keeps_resolvePosition _ _)).
  - by apply (keeps_onMarket (Market.buyShares _ _ _ _)).
  - by apply (keeps_onMarket (Market.sellShares _ _ _ _)).
  - by apply (keeps_onMarket (Market.resolve _)).
Qed.

Lemma trades_wf (calls : list TradeCall) (mk : PredictionMarket) :
  manager_wf (manager (foldl runTrade (mkWorld Shares.create mk) calls)).
Proof.
  induction calls as [|call calls IH] using rev_ind.
  - apply manager_wf_create.
  - rewrite foldl_app. simpl. by apply runTrade_wf.
Qed.





End SharesFacts.

(* ===================================================================== *)
(** * The ledger as its callers see it                                    *)
(* ===================================================================== *)

Section ChainFacts.
Import Blockchain.

Lemma chainFrom_length (idx : N) (prev : string) (calls : list Append) :
  length (chainFrom idx prev calls) = length calls.
Proof.
  revert idx prev. induction calls as [|c calls IH]; intros idx prev; cbn [chainFrom length].
  - done.
  - by rewrite IH.
Qed.

(** The chain held after a run of appends, written from its first new
    block on. *)
Lemma foldl_grow_chainFrom (calls : list Append) (chain : list Block) :
  foldl grow chain calls
  = chain ++ chainFrom (N.of_nat (length chain))
                       (match last chain with
                        | Some b => hash b
                        | None => genesisPreviousHash
                        end) calls.
Proof.
  revert chain. induction calls as [|c calls IH]; intros chain; cbn [foldl chainFrom].
  - by rewrite app_nil_r.
  - rewrite IH. unfold grow at 1 2 3. rewrite length_app, last_snoc. cbn [length].
    rewrite <- app_assoc. cbn [app]. unfold nextBlock.
    cbn [index timestamp data previousHash hash].
    replace (N.of_nat (length chain + 1)) with (N.of_nat (length chain) + 1)%N by lia.
    done.
Qed.

Lemma chainFrom_lookup (calls : list Append) (idx : N) (prev : string) (i : nat) (c : Append) :
  calls !! i = Some c →
  ∃ b, chainFrom idx prev calls !! i = Some b
       ∧ index b = (idx + N.of_nat i)%N
       ∧ timestamp b = stamp_reading c
       ∧ data b = payload c
       ∧ hash b = calculateHash (index b) (hash_reading c) (data b) (previousHash b)
       ∧ (i = 0%nat → previousHash b = prev)
       ∧ (∀ j p, i = S j → chainFrom idx prev calls !! j = Some p → previousHash b = hash p).
Proof.
  revert idx prev i. induction calls as [|c0 calls IH]; intros idx prev i Hc; [done|].
  destruct i as [|i]; cbn [chainFrom].
  - injection Hc as ->. eexists. split; [reflexivity|].
    cbn [index timestamp data previousHash hash].
    split_and!; try done. lia.
  - cbn in Hc. destruct (IH (idx + 1)%N
      (calculateHash idx (hash_reading c0) (payload c0) prev) i Hc)
      as (b & Hb & Hidx & Hts & Hd & Hh & Hfirst & Hprev).
    exists b. cbn [hash]. split; [exact Hb|].
    split_and!; try done.
    + lia.
    + intros j p [= <-] Hp. destruct i as [|i'].
      * cbn in Hp. injection Hp as <-. cbn [hash]. by apply Hfirst.
      * cbn in Hp. by apply (Hprev i').
Qed.

(** X1. Whatever the clock does, a ledger grown by [addBlock] from an empty
    directory reads back as one block per call, in call order: block [i]
    carries index [i], the time stamp and the payload of call [i], the
    all-zero hash as [previousHash] when it is the first and the stored
    hash of block [i-1] otherwise, and as its hash the digest taken with
    the second clock reading. *)
Theorem appended_chain_shape (calls : list Append) :
  let chain := getFullChain (appendAll calls ∅) in
  length chain = length calls
  ∧ ∀ i c, calls !! i = Some c →
      ∃ b, chain !! i = Some b
           ∧ index b = N.of_nat i
           ∧ timestamp b = stamp_reading c
           ∧ data b = payload c
           ∧ hash b = calculateHash (index b) (hash_reading c) (data b) (previousHash b)
           ∧ (i = 0%nat → previousHash b = genesisPreviousHash)
           ∧ (∀ j p, i = S j → chain !! j = Some p → previousHash b = hash p).
Proof.
  intros chain. subst chain. rewrite getFullChain_appendAll, foldl_grow_chainFrom.
  cbn [app length last]. split; [apply chainFrom_length|].
  intros i c Hc.
  destruct (chainFrom_lookup calls 0 genesisPreviousHash i c Hc)
    as (b & Hb & Hidx & Hrest).
  exists b. split; [exact Hb|]. split; [lia|]. exact Hrest.
Qed.

(** The payloads and time stamps of the chain are those of the calls. *)
Lemma chainFrom_data (calls : list Append) (idx : N) (prev : string) :
  data <$> chainFrom idx prev calls = payload <$> calls
  ∧ timestamp <$> chainFrom idx prev calls = stamp_reading <$> calls.
Proof.
  revert idx prev. induction calls as [|c calls IH]; intros idx prev; cbn [chainFrom].
  - done.
  - rewrite !fmap_cons. cbn [data timestamp hash].
    destruct (IH (idx + 1)%N (calculateHash idx (hash_reading c) (payload c) prev)) as [-> ->].
    done.
Qed.

Lemma chainFrom_increasing (calls : list Append) (idx : N) (prev : string) :
  StronglySorted (fun a b => (index a < index b)%N) (chainFrom idx prev calls)
  ∧ Forall (fun b => (idx <= index b)%N) (chainFrom idx prev calls).
Proof.
  revert idx prev. induction calls as [|c calls IH]; intros idx prev; cbn [chainFrom].
  - split; constructor.
  - destruct (IH (idx + 1)%N (calculateHash idx (hash_reading c) (payload c) prev))
      as [Hs Hf].
    split.
    + constructor; [exact Hs|]. eapply Forall_impl; [exact Hf|].
      intros b Hb. cbn beta in Hb. cbn [index]. lia.
    + constructor; [cbn [index]; lia|]. eapply Forall_impl; [exact Hf|].
      intros b Hb. cbn beta in Hb |- *. lia.
Qed.

(** *** Order of the chain read back *)

Lemma files_increasing (l : list (N * Block)) :
  StronglySorted file_le l → NoDup l.*1 →
  (∀ k b, (k, b) ∈ l → index b = k) →
  StronglySorted (fun a b => (index a < index b)%N) (snd <$> l).
Proof.
  induction 1 as [|[k b] l Hs IH Hall]; intros Hnd Hidx; cbn.
  - constructor.
  - rewrite fmap_cons in Hnd. apply NoDup_cons in Hnd as [Hk Hnd].
    constructor.
    + apply IH; [exact Hnd|]. intros k' b' Hin. apply Hidx. by right.
    + apply Forall_fmap, Forall_forall. intros [k' b'] Hin.
      rewrite Forall_forall in Hall. specialize (Hall _ Hin). unfold file_le in Hall.
      cbn in *.
      rewrite (Hidx k b) by left. rewrite (Hidx k' b') by (by right).
      assert (k ≠ k'); [|lia].
      intros ->. apply Hk. apply list_elem_of_fmap. by exists (k', b').
Qed.

Lemma getFullChain_increasing (store : Store) :
  store_wf store →
  StronglySorted (fun a b => (index a < index b)%N) (getFullChain store).
Proof.
  intros Hwf. unfold getFullChain. apply files_increasing.
  - apply StronglySorted_merge_sort; first [apply file_le_trans | apply file_le_total].
  - rewrite merge_sort_Permutation. apply NoDup_fst_map_to_list.
  - intros k b Hin. rewrite merge_sort_Permutation in Hin.
    apply elem_of_map_to_list in Hin. by apply Hwf.
Qed.

Lemma elem_of_getFullChain (store : Store) (b : Block) :
  b ∈ getFullChain store ↔ ∃ k, store !! k = Some b.
Proof.
  unfold getFullChain. rewrite list_elem_of_fmap. split.
  - intros ([k b'] & -> & Hin). rewrite merge_sort_Permutation in Hin.
    apply elem_of_map_to_list in Hin. by exists k.
  - intros [k Hk]. exists (k, b). split; [done|].
    rewrite merge_sort_Permutation. by apply elem_of_map_to_list.
Qed.




(** *** Appending a block received from a peer *)

Lemma validateChain_snoc (chain : list Block) (b : Block) :
  validateChain (chain ++ [b]) = true
  ↔ validateChain chain = true
    ∧ hash b = expectedHash b
    ∧ (∀ p, last chain = Some p → previousHash b = hash p).
Proof.
  assert ((chain ++ [b]) !! length chain = Some b) as Hb.
  { by rewrite lookup_app_r, Nat.sub_diag by lia. }
  assert (linkValidAt (chain ++ [b]) (length chain) = true
          ↔ ∀ p, last chain = Some p → previousHash b = hash p) as Hlink.
  { unfold linkValidAt. destruct (length chain) as [|k] eqn:Hlen.
    - apply nil_length_inv in Hlen. subst chain. split; [|done]. by intros _ p.
    - rewrite Hb. rewrite last_lookup, Hlen. cbn [pred].
      rewrite (lookup_app_l chain [b] k) by lia.
      destruct (chain !! k) as [p|] eqn:Hp.
      + rewrite String.eqb_eq. split; [by intros H q [= <-]|intros H; by apply H].
      + apply lookup_ge_None_1 in Hp. lia. }
  rewrite !validateChain_true. split.
  - intros H. split_and!.
    + intros i Hi. destruct (H i) as [H1 H2]; [rewrite length_app; cbn; lia|].
      by rewrite hashValidAt_app_l, linkValidAt_app_l in * by done.
    + destruct (H (length chain)) as [H1 _]; [rewrite length_app; cbn; lia|].
      by apply (hashValidAt_lookup _ _ _ Hb).
    + apply Hlink. apply H. rewrite length_app; cbn; lia.
  - intros (Hchain & Hhash & Hprev) i Hi. rewrite length_app in Hi. cbn in Hi.
    destruct (decide (i = length chain)) as [->|Hne].
    + split; [by apply (hashValidAt_lookup _ _ _ Hb)|by apply Hlink].
    + rewrite hashValidAt_app_l, linkValidAt_app_l by lia. apply Hchain. lia.
Qed.

(** X4. [saveReceivedBlock] takes the next block of a valid ledger on its
    own hash and its index alone: a self-consistent block numbered just
    after the latest one is stored whatever its [previousHash] is, and the
    ledger stays valid exactly when that field is the hash of the block
    that was the latest. *)
Theorem saveReceivedBlock_appends_without_link_check
    (chain : list Block) (store : Store) (block : Block) :
  holds chain store →
  validateChain chain = true →
  hash block = expectedHash block →
  index block = N.of_nat (length chain) →
  saveReceivedBlock block store = (true, <[index block := block]> store)
  ∧ getFullChain (<[index block := block]> store) = chain ++ [block]
  ∧ (validateChain (getFullChain (<[index block := block]> store)) = true
     ↔ ∀ p, last chain = Some p → previousHash block = hash p).
Proof.
  intros Hh Hvalid Hhash Hidx.
  assert (getFullChain (<[index block := block]> store) = chain ++ [block]) as Hread.
  { apply getFullChain_holds. by apply holds_snoc. }
  split_and!.
  - apply saveReceivedBlock_fresh; [by eapply holds_wf|done|].
    intros latest Hlatest. rewrite (holds_latest _ _ Hh) in Hlatest.
    rewrite last_lookup in Hlatest.
    destruct Hh as [_ Hnum]. rewrite (Hnum _ _ Hlatest), Hidx.
    apply lookup_lt_Some in Hlatest. lia.
  - exact Hread.
  - rewrite Hread, validateChain_snoc.
    split; [intros (_ & _ & H); exact H | intros H; split_and!; done].
Qed.

Lemma saveReceivedBlock_appends_witness :
  saveReceivedBlock unlinkedBlock (appendAll [firstCall] ∅)
  = (true, <[index unlinkedBlock := unlinkedBlock]> (appendAll [firstCall] ∅))
  ∧ getFullChain (<[index unlinkedBlock := unlinkedBlock]> (appendAll [firstCall] ∅))
    = [block0; unlinkedBlock]
  ∧ validateChain [block0; unlinkedBlock] = false.
Proof.
  assert (holds [block0] (appendAll [firstCall] ∅)) as Hh.
  { exact (appendAll_holds [firstCall] [] ∅ holds_empty). }
  assert (validateChain [block0] = true) as Hvalid by (vm_compute; reflexivity).
  assert (hash unlinkedBlock = expectedHash unlinkedBlock) as Hhash
    by (vm_compute; reflexivity).
  destruct (saveReceivedBlock_appends_without_link_check
              [block0] (appendAll [firstCall] ∅) unlinkedBlock Hh Hvalid Hhash eq_refl)
    as (Hsave & Hread & _).
  split; [exact Hsave|]. split; [exact Hread|].
  vm_compute. reflexivity.
Defined.

(** *** Peers *)

Lemma registerPeer_fold (urls peers0 : list string) :
  NoDup peers0 →
  NoDup (foldl (fun ps u => Ledger.registerPeer u ps) peers0 urls)
  ∧ (∀ u, u ∈ foldl (fun ps u => Ledger.registerPeer u ps) peers0 urls
          ↔ u ∈ peers0 ∨ u ∈ urls)
  ∧ (length (foldl (fun ps u => Ledger.registerPeer u ps) peers0 urls)
     <= length peers0 + length urls)%nat
  ∧ peers0 `prefix_of` foldl (fun ps u => Ledger.registerPeer u ps) peers0 urls.
Proof.
  revert peers0. induction urls as [|url urls IH]; intros peers0 Hnd; cbn [foldl].
  - split_and!; [done| |lia|done]. intros u. rewrite elem_of_nil. tauto.
  - unfold Ledger.registerPeer at 2 4 6 8. case_bool_decide as Hin.
    + destruct (IH peers0 Hnd) as (H1 & H2 & H3 & H4).
      split_and!; [done| |cbn [length]; lia|done].
      intros u. rewrite H2, elem_of_cons. split; [tauto|].
      intros [?|[->|?]]; tauto.
    + destruct (IH (peers0 ++ [url])) as (H1 & H2 & H3 & H4).
      { apply NoDup_app. split_and!; [done| |apply NoDup_singleton].
        intros x Hx ->%list_elem_of_singleton. done. }
      split_and!; [done| | |].
      * intros u. rewrite H2, elem_of_app, list_elem_of_singleton, elem_of_cons. tauto.
      * rewrite length_app in H3. cbn [length] in *. lia.
      * etransitivity; [|exact H4]. by apply prefix_app_r.
Qed.

(** X5. The peer list of a node never holds an address twice: after any
    run of [registerPeer] calls it lists exactly the addresses that were
    registered, each once, and registering a listed address again changes
    nothing. *)
Theorem registerPeer_keeps_peers_distinct (urls : list string) :
  let peers := foldl (fun ps u => Ledger.registerPeer u ps) [] urls in
  NoDup peers
  ∧ (∀ u, u ∈ peers ↔ u ∈ urls)
  ∧ (length peers <= length urls)%nat
  ∧ (∀ u, u ∈ peers → Ledger.registerPeer u peers = peers).
Proof.
  intros peers. subst peers.
  destruct (registerPeer_fold urls [] (NoDup_nil_2)) as (H1 & H2 & H3 & _).
  split_and!; [done| |done|].
  - intros u. rewrite H2, elem_of_nil. tauto.
  - intros u Hu. unfold Ledger.registerPeer. by rewrite bool_decide_eq_true_2.
Qed.

(** *** The audit endpoints *)

Lemma tampered_checks (chain : list Block) (i : nat) :
  tampered chain i
  ↔ (i < length chain)%nat ∧ hashValidAt chain i && linkValidAt chain i = false.
Proof.
  destruct (reportAt_cases chain i) as [(Ht & b & r & Hb & Hr & _)|[Hn Hr]].
  - split; [intros _|done]. split; [by eapply lookup_lt_Some|].
    unfold reportAt in Hr. rewrite Hb in Hr.
    destruct (hashValidAt chain i); [|done].
    destruct (linkValidAt chain i); [|done]. done.
  - split; [done|]. intros [Hi Hc]. exfalso.
    apply lookup_lt_is_Some_2 in Hi as [b Hb].
    unfold reportAt in Hr. rewrite Hb in Hr.
    destruct (hashValidAt chain i); [|done].
    destruct (linkValidAt chain i); done.
Qed.

Lemma auditLoop_cons (blocks : list Block) (i : nat) (rest : list nat) :
  Server.auditLoop blocks (i :: rest)
  = match blocks !! i with
    | Some currentBlock =>
        if negb (hashValidAt blocks i) then
          Some (index currentBlock, "Block hash does not match expected value"%string)
        else if negb (linkValidAt blocks i) then
          Some (index currentBlock,
                "Previous hash does not match previous block's hash"%string)
        else Server.auditLoop blocks rest
    | None => Server.auditLoop blocks rest
    end.
Proof.
  cbn [Server.auditLoop]. unfold hashValidAt, linkValidAt.
  destruct i as [|i'].
  - destruct (blocks !! 0%nat) as [b|]; [|done].
    by destruct (String.eqb (hash b) (expectedHash b)).
  - destruct (blocks !! S i') as [b|]; [|done].
    destruct (String.eqb (hash b) (expectedHash b)); [|done]. cbn [negb].
    by destruct (blocks !! i') as [p|].
Qed.

Lemma auditLoop_None (blocks : list Block) (todo : list nat) :
  Server.auditLoop blocks todo = None
  ↔ ∀ i, i ∈ todo → hashValidAt blocks i && linkValidAt blocks i = true.
Proof.
  induction todo as [|i rest IH].
  - split; [|done]. intros _ i Hi. by apply elem_of_nil in Hi.
  - rewrite auditLoop_cons. setoid_rewrite elem_of_cons.
    assert (blocks !! i = None → hashValidAt blocks i && linkValidAt blocks i = true) as Hout.
    { intros Hb. unfold hashValidAt, linkValidAt. rewrite Hb. by destruct i. }
    destruct (blocks !! i) as [b|] eqn:Hb.
    + destruct (hashValidAt blocks i) eqn:Hh; cbn [negb andb].
      * destruct (linkValidAt blocks i) eqn:Hl; cbn [negb].
        -- rewrite IH. split; [|by auto]. intros H j [->|Hj]; [by rewrite Hh, Hl|by apply H].
        -- split; [done|]. intros H. specialize (H i (or_introl eq_refl)).
           by rewrite Hh, Hl in H.
      * split; [done|]. intros H. specialize (H i (or_introl eq_refl)).
        by rewrite Hh in H.
    + rewrite IH. split; [|by auto]. intros H j [->|Hj]; [by apply Hout|by apply H].
Qed.

Lemma auditLoop_Some (blocks : list Block) (todo : list nat) (idx : N) (msg : string) :
  Server.auditLoop blocks todo = Some (idx, msg) →
  ∃ pre i post b,
    todo = pre ++ i :: post
    ∧ (∀ j, j ∈ pre → hashValidAt blocks j && linkValidAt blocks j = true)
    ∧ blocks !! i = Some b ∧ index b = idx
    ∧ hashValidAt blocks i && linkValidAt blocks i = false.
Proof.
  induction todo as [|i rest IH]; [done|]. rewrite auditLoop_cons.
  assert (Server.auditLoop blocks rest = Some (idx, msg) →
          hashValidAt blocks i && linkValidAt blocks i = true →
          ∃ pre i0 post b,
            i :: rest = pre ++ i0 :: post
            ∧ (∀ j, j ∈ pre → hashValidAt blocks j && linkValidAt blocks j = true)
            ∧ blocks !! i0 = Some b ∧ index b = idx
            ∧ hashValidAt blocks i0 && linkValidAt blocks i0 = false) as Hrest.
  { intros H Hi. destruct (IH H) as (pre & i0 & post & b & -> & Hpre & Hb & Hidx & Hbad).
    exists (i :: pre), i0, post, b. split_and!; try done.
    intros j [->|Hj]%elem_of_cons; [done|by apply Hpre]. }
  destruct (blocks !! i) as [b|] eqn:Hb.
  - destruct (hashValidAt blocks i) eqn:Hh; cbn [negb andb].
    + destruct (linkValidAt blocks i) eqn:Hl; cbn [negb].
      * intros H. apply Hrest; [done|]. by rewrite ?Hh, ?Hl.
      * intros [= <- <-]. exists [], i, rest, b. split_and!; try done.
        -- intros j Hj. by apply elem_of_nil in Hj.
        -- by rewrite ?Hh, ?Hl.
    + intros [= <- <-]. exists [], i, rest, b. split_and!; try done.
      * intros j Hj. by apply elem_of_nil in Hj.
      * by rewrite ?Hh.
  - intros H. apply Hrest; [done|]. unfold hashValidAt, linkValidAt. rewrite Hb.
    by destruct i.
Qed.

Lemma auditLoop_validateChain (chain : list Block) :
  Server.auditLoop chain (seq 0 (length chain)) = None ↔ validateChain chain = true.
Proof.
  rewrite auditLoop_None. unfold validateChain. rewrite forallb_forall.
  split; intros H i Hi.
  - apply H. apply elem_of_seq. apply in_seq in Hi. lia.
  - apply H. apply in_seq. apply elem_of_seq in Hi. lia.
Qed.

Lemma getFullChain_nil (store : Store) : getFullChain store = [] ↔ store = ∅.
Proof.
  split.
  - intros H. apply map_size_empty_iff. by rewrite <- getFullChain_length, H.
  - intros ->. apply nil_length_inv. by rewrite getFullChain_length, map_size_empty.
Qed.

Lemma server_audit_secure (store : Store) :
  store ≠ ∅ → validateChain (getFullChain store) = true →
  Server.audit store = AuditSecure (length (getFullChain store)).
Proof.
  intros Hs Hvalid. unfold Server.audit.
  destruct (length (getFullChain store) =? 0)%nat eqn:Hz.
  - apply Nat.eqb_eq, nil_length_inv, getFullChain_nil in Hz. done.
  - apply auditLoop_validateChain in Hvalid. by rewrite Hvalid.
Qed.

(** X9. The audit of server.js stops at the first block that fails a
    check: it answers Empty exactly for an empty directory, Secure (with
    the number of blocks) exactly when [validateChain] accepts the chain
    read back, and otherwise Tampered with the index of the first position
    that is tampered, every position before it passing both checks. *)
Theorem server_audit_reports_first_failure (store : Store) :
  let chain := getFullChain store in
  (Server.audit store = AuditEmpty ↔ store = ∅)
  ∧ (∀ n, Server.audit store = AuditSecure n
          ↔ store ≠ ∅ ∧ n = size store ∧ validateChain chain = true)
  ∧ (∀ idx msg, Server.audit store = AuditTamperedAt idx msg →
       ∃ i b, chain !! i = Some b ∧ index b = idx ∧ tampered chain i
              ∧ ∀ j, (j < i)%nat → ¬ tampered chain j)
  ∧ (store ≠ ∅ → validateChain chain = false →
     ∃ idx msg, Server.audit store = AuditTamperedAt idx msg).
Proof.
  intros chain. unfold Server.audit. fold chain.
  pose proof (getFullChain_nil store) as Hnil. fold chain in Hnil.
  pose proof (getFullChain_length store) as Hlen. fold chain in Hlen.
  pose proof (auditLoop_validateChain chain) as Hloop.
  destruct (length chain =? 0)%nat eqn:Hz.
  - apply Nat.eqb_eq in Hz. apply nil_length_inv in Hz.
    assert (store = ∅) as Hs by (by apply Hnil).
    split_and!; [done| | |]; try done.
    intros n. split; [done|]. by intros [? _].
  - apply Nat.eqb_neq in Hz.
    assert (store ≠ ∅) as Hs.
    { intros H. apply Hnil in H. rewrite H in Hz. done. }
    destruct (Server.auditLoop chain (seq 0 (length chain))) as [[idx msg]|] eqn:Ha.
    + assert (validateChain chain ≠ true) as Hinvalid.
      { intros H. apply Hloop in H. done. }
      split_and!.
      * split; [done|]. intros H. done.
      * intros n. split; [done|]. intros (_ & _ & H). done.
      * intros idx' msg' [= <- <-].
        apply auditLoop_Some in Ha as (pre & i & post & b & Hseq & Hpre & Hb & Hidx & Hbad).
        assert (i = length pre ∧ (i < length chain)%nat) as [Hi Hlt].
        { assert (seq 0 (length chain) !! length pre = Some i) as Hl.
          { rewrite Hseq. by rewrite lookup_app_r, Nat.sub_diag by lia. }
          apply lookup_seq in Hl. lia. }
        exists i, b. split_and!; try done.
        -- apply tampered_checks. done.
        -- intros j Hj Ht. apply tampered_checks in Ht as [_ Ht].
           assert (j ∈ pre) as Hin.
           { assert (seq 0 (length chain) !! j = Some j) as Hl
               by (apply lookup_seq; lia).
             rewrite Hseq, lookup_app_l in Hl by lia.
             by eapply list_elem_of_lookup_2. }
           rewrite (Hpre j Hin) in Ht. done.
      * intros _ _. by exists idx, msg.
    + assert (validateChain chain = true) as Hvalid by (by apply Hloop).
      split_and!.
      * split; [done|]. intros H. done.
      * intros n. split; [intros [= <-]; by rewrite Hlen|].
        intros (_ & -> & _). by rewrite Hlen.
      * done.
      * intros _ H. rewrite Hvalid in H. done.
Qed.

Lemma tamperAt_Ok_inv (chain : list Block) (i : nat) (found : list TamperReport) :
  tamperAt chain i = Ok found → found = reportAt chain i.
Proof.
  unfold tamperAt, reportAt. destruct (chain !! i) as [b|]; [|by intros [= <-]].
  destruct (negb (hashValidAt chain i)); [by intros [= <-]|].
  destruct (negb (linkValidAt chain i)); [by intros [= <-]|].
  destruct ((0 <? i)%nat && negb (canReadProperty (data b))); [done|by intros [= <-]].
Qed.

Lemma scanFrom_Ok_inv (chain : list Block) (todo : list nat) (acc reports : list TamperReport) :
  scanFrom chain todo acc = Ok reports →
  reports = acc ++ flat_map (reportAt chain) todo.
Proof.
  revert acc. induction todo as [|i rest IH]; intros acc; cbn [scanFrom flat_map].
  - intros [= <-]. by rewrite app_nil_r.
  - destruct (tamperAt chain i) as [found|] eqn:Hi; [|done].
    apply tamperAt_Ok_inv in Hi as ->. intros H. apply IH in H as ->.
    by rewrite app_assoc.
Qed.

Lemma detectTampering_Ok_inv (chain : list Block) (reports : list TamperReport) :
  detectTampering chain = Ok reports → reports = auditReport chain.
Proof. unfold detectTampering. intros H. by apply scanFrom_Ok_inv in H. Qed.

Lemma gateway_audit_secure (store : Store) :
  store ≠ ∅ → detectTampering (getFullChain store) = Ok [] →
  Gateway.audit store = AuditSecure (length (getFullChain store)).
Proof.
  intros Hs Hd. unfold Gateway.audit.
  destruct (length (getFullChain store) =? 0)%nat eqn:Hz.
  - apply Nat.eqb_eq, nil_length_inv, getFullChain_nil in Hz. done.
  - rewrite Hd. cbn [length Nat.ltb Nat.leb].
    pose proof (detectTampering_Ok_inv _ _ Hd) as Hrep. symmetry in Hrep.
    apply auditReport_nil, auditLoop_validateChain in Hrep. by rewrite Hrep.
Qed.

(** X10. In the audit of test-asset.js the verification loop that follows
    [detectTampering] never finds anything: the reply is Tampered with the
    full list of reports exactly when [detectTampering] returns a non-empty
    list, Secure exactly when the audit of server.js says Secure and
    [detectTampering] returns, and an error reply when [detectTampering]
    throws; the reply naming a single block is never given. *)
Theorem gateway_audit_never_reaches_its_loop (store : Store) :
  let chain := getFullChain store in
  (∀ idx msg, Gateway.audit store ≠ AuditTamperedAt idx msg)
  ∧ (∀ n, Gateway.audit store = AuditSecure n
          ↔ Server.audit store = AuditSecure n ∧ ∃ reports, detectTampering chain = Ok reports)
  ∧ (∀ reports n, Gateway.audit store = AuditTamperedBlocks reports n
          ↔ store ≠ ∅ ∧ detectTampering chain = Ok reports ∧ reports ≠ []
            ∧ n = length chain)
  ∧ (∀ reports n, Gateway.audit store = AuditTamperedBlocks reports n →
       reports = auditReport chain ∧ validateChain chain = false)
  ∧ (∀ msg, Gateway.audit store = AuditError msg
          ↔ store ≠ ∅ ∧ detectTampering chain = Throw msg).
Proof.
  intros chain. unfold Gateway.audit, Server.audit. fold chain.
  pose proof (getFullChain_nil store) as Hnil. fold chain in Hnil.
  pose proof (auditLoop_validateChain chain) as Hloop.
  destruct (length chain =? 0)%nat eqn:Hz.
  - apply Nat.eqb_eq in Hz. apply nil_length_inv in Hz.
    assert (store = ∅) as Hs by (by apply Hnil).
    split_and!; try done.
    + intros n. split; [done|]. by intros [? _].
    + intros reports n. split; [done|]. by intros [? _].
    + intros msg. split; [done|]. by intros [? _].
  - apply Nat.eqb_neq in Hz.
    assert (store ≠ ∅) as Hs.
    { intros H. apply Hnil in H. rewrite H in Hz. done. }
    destruct (detectTampering chain) as [reports|msg] eqn:Hd.
    + pose proof (detectTampering_Ok_inv _ _ Hd) as Hrep.
      destruct (0 <? length reports)%nat eqn:Hpos.
      * apply Nat.ltb_lt in Hpos.
        assert (reports ≠ []) as Hne by (intros ->; cbn in Hpos; lia).
        assert (validateChain chain = false) as Hinvalid.
        { apply not_true_is_false. intros H. apply auditReport_nil in H. congruence. }
        assert (Server.auditLoop chain (seq 0 (length chain)) ≠ None) as Hsome.
        { intros H. apply Hloop in H. congruence. }
        split_and!; try done.
        -- intros n. split; [done|]. intros [H _].
           destruct (Server.auditLoop chain (seq 0 (length chain))) as [[? ?]|]; done.
        -- intros reports' n. split; [by intros [= <- <-]|].
           by intros (_ & [= <-] & _ & ->).
        -- intros reports' n [= <- <-]. done.
        -- intros msg. split; [done|]. by intros [_ ?].
      * apply Nat.ltb_ge in Hpos.
        assert (reports = []) as -> by (apply nil_length_inv; lia).
        assert (validateChain chain = true) as Hvalid by (by apply auditReport_nil).
        apply Hloop in Hvalid. rewrite Hvalid.
        split_and!; try done.
        -- intros n. split; [by eauto|]. by intros [? _].
        -- intros reports' n. split; [done|]. by intros (_ & [= <-] & ? & _).
        -- intros msg. split; [done|]. by intros [_ ?].
    + split_and!; try done.
      * intros n. split; [done|]. by intros [_ [? ?]].
      * intros reports n. split; [done|]. by intros (_ & ? & _).
      * intros msg'. split; [by intros [= <-]|]. by intros [_ [= <-]].
Qed.

Lemma appended_payloads_present (calls : list Append) :
  (∀ c, c ∈ calls → payload c ≠ JNull) →
  payloads_present (getFullChain (appendAll calls ∅)).
Proof.
  intros Hp i b Hb. rewrite getFullChain_appendAll, foldl_grow_chainFrom in Hb.
  cbn [app length last] in Hb.
  assert (data b ∈ data <$> chainFrom 0 genesisPreviousHash calls) as Hin.
  { apply list_elem_of_fmap_2. by eapply list_elem_of_lookup_2. }
  rewrite (proj1 (chainFrom_data calls _ _)) in Hin.
  apply list_elem_of_fmap in Hin as (c & -> & Hc). by apply Hp.
Qed.

(** X2. When each [addBlock] call reads the same instant both times and
    stores a payload that is not [null], the ledger it builds passes every
    check there is: [validateChain] accepts it, [detectTampering] returns
    an empty list, and both audit endpoints answer Secure with the number
    of calls. *)
Theorem steady_clock_ledger_passes_audits (calls : list Append) :
  (∀ c, c ∈ calls → stamp_reading c = hash_reading c) →
  (∀ c, c ∈ calls → payload c ≠ JNull) →
  calls ≠ [] →
  let store := appendAll calls ∅ in
  validateChain (getFullChain store) = true
  ∧ detectTampering (getFullChain store) = Ok []
  ∧ Server.audit store = AuditSecure (length calls)
  ∧ Gateway.audit store = AuditSecure (length calls).
Proof.
  intros Hclock Hpayload Hne store.
  assert (validateChain (getFullChain store) = true) as Hvalid
    by (by apply addBlock_valid_stable_clock).
  assert (detectTampering (getFullChain store) = Ok []) as Hdetect.
  { rewrite detectTampering_Ok by (by apply appended_payloads_present).
    f_equal. by apply auditReport_nil. }
  assert (length (getFullChain store) = length calls) as Hlen.
  { unfold store. rewrite getFullChain_appendAll, foldl_grow_chainFrom.
    cbn [app]. apply chainFrom_length. }
  assert (store ≠ ∅) as Hs.
  { intros H. apply getFullChain_nil in H. rewrite H in Hlen.
    destruct calls; [done|]. cbn in Hlen. lia. }
  split_and!; [done|done| |].
  - rewrite <- Hlen. by apply server_audit_secure.
  - rewrite <- Hlen. by apply gateway_audit_secure.
Qed.

Lemma steady_clock_ledger_witness :
  validateChain (getFullChain (appendAll threeAppends ∅)) = true
  ∧ detectTampering (getFullChain (appendAll threeAppends ∅)) = Ok []
  ∧ Server.audit (appendAll threeAppends ∅) = AuditSecure 3
  ∧ Gateway.audit (appendAll threeAppends ∅) = AuditSecure 3.
Proof.
  apply (steady_clock_ledger_passes_audits threeAppends).
  - intros c Hc. unfold threeAppends in Hc.
    repeat (apply elem_of_cons in Hc as [->|Hc]); try reflexivity.
    by apply elem_of_nil in Hc.
  - intros c Hc. unfold threeAppends in Hc.
    repeat (apply elem_of_cons in Hc as [->|Hc]); try discriminate.
    by apply elem_of_nil in Hc.
  - discriminate.
Defined.

(** *** The history of a kit *)

Lemma StronglySorted_filter {A} (R : relation A) (P : A → Prop) `{∀ x, Decision (P x)}
    (l : list A) :
  StronglySorted R l → StronglySorted R (filter P l).
Proof.
  induction 1 as [|x l Hs IH Hall]; [constructor|].
  rewrite filter_cons. destruct (decide (P x)); [|done].
  constructor; [done|]. apply Forall_forall. intros y Hy.
  apply list_elem_of_filter in Hy as [_ Hy].
  rewrite Forall_forall in Hall. by apply Hall.
Qed.

Lemma chainFrom_filter (P : json → Prop) `{∀ d, Decision (P d)}
    (calls : list Append) (idx : N) (prev : string) :
  data <$> filter (fun b => P (data b)) (chainFrom idx prev calls)
  = payload <$> filter (fun c => P (payload c)) calls
  ∧ timestamp <$> filter (fun b => P (data b)) (chainFrom idx prev calls)
    = stamp_reading <$> filter (fun c => P (payload c)) calls.
Proof.
  revert idx prev. induction calls as [|c calls IH]; intros idx prev; cbn [chainFrom].
  - done.
  - rewrite !filter_cons. cbn [data hash].
    destruct (IH (idx + 1)%N (calculateHash idx (hash_reading c) (payload c) prev))
      as [IH1 IH2].
    destruct (decide (P (payload c))).
    + rewrite !fmap_cons. cbn [data timestamp]. by rewrite IH1, IH2.
    + done.
Qed.

(** X11. On a ledger grown by [addBlock] the history endpoint of a kit
    returns one block per call whose payload is an object with that
    [kitID], in call order and with the payload and time stamp of the call,
    and answers Not Found exactly when no call carried the kit. *)
Theorem ledgerKit_returns_kit_records_in_order (calls : list Append) (kitId : string) :
  let records := filter (fun c => Payload.ofKit kitId (payload c) = true) calls in
  match Server.ledgerKit kitId (appendAll calls ∅) with
  | HistoryNotFound => records = []
  | HistoryFound recordCount history =>
      records ≠ []
      ∧ recordCount = length records
      ∧ data <$> history = payload <$> records
      ∧ timestamp <$> history = stamp_reading <$> records
      ∧ StronglySorted (fun a b => (index a < index b)%N) history
      ∧ history `sublist_of` getFullChain (appendAll calls ∅)
  end.
Proof.
  intros records. unfold Server.ledgerKit.
  rewrite getFullChain_appendAll, foldl_grow_chainFrom. cbn [app length last].
  change (N.of_nat 0) with 0%N.
  set (chain := chainFrom 0 genesisPreviousHash calls).
  set (history := filter (fun block => Payload.ofKit kitId (data block) = true) chain).
  destruct (chainFrom_filter (fun d => Payload.ofKit kitId d = true) calls 0
              genesisPreviousHash) as [Hdata Hstamp].
  fold chain history records in Hdata, Hstamp.
  assert (length history = length records) as Hlen.
  { by rewrite <- (length_fmap data), Hdata, length_fmap. }
  destruct (length history =? 0)%nat eqn:Hz.
  - apply Nat.eqb_eq in Hz. apply nil_length_inv. lia.
  - apply Nat.eqb_neq in Hz. split_and!; try done.
    + intros Hr. rewrite Hr in Hlen. cbn in Hlen. lia.
    + apply StronglySorted_filter. apply chainFrom_increasing.
    + apply sublist_filter.
Qed.

(** *** Blocks pushed by peers *)

Lemma updateBlockStatus_tampered (block : Block) :
  block_status (Ledger.updateBlockStatus block) = "tampered"%string
  ↔ hash block ≠ expectedHash block.
Proof.
  unfold Ledger.updateBlockStatus.
  destruct (String.eqb (hash block) (expectedHash block)) eqn:He; cbn [negb].
  - apply String.eqb_eq in He.
    destruct (Payload.truthy (data block) && _); cbn [block_status]; split; done.
  - apply String.eqb_neq in He. cbn [block_status]. done.
Qed.

Lemma defined_JObj (key : string) (d : json) :
  Payload.defined key d = true ↔ ∃ fields, d = JObj fields ∧ key ∈ fields.*1.
Proof.
  unfold Payload.defined, Payload.get. destruct d as [| | | | |fields];
    try (split; [done|by intros (? & ? & _)]).
  split.
  - intros H. exists fields. split; [done|].
    destruct (find _ fields) as [[k v]|] eqn:Hf; [|done].
    apply find_some in Hf as [Hin Hk]. cbn in Hk. apply String.eqb_eq in Hk as ->.
    apply list_elem_of_fmap. exists (key, v). split; [done|]. by apply list_elem_of_In.
  - intros (fields' & [= <-] & Hin).
    apply list_elem_of_fmap in Hin as ([k v] & -> & Hin).
    destruct (find _ fields) as [[k' v']|] eqn:Hf; [done|].
    apply list_elem_of_In in Hin.
    pose proof (find_none _ _ Hf (k, v) Hin) as Hno.
    cbn in Hno. by rewrite String.eqb_refl in Hno.
Qed.

(** X6. [POST /blocks/receive] never stores a block that
    [updateBlockStatus] tags as tampered: the tag is "tampered" exactly when
    the block's hash is not the digest of its fields, and then the request
    is refused with status 400 and the directory is left as it was. A block
    that is stored is answered with "verified" when its payload is an
    object with a [location], [temperature] or [kitID] field and with
    "unverified" otherwise. *)
Theorem blocksReceive_refuses_tampered (newBlock : Block) (store : Store) :
  let reply := Gateway.blocksReceive newBlock store in
  (block_status (Ledger.updateBlockStatus newBlock) = "tampered"%string
   ↔ hash newBlock ≠ expectedHash newBlock)
  ∧ (hash newBlock ≠ expectedHash newBlock →
     reply = (mkReceiveReply 400 "Block rejected (Invalid hash/sequence)", store))
  ∧ snd reply = snd (saveReceivedBlock newBlock store)
  ∧ (http_status (fst reply) = 200%nat ↔ fst (saveReceivedBlock newBlock store) = true)
  ∧ (http_status (fst reply) = 200%nat →
     (reply_text (fst reply) = "verified"%string
      ↔ ∃ fields, data newBlock = JObj fields
                  ∧ ("location"%string ∈ fields.*1 ∨ "temperature"%string ∈ fields.*1
                     ∨ "kitID"%string ∈ fields.*1))
     ∧ (reply_text (fst reply) = "verified"%string
        ∨ reply_text (fst reply) = "unverified"%string)).
Proof.
  intros reply. subst reply. split; [apply updateBlockStatus_tampered|].
  unfold Gateway.blocksReceive.
  assert (tagged (Ledger.updateBlockStatus newBlock) = newBlock) as ->.
  { unfold Ledger.updateBlockStatus.
    destruct (negb _); [done|]. by destruct (Payload.truthy _ && _). }
  split.
  { intros Hbad. by rewrite (saveReceivedBlock_bad_hash _ _ Hbad). }
  destruct (saveReceivedBlock newBlock store) as [success store'] eqn:Hsave.
  destruct success; cbn [fst snd http_status reply_text]; [|by split_and!].
  split_and!; try done.
  intros _.
  assert (hash newBlock = expectedHash newBlock) as Hok.
  { destruct (decide (hash newBlock = expectedHash newBlock)) as [|Hbad]; [done|].
    rewrite (saveReceivedBlock_bad_hash _ _ Hbad) in Hsave. done. }
  unfold Ledger.updateBlockStatus. apply String.eqb_eq in Hok. rewrite Hok. cbn [negb].
  destruct (Payload.truthy (data newBlock)
            && (Payload.defined "location" (data newBlock)
                || Payload.defined "temperature" (data newBlock)
                || Payload.defined "kitID" (data newBlock))) eqn:Hc;
    cbn [block_status].
  - split; [|by left]. split; [intros _|done].
    apply andb_prop in Hc as [_ Hc].
    apply orb_prop in Hc as [Hc|Hc]; [apply orb_prop in Hc as [Hc|Hc]|];
      apply defined_JObj in Hc as (fields & Hd & Hin); exists fields; tauto.
  - split; [|by right]. split; [done|]. intros (fields & Hd & Hin). exfalso.
    assert (Payload.truthy (data newBlock) = true) as Ht by (by rewrite Hd).
    assert (Payload.defined "location" (data newBlock)
            || Payload.defined "temperature" (data newBlock)
            || Payload.defined "kitID" (data newBlock) = true) as Hdef.
    { destruct Hin as [Hin|[Hin|Hin]].
      - rewrite (proj2 (defined_JObj "location" _)); [done|eauto].
      - rewrite (proj2 (defined_JObj "temperature" _)); [by rewrite orb_true_r|eauto].
      - rewrite (proj2 (defined_JObj "kitID" _)); [by rewrite orb_true_r|eauto]. }
    rewrite Ht, Hdef in Hc. done.
Qed.

(** X7. [POST /receive-block] is laxer than [saveReceivedBlock]: whenever
    [saveReceivedBlock] accepts a block the endpoint leaves the same
    directory behind, but the endpoint also takes any block whose hash is
    the digest of its own fields, and then overwrites a stored block of the
    same index that [saveReceivedBlock] would have kept. *)
Theorem receiveBlock_overwrites_stored_block (block : Block) (store : Store) :
  (http_status (fst (Gateway.receiveBlock (Some block) store)) = 200%nat
   ↔ hash block = expectedHash block)
  ∧ (fst (saveReceivedBlock block store) = true →
     snd (Gateway.receiveBlock (Some block) store) = snd (saveReceivedBlock block store))
  ∧ (∀ existing, hash block = expectedHash block →
       store !! index block = Some existing → hash existing ≠ hash block →
       saveReceivedBlock block store = (false, store)
       ∧ snd (Gateway.receiveBlock (Some block) store) = <[index block := block]> store
       ∧ snd (Gateway.receiveBlock (Some block) store) !! index block = Some block)
  ∧ (hash block ≠ expectedHash block →
     snd (Gateway.receiveBlock (Some block) store) = store).
Proof.
  unfold Gateway.receiveBlock, saveReceivedBlock.
  destruct (String.eqb (hash block) (expectedHash block)) eqn:He; cbn [negb].
  - apply String.eqb_eq in He. split_and!.
    + split; [done|intros _].
      destruct (store !! index block) as [existing|]; [|done].
      by destruct (String.eqb (hash existing) (hash block)).
    + destruct (store !! index block) as [existing|] eqn:Hex.
      * by destruct (String.eqb (hash existing) (hash block)).
      * destruct (getLatestBlock store) as [latest|]; [|done].
        by destruct (index block <=? index latest)%N.
    + intros existing _ Hex Hne. rewrite Hex.
      apply String.eqb_neq in Hne. rewrite Hne. cbn [snd].
      split_and!; [done|done|]. by rewrite lookup_insert_eq.
    + done.
  - apply String.eqb_neq in He. cbn [fst snd http_status]. split_and!; try done.
Qed.

(** *** Start-up synchronisation *)

Lemma initializeSync_silent (silent : list string)
    (rest : list (string * option (list Block))) (n : Node) :
  P2PServer.initializeSync (((fun u => (u, None)) <$> silent) ++ rest) n
  = P2PServer.initializeSync rest
      (mkNode (foldl (fun ps u => Ledger.registerPeer u ps) (peers n) silent) (ledger n)).
Proof.
  revert n. induction silent as [|u silent IH]; intros n.
  - by destruct n.
  - rewrite fmap_cons. cbn [app P2PServer.initializeSync P2PServer.syncWithPeer].
    rewrite IH. done.
Qed.

(** X8. [initializeSync] stops at the first known peer that answers with a
    chain at all: the peers before it (which did not answer) and that peer
    are registered, the local ledger is whatever [replaceChain] makes of
    that one answer (replaced only if the answer is strictly longer and
    valid), and the peers after it are neither registered nor asked,
    whatever chains they hold. When no peer answers, all are registered and
    the ledger is untouched. *)
Theorem initializeSync_stops_at_first_answer
    (silent : list string) (peerUrl : string) (peerChain : list Block)
    (later : list (string * option (list Block))) (n : Node) :
  let asked := ((fun u => (u, None)) <$> silent) in
  let n' := P2PServer.initializeSync (asked ++ (peerUrl, Some peerChain) :: later) n in
  peers n' = foldl (fun ps u => Ledger.registerPeer u ps) (peers n) (silent ++ [peerUrl])
  ∧ ledger n' = snd (replaceChain peerChain (ledger n))
  ∧ ledger n'
    = (if (length (getFullChain (ledger n)) <? length peerChain)%nat
          && validateChain peerChain
       then writeBlocks peerChain ∅ else ledger n)
  ∧ peers (P2PServer.initializeSync asked n)
    = foldl (fun ps u => Ledger.registerPeer u ps) (peers n) silent
  ∧ ledger (P2PServer.initializeSync asked n) = ledger n.
Proof.
  intros asked n'. subst asked n'.
  rewrite initializeSync_silent.
  rewrite <- (app_nil_r (_ <$> silent)), initializeSync_silent.
  cbn [P2PServer.initializeSync P2PServer.syncWithPeer P2PServer.registerPeer peers ledger].
  rewrite foldl_snoc.
  rewrite (replaceChain_eq peerChain (ledger n)).
  destruct ((length (getFullChain (ledger n)) <? length peerChain)%nat
            && validateChain peerChain); cbn [peers ledger snd]; done.
Qed.

(** *** Rolling back a kit *)

Lemma StronglySorted_reverse {A} (R : relation A) (l : list A) :
  StronglySorted R l → StronglySorted (flip R) (reverse l).
Proof.
  induction 1 as [|x l Hs IH Hall]; [constructor|].
  rewrite reverse_cons. apply StronglySorted_app_2.
  - intros y z Hy Hz. apply list_elem_of_singleton in Hz as ->.
    rewrite elem_of_reverse in Hy. rewrite Forall_forall in Hall. unfold flip.
    by apply Hall.
  - exact IH.
  - repeat constructor.
Qed.

Lemma sorted_files_unique (R : relation (N * Block)) (store : Store) (l1 l2 : list (N * Block)) :
  (∀ a b, R a b → R b a → a.1 = b.1) →
  l1 ≡ₚ map_to_list store → l2 ≡ₚ map_to_list store →
  StronglySorted R l1 → StronglySorted R l2 → l1 = l2.
Proof.
  intros Hanti H1 H2 Hs1 Hs2.
  apply (StronglySorted_unique_strong R); [|done|done|by rewrite H1, H2].
  intros [k1 b1] [k2 b2] Hin1 Hin2 Hab Hba.
  pose proof (Hanti _ _ Hab Hba) as Hk. cbn in Hk. subst k2.
  rewrite H1 in Hin1. rewrite H2 in Hin2.
  apply elem_of_map_to_list in Hin1, Hin2. congruence.
Qed.

Lemma descending_files (store : Store) :
  merge_sort Gateway.file_ge (map_to_list store)
  = reverse (merge_sort file_le (map_to_list store)).
Proof.
  apply (sorted_files_unique Gateway.file_ge store).
  - intros a b. unfold Gateway.file_ge. lia.
  - apply merge_sort_Permutation.
  - by rewrite reverse_Permutation, merge_sort_Permutation.
  - apply StronglySorted_merge_sort.
    + intros a b c. unfold Gateway.file_ge. lia.
    + intros a b. unfold Gateway.file_ge. lia.
  - apply (StronglySorted_reverse file_le).
    apply StronglySorted_merge_sort; first [apply file_le_trans | apply file_le_total].
Qed.

Lemma getFullChain_delete (store : Store) (k : N) :
  store_wf store →
  getFullChain (delete k store) = filter (fun b => index b ≠ k) (getFullChain store).
Proof.
  intros Hwf. unfold getFullChain.
  assert (merge_sort file_le (map_to_list (delete k store))
          = filter (fun f => f.1 ≠ k) (merge_sort file_le (map_to_list store))) as ->.
  { apply (sorted_files_unique file_le (delete k store)).
    - intros a b. unfold file_le. lia.
    - apply merge_sort_Permutation.
    - rewrite merge_sort_Permutation. apply NoDup_Permutation.
      + apply NoDup_filter, NoDup_map_to_list.
      + apply NoDup_map_to_list.
      + intros [k' b']. rewrite list_elem_of_filter, !elem_of_map_to_list.
        cbn. rewrite lookup_delete_Some.
        split; intros [H1 H2]; (split; [congruence|done]).
    - apply StronglySorted_merge_sort; first [apply file_le_trans | apply file_le_total].
    - apply StronglySorted_filter.
      apply StronglySorted_merge_sort; first [apply file_le_trans | apply file_le_total]. }
  set (files := merge_sort file_le (map_to_list store)).
  assert (∀ f, f ∈ files → index f.2 = f.1) as Hfiles.
  { intros [k' b'] Hin. unfold files in Hin. rewrite merge_sort_Permutation in Hin.
    apply elem_of_map_to_list in Hin. by apply Hwf. }
  clearbody files. induction files as [|f files IH]; [done|].
  rewrite fmap_cons, !filter_cons.
  rewrite (Hfiles f) by left.
  destruct (decide (f.1 ≠ k)).
  - rewrite fmap_cons. f_equal. apply IH. intros g Hg. apply Hfiles. by right.
  - apply IH. intros g Hg. apply Hfiles. by right.
Qed.

Lemma filter_increasing_snoc (chain earlier : list Block) (newest : Block) (P : Block → Prop)
    `{∀ b, Decision (P b)} :
  StronglySorted (fun a b => (index a < index b)%N) chain →
  filter P chain = earlier ++ [newest] →
  filter P (filter (fun b => index b ≠ index newest) chain) = earlier.
Proof.
  intros Hsorted Hf.
  assert (StronglySorted (fun a b => (index a < index b)%N) (earlier ++ [newest])) as Hs.
  { rewrite <- Hf. by apply StronglySorted_filter. }
  assert (filter P (filter (fun b => index b ≠ index newest) chain)
          = filter (fun b => index b ≠ index newest) (filter P chain)) as ->.
  { rewrite !list_filter_filter. apply list_filter_iff. tauto. }
  rewrite Hf, filter_app, filter_cons, decide_False by (intros ?; done).
  rewrite filter_nil, app_nil_r.
  assert (∀ b, b ∈ earlier → index b ≠ index newest) as Hall.
  { intros b Hb. assert (index b < index newest)%N; [|lia].
    apply (StronglySorted_app_1_elem_of _ _ _ b newest Hs Hb).
    by apply list_elem_of_singleton. }
  clear -Hall. induction earlier as [|b earlier IH]; [done|].
  rewrite filter_cons, decide_True by (apply Hall; left).
  f_equal. apply IH. intros b' Hb'. apply Hall. by right.
Qed.

Lemma filter_filter_within {A} (P Q : A → Prop) `{∀ x, Decision (P x)}
    `{∀ x, Decision (Q x)} (l : list A) :
  (∀ x, x ∈ l → P x → Q x) → filter P (filter Q l) = filter P l.
Proof.
  induction l as [|x l IH]; intros Hl; [done|].
  rewrite !filter_cons. destruct (decide (Q x)) as [Hq|Hq].
  - rewrite filter_cons. destruct (decide (P x)).
    + f_equal. apply IH. intros y Hy. apply Hl. by right.
    + apply IH. intros y Hy. apply Hl. by right.
  - destruct (decide (P x)) as [Hp|Hp].
    + exfalso. apply Hq, Hl; [left|done].
    + apply IH. intros y Hy. apply Hl. by right.
Qed.

(** X12. The rollback endpoint deletes exactly the newest record of the
    kit: the kit's history loses its last entry, every other block file
    stays, the histories of other kits are unchanged, and a kit without
    records is answered Not Found with nothing deleted. Nothing repairs the
    links of the blocks that followed the deleted one. *)
Theorem rollbackKit_removes_newest_record (kitID : string) (store : Store) :
  store_wf store → kitID ≠ EmptyString →
  let history kit chain := filter (fun b => Payload.ofKit kit (data b) = true) chain in
  (history kitID (getFullChain store) = [] →
   Gateway.rollbackKit kitID store = (RollbackNotFound, store))
  ∧ (∀ earlier newest,
       history kitID (getFullChain store) = earlier ++ [newest] →
       let store' := delete (index newest) store in
       Gateway.rollbackKit kitID store = (RollbackDeleted newest, store')
       ∧ getFullChain store'
         = filter (fun b => index b ≠ index newest) (getFullChain store)
       ∧ history kitID (getFullChain store') = earlier
       ∧ (∀ k, k ≠ index newest → store' !! k = store !! k)
       ∧ (∀ kit, kit ≠ kitID →
            history kit (getFullChain store') = history kit (getFullChain store))).
Proof.
  intros Hwf Hkit history.
  assert (∀ chain : list (N * Block),
            history kitID (snd <$> chain)
            = snd <$> filter (fun f => Payload.ofKit kitID (data f.2) = true) chain)
    as Hfmap.
  { intros chain. unfold history. induction chain as [|f chain IH]; [done|].
    rewrite fmap_cons, !filter_cons. destruct (decide _); [|done].
    by rewrite fmap_cons, IH. }
  assert (Gateway.rollbackKit kitID store
          = match last (filter (fun f => Payload.ofKit kitID (data f.2) = true)
                               (merge_sort file_le (map_to_list store))) with
            | None => (RollbackNotFound, store)
            | Some f => (RollbackDeleted f.2, delete f.1 store)
            end) as Hroll.
  { unfold Gateway.rollbackKit. apply String.eqb_neq in Hkit. rewrite Hkit.
    rewrite descending_files, filter_reverse, <- head_reverse.
    by destruct (reverse _). }
  split.
  - intros Hnone. unfold getFullChain in Hnone. rewrite Hfmap in Hnone.
    apply fmap_nil_inv in Hnone. by rewrite Hroll, Hnone.
  - intros earlier newest Hhist store'.
    pose proof Hhist as Hhist'. unfold getFullChain in Hhist'. rewrite Hfmap in Hhist'.
    assert (∃ k, last (filter (fun f => Payload.ofKit kitID (data f.2) = true)
                          (merge_sort file_le (map_to_list store))) = Some (k, newest))
      as [k Hlast].
    { apply (f_equal last) in Hhist'. rewrite last_snoc, fmap_last in Hhist'.
      destruct (last _) as [[k b]|]; [|done]. injection Hhist' as <-. by exists k. }
    assert (k = index newest) as ->.
    { apply last_Some_elem_of, list_elem_of_filter in Hlast as [_ Hin].
      rewrite merge_sort_Permutation in Hin. apply elem_of_map_to_list in Hin.
      symmetry. by apply Hwf. }
    pose proof (getFullChain_delete store (index newest) Hwf) as Hdel.
    fold store' in Hdel.
    split_and!.
    + by rewrite Hroll, Hlast.
    + exact Hdel.
    + rewrite Hdel. apply filter_increasing_snoc; [|done].
      by apply getFullChain_increasing.
    + intros k Hk. unfold store'. by rewrite lookup_delete_ne.
    + intros kit Hne. rewrite Hdel. unfold history.
      apply filter_filter_within.
      intros b Hb Hb' Hidx.
      assert (b = newest) as ->.
      { apply elem_of_getFullChain in Hb as [k1 Hk1].
        assert (newest ∈ getFullChain store) as Hn.
        { assert (newest ∈ earlier ++ [newest]) as Hin
            by (apply elem_of_app; right; by apply list_elem_of_singleton).
          rewrite <- Hhist in Hin. by apply list_elem_of_filter in Hin as [_ Hin]. }
        apply elem_of_getFullChain in Hn as [k2 Hk2].
        pose proof (Hwf _ _ Hk1). pose proof (Hwf _ _ Hk2). congruence. }
      assert (Payload.ofKit kitID (data newest) = true) as Hown.
      { assert (newest ∈ earlier ++ [newest]) as Hin
          by (apply elem_of_app; right; by apply list_elem_of_singleton).
        rewrite <- Hhist in Hin. by apply list_elem_of_filter in Hin as [Hin _]. }
      unfold Payload.ofKit in Hb', Hown.
      destruct (Payload.truthy (data newest)); [|done]. cbn [andb] in Hb', Hown.
      destruct (Payload.get "kitID" (data newest)) as [[| | |s| |]|]; try done.
      apply String.eqb_eq in Hb', Hown. congruence.
Qed.

Lemma rollbackKit_witness :
  let store := appendAll threeAppends ∅ in
  Gateway.rollbackKit "KIT-001" store = (RollbackDeleted block1, delete 1%N store)
  ∧ getFullChain (delete 1%N store) = [block0; block2]
  ∧ validateChain (getFullChain (delete 1%N store)) = false
  ∧ Server.ledgerKit "KIT-001" (delete 1%N store) = HistoryFound 1 [block0].
Proof.
  intros store.
  assert (store_wf store) as Hwf.
  { eapply holds_wf. exact (appendAll_holds threeAppends [] ∅ holds_empty). }
  assert (getFullChain store = [block0; block1; block2]) as Hchain
    by (vm_compute; reflexivity).
  assert (filter (fun b => Payload.ofKit "KIT-001" (data b) = true) (getFullChain store)
          = [block0] ++ [block1]) as Hhist.
  { rewrite Hchain. vm_compute. reflexivity. }
  destruct (rollbackKit_removes_newest_record "KIT-001" store Hwf ltac:(discriminate))
    as [_ Hsome].
  destruct (Hsome [block0] block1 Hhist) as (Hroll & Hread & _).
  change (index block1) with 1%N in Hroll, Hread.
  split; [exact Hroll|].
  assert (getFullChain (delete 1%N store) = [block0; block2]) as Hafter.
  { rewrite Hread, Hchain. vm_compute. reflexivity. }
  split; [exact Hafter|].
  split.
  - rewrite Hafter. vm_compute. reflexivity.
  - unfold Server.ledgerKit. rewrite Hafter. vm_compute. reflexivity.
Defined.

End ChainFacts.

(* ===================================================================== *)
(** * The market over whole runs                                          *)
(* ===================================================================== *)

Section MarketRuns.
Import JsNum Market Shares.

Lemma sellShares_open (now userId : string) (o : Outcome) (amount : num)
    (m : PredictionMarket) (p : Shares) :
  status m = OPEN → positions m !! userId = Some p → ltb (side o p) amount = false →
  Market.sellShares now userId o amount m
  = (Ok (sellReceipt now userId o amount m), afterSell userId o amount m).
Proof.
  intros Hopen Hp Hl.
  unfold Market.sellShares, Eff.bind, Eff.get, Eff.modify, Eff.ret, Eff.throw.
  rewrite Hopen. cbn [isOpen negb]. rewrite Hp, Hl. reflexivity.
Qed.

Lemma resolve_open (o : Outcome) (m : PredictionMarket) :
  status m = OPEN → Market.resolve o m = (Ok tt, set_resolution RESOLVED (Some o) m).
Proof.
  intros Hopen. unfold Market.resolve, Eff.bind, Eff.get, Eff.modify.
  by rewrite Hopen.
Qed.

Lemma resolve_not_open (o : Outcome) (m : PredictionMarket) :
  status m ≠ OPEN → Market.resolve o m = (Throw "Market already closed", m).
Proof.
  intros Hclosed. unfold Market.resolve, Eff.bind, Eff.get, Eff.throw.
  by destruct (status m).
Qed.

(** What the market methods leave behind, case by case. *)
Lemma buyShares_cases (now userId : string) (o : Outcome) (amount : num)
    (m : PredictionMarket) :
  snd (Market.buyShares now userId o amount m)
  = if isOpen (status m) then afterBuy userId o amount m else m.
Proof.
  destruct (status m) eqn:Hs; cbn [isOpen].
  - by rewrite buyShares_open.
  - rewrite buyShares_not_open; [done|congruence].
  - rewrite buyShares_not_open; [done|congruence].
Qed.

Lemma sellShares_cases (now userId : string) (o : Outcome) (amount : num)
    (m : PredictionMarket) :
  snd (Market.sellShares now userId o amount m) = m
  ∨ ∃ p, status m = OPEN ∧ positions m !! userId = Some p
         ∧ ltb (side o p) amount = false
         ∧ snd (Market.sellShares now userId o amount m) = afterSell userId o amount m.
Proof.
  destruct (status m) eqn:Hs.
  - destruct (positions m !! userId) as [p|] eqn:Hp.
    + destruct (ltb (side o p) amount) eqn:Hl.
      * left. rewrite sellShares_insufficient; [done|done|]. right. by exists p.
      * right. exists p. by rewrite (sellShares_open _ _ _ _ _ _ Hs Hp Hl).
    + left. rewrite sellShares_insufficient; [done|done|by left].
  - left. rewrite sellShares_not_open; [done|congruence].
  - left. rewrite sellShares_not_open; [done|congruence].
Qed.

Lemma resolve_cases (o : Outcome) (m : PredictionMarket) :
  snd (Market.resolve o m)
  = if isOpen (status m) then set_resolution RESOLVED (Some o) m else m.
Proof.
  destruct (status m) eqn:Hs; cbn [isOpen].
  - by rewrite resolve_open.
  - rewrite resolve_not_open; [done|congruence].
  - rewrite resolve_not_open; [done|congruence].
Qed.

(** *** The market component of a world *)

Lemma keeps_market_onManager {A} (P : PredictionMarket → Prop) (c : M ShareManager A) :
  keeps (fun w => P (market w)) (onManager c).
Proof. intros w Hw. unfold onManager, Eff.zoom. by destruct (c (manager w)). Qed.

Ltac keeps_market P :=
  repeat first
    [ apply keeps_ret | apply keeps_throw | apply keeps_get
    | apply (keeps_market_onManager P)
    | apply keeps_when
    | apply keeps_bind; [|intros ?]
    | progress cbv zeta ].

Lemma Shares_buyShares_market (now userId : string) (o : Outcome) (amount : num) (w : World) :
  market (snd (Shares.buyShares now userId o amount w))
  = snd (Market.buyShares now userId o amount (market w)).
Proof.
  destruct w as [sm mk]. cbn [market].
  unfold Shares.buyShares. rewrite bind_get. cbn [manager].
  set (rest := fun transaction : Transaction => Eff.bind _ _).
  assert (∀ sm', market (snd (Eff.bind (onMarket (Market.buyShares now userId o amount)) rest
                               (mkWorld sm' mk)))
                 = snd (Market.buyShares now userId o amount mk)) as Hgo.
  { intros sm'. destruct (Market.buyShares now userId o amount mk) as [[tx|msg] mk'] eqn:Hbuy.
    - rewrite (bind_Ok _ _ _ _ _ (onMarket_run _ sm' _ _ _ Hbuy)). cbn [snd].
      assert (keeps (fun w => market w = mk') (rest tx)) as Hk.
      { unfold rest. keeps_market (fun m : PredictionMarket => m = mk'). }
      by apply (Hk (mkWorld sm' mk')).
    - by rewrite (bind_Throw _ _ _ _ _ (onMarket_run _ sm' _ _ _ Hbuy)). }
  destruct (userBalances sm !! userId) as [b|] eqn:Hb.
  - rewrite (hasBalance_true _ _ _ Hb). cbn [negb Eff.when]. rewrite bind_ret. apply Hgo.
  - rewrite (hasBalance_false _ _ Hb). cbn [negb Eff.when].
    rewrite (bind_Ok _ _ _ _ _
               (onManager_run _ _ _ _ _ (initializeUser_new _ defaultCredits _ Hb))).
    apply Hgo.
Qed.

Lemma Shares_sellShares_market (now userId : string) (o : Outcome) (amount : num) (w : World) :
  market (snd (Shares.sellShares now userId o amount w))
  = if hasBalance userId (manager w)
    then snd (Market.sellShares now userId o amount (market w))
    else market w.
Proof.
  destruct w as [sm mk]. cbn [market manager].
  unfold Shares.sellShares. rewrite bind_get. cbn [manager].
  destruct (hasBalance userId sm); cbn [negb]; [|done].
  set (rest := fun transaction : Transaction => Eff.bind _ _).
  destruct (Market.sellShares now userId o amount mk) as [[tx|msg] mk'] eqn:Hsell.
  - rewrite (bind_Ok _ _ _ _ _ (onMarket_run _ sm _ _ _ Hsell)). cbn [snd].
    assert (keeps (fun w => market w = mk') (rest tx)) as Hk.
    { unfold rest. keeps_market (fun m : PredictionMarket => m = mk'). }
    by apply (Hk (mkWorld sm mk')).
  - by rewrite (bind_Throw _ _ _ _ _ (onMarket_run _ sm _ _ _ Hsell)).
Qed.

(** A property of the market that the three methods of the market keep
    for the amounts in [ok] is kept by every call a client can make. *)
Lemma market_invariant_runTrade (P : PredictionMarket → Prop) (ok : num → Prop) :
  (∀ now u o a m, ok a → P m → P (snd (Market.buyShares now u o a m))) →
  (∀ now u o a m, ok a → P m → P (snd (Market.sellShares now u o a m))) →
  (∀ o m, P m → P (snd (Market.resolve o m))) →
  ∀ w call, (∀ a, amountOf call = Some a → ok a) →
            P (market w) → P (market (runTrade w call)).
Proof.
  intros Hbuy Hsell Hres w call Hok Hw.
  destruct call as [u c|u|now u o a|now u o a|u|now u o a|now u o a|o]; cbn [runTrade].
  - by apply (keeps_market_onManager P).
  - by apply (keeps_market_onManager P).
  - rewrite Shares_buyShares_market. apply Hbuy; [by apply Hok|done].
  - rewrite Shares_sellShares_market. destruct (hasBalance u (manager w)); [|done].
    apply Hsell; [by apply Hok|done].
  - by apply (keeps_market_onManager P).
  - unfold onMarket, Eff.zoom.
    pose proof (Hbuy now u o a (market w) (Hok _ eq_refl) Hw) as H.
    by destruct (Market.buyShares now u o a (market w)).
  - unfold onMarket, Eff.zoom.
    pose proof (Hsell now u o a (market w) (Hok _ eq_refl) Hw) as H.
    by destruct (Market.sellShares now u o a (market w)).
  - unfold onMarket, Eff.zoom.
    pose proof (Hres o (market w) Hw) as H.
    by destruct (Market.resolve o (market w)).
Qed.

Lemma market_invariant_run (P : PredictionMarket → Prop) (ok : num → Prop) :
  (∀ now u o a m, ok a → P m → P (snd (Market.buyShares now u o a m))) →
  (∀ now u o a m, ok a → P m → P (snd (Market.sellShares now u o a m))) →
  (∀ o m, P m → P (snd (Market.resolve o m))) →
  ∀ calls w, Forall (fun call => ∀ a, amountOf call = Some a → ok a) calls →
             P (market w) → P (market (foldl runTrade w calls)).
Proof.
  intros Hbuy Hsell Hres calls. induction calls as [|call calls IH]; intros w Hok Hw.
  - done.
  - cbn [foldl]. apply Forall_cons in Hok as [Hcall Hok].
    apply IH; [done|]. by apply (market_invariant_runTrade P ok).
Qed.

(** *** The life of a market *)

(** X13. A market is open with no winning outcome from its creation until
    it is resolved, and resolved with a winning outcome from then on:
    whatever calls are made on it, directly or through the share manager,
    its status is never CLOSED, the winning outcome is set exactly when the
    status is RESOLVED, and its identity (id, question, kit, deadline,
    creator, creation time) stays what the constructor was given. *)
Theorem market_lifecycle (calls : list TradeCall) (sm : ShareManager)
    (now mid q kit dl creator : string) :
  let m := market (foldl runTrade (mkWorld sm (Market.create now mid q kit dl creator)) calls) in
  ((status m = OPEN ∧ winningOutcome m = None)
   ∨ (status m = RESOLVED ∧ ∃ o, winningOutcome m = Some o))
  ∧ status m ≠ CLOSED
  ∧ marketID m = mid ∧ question m = q ∧ kitID m = kit ∧ deadline m = dl
  ∧ createdBy m = creator ∧ createdAt m = now.
Proof.
  intros m. subst m.
  set (P := fun m => lifecycle m
                     ∧ marketID m = mid ∧ question m = q ∧ kitID m = kit ∧ deadline m = dl
                     ∧ createdBy m = creator ∧ createdAt m = now).
  assert (P (market (foldl runTrade (mkWorld sm (Market.create now mid q kit dl creator))
                           calls))) as [Hlife Hid].
  { apply (market_invariant_run P (fun _ => True)).
    - intros now' u o a m _ Hm. rewrite buyShares_cases.
      destruct (isOpen (status m)); [|done]. exact Hm.
    - intros now' u o a m _ Hm.
      destruct (sellShares_cases now' u o a m) as [->|(p & _ & _ & _ & ->)]; [done|].
      exact Hm.
    - intros o m Hm. rewrite resolve_cases.
      destruct (isOpen (status m)); [|done].
      destruct Hm as [_ Hid]. split; [|exact Hid]. right. cbn. eauto.
    - apply Forall_forall. done.
    - split; [by left|]. done. }
  split; [exact Hlife|]. split; [|exact Hid].
  destruct Hlife as [[-> _]|[-> _]]; done.
Qed.

(** X14. Once a market is not open any more, nothing changes it: [buyShares]
    and [sellShares] throw "Market is not open for trading", a second
    [resolve] throws "Market already closed", each leaving the market as it
    was, and the market is the same after any run of calls, direct or
    through the share manager. The winning outcome cannot be revised. *)
Theorem resolved_market_is_frozen (w : World) (calls : list TradeCall)
    (now userId : string) (o : Outcome) (amount : num) :
  status (market w) ≠ OPEN →
  Market.buyShares now userId o amount (market w)
  = (Throw "Market is not open for trading", market w)
  ∧ Market.sellShares now userId o amount (market w)
    = (Throw "Market is not open for trading", market w)
  ∧ Market.resolve o (market w) = (Throw "Market already closed", market w)
  ∧ market (foldl runTrade w calls) = market w.
Proof.
  intros Hclosed. split_and!.
  - by apply buyShares_not_open.
  - by apply sellShares_not_open.
  - by apply resolve_not_open.
  - apply (market_invariant_run (fun m => m = market w) (fun _ => True)).
    + intros now' u o' a m _ ->. by rewrite buyShares_not_open.
    + intros now' u o' a m _ ->. by rewrite sellShares_not_open.
    + intros o' m ->. by rewrite resolve_not_open.
    + apply Forall_forall. done.
    + done.
Qed.

Lemma resolved_market_is_frozen_witness :
  let w := mkWorld (manager tradedWorld) resolvedMarket in
  winningOutcome resolvedMarket = Some YES
  ∧ Market.resolve NO resolvedMarket = (Throw "Market already closed", resolvedMarket)
  ∧ market (foldl runTrade w
              [CallMarketResolve NO;
               CallBuy "2026-02-05T08:00:00.000Z" "user_carol" NO (of_Z 10);
               CallSell "2026-02-05T09:00:00.000Z" "user_alice" YES (of_Z 200)])
    = resolvedMarket.
Proof.
  intros w.
  assert (status (market w) ≠ OPEN) as Hclosed by (vm_compute; discriminate).
  destruct (resolved_market_is_frozen w
              [CallMarketResolve NO;
               CallBuy "2026-02-05T08:00:00.000Z" "user_carol" NO (of_Z 10);
               CallSell "2026-02-05T09:00:00.000Z" "user_alice" YES (of_Z 200)]
              "2026-02-05T08:00:00.000Z" "user_carol" NO (of_Z 10) Hclosed)
    as (_ & _ & Hres & Hrun).
  split; [vm_compute; reflexivity|]. split; [exact Hres|exact Hrun].
Defined.

(** *** Conservation of shares *)









(** *** Prices along a round trip *)





(** *** Implied probabilities *)

(** X17. With pools that are not negative, [getProbabilities] returns
    percentages: when some shares are left in the pools the YES value is a
    whole number between 0 and 100 and the NO value is 100 minus it; when
    both pools are empty both values are [NaN]. *)
Theorem getProbabilities_are_percentages (m : PredictionMarket) (y n : Q) :
  outcomes m = mkShares (Fin y) (Fin n) → (0 <= y)%Q → (0 <= n)%Q →
  ((0 < y + n)%Q →
   ∃ k : Z, 0 <= k <= 100
            ∧ yes (getProbabilities m) = Fin (inject_Z k)
            ∧ ∃ q, no (getProbabilities m) = Fin q ∧ (q == inject_Z (100 - k))%Q)
  ∧ ((y + n == 0)%Q → getProbabilities m = mkShares NaN NaN).
Proof.
  intros Hm Hy Hn. split.
  - intros Hpos.
    destruct (getProbabilities_Fin m y n Hm) as (x & Hyes & Hx); [lra|].
    assert (0 <= x <= 100)%Q as [Hx0 Hx100].
    { rewrite Hx. split.
      - apply Qmult_le_0_compat; [|done]. apply Qle_shift_div_l; [done|]. lra.
      - assert (n / (y + n) <= 1)%Q; [|lra].
        apply Qle_shift_div_r; [done|]. lra. }
    exists (Qfloor (x + (1 # 2))). split_and!.
    + assert (0 <= x + (1 # 2))%Q as H0 by lra.
      apply Qfloor_resp_le in H0. done.
    + assert (x + (1 # 2) <= 100 + (1 # 2))%Q as H1 by lra.
      apply Qfloor_resp_le in H1. done.
    + exact Hyes.
    + unfold getProbabilities in *. cbn [yes no] in *. rewrite Hyes. unfold of_Z.
      destruct (sub_Fin (inject_Z 100) (inject_Z (Qfloor (x + (1 # 2))))) as (q & -> & Hq).
      exists q. split; [done|]. rewrite Hq. unfold Zminus.
      rewrite inject_Z_plus, inject_Z_opp. reflexivity.
  - intros Hzero. unfold getProbabilities. rewrite Hm. cbn [yes no].
    destruct (add_Fin y n) as (t & -> & Ht).
    assert (n == 0)%Q as Hn0 by lra.
    unfold div. rewrite (proj2 (Qeq_bool_iff t 0)) by (by rewrite Ht).
    assert (sgn (Fin n) = 0) as ->.
    { unfold sgn. unfold Qeq in Hn0. cbn in Hn0. rewrite Z.mul_1_r in Hn0.
      by rewrite Hn0. }
    reflexivity.
Qed.

Lemma getProbabilities_witness :
  (∃ k : Z, 0 <= k <= 100
            ∧ yes (getProbabilities freshMarket) = Fin (inject_Z k)
            ∧ ∃ q, no (getProbabilities freshMarket) = Fin q ∧ (q == inject_Z (100 - k))%Q)
  ∧ getProbabilities freshMarket = mkShares (of_Z 50) (of_Z 50).
Proof.
  split; [|vm_compute; reflexivity].
  apply (proj1 (getProbabilities_are_percentages freshMarket 1000 1000 eq_refl
                  ltac:(vm_compute; discriminate) ltac:(vm_compute; discriminate))).
  reflexivity.
Defined.

End MarketRuns.

(* ===================================================================== *)
(** * The position ledger over whole runs                                 *)
(* ===================================================================== *)

Section ManagerRuns.
Import JsNum Market Shares.

Lemma bind_Ok_inv {S A B} (c : M S A) (k : A → M S B) (s s' : S) (b : B) :
  Eff.bind c k s = (Ok b, s') → ∃ a s1, c s = (Ok a, s1) ∧ k a s1 = (Ok b, s').
Proof.
  unfold Eff.bind. destruct (c s) as [[a|msg] s1]; [|done]. intros H. by exists a, s1.
Qed.

Lemma onManager_inv {A} (c : M ShareManager A) (w w' : World) (r : result A) :
  onManager c w = (r, w') → c (manager w) = (r, manager w') ∧ market w' = market w.
Proof.
  unfold onManager, Eff.zoom. destruct (c (manager w)) as [r' sm'].
  intros [= <- <-]. done.
Qed.

Lemma onMarket_inv {A} (c : M PredictionMarket A) (w w' : World) (r : result A) :
  onMarket c w = (r, w') → c (market w) = (r, market w') ∧ manager w' = manager w.
Proof.
  unfold onMarket, Eff.zoom. destruct (c (market w)) as [r' mk'].
  intros [= <- <-]. done.
Qed.

Lemma updateStats_Ok_inv (userId : string) (f : Stats → Stats) (sm sm' : ShareManager)
    (x : unit) :
  updateStats userId f sm = (Ok x, sm') →
  ∃ st, userStats sm !! userId = Some st
        ∧ sm' = mkShareManager (userBalances sm) (<[userId := f st]> (userStats sm)).
Proof.
  unfold updateStats, Eff.bind, Eff.get, Eff.modify, Eff.throw.
  destruct (userStats sm !! userId) as [st|]; [|done].
  intros [= <-]. by exists st.
Qed.

Lemma sellShares_Ok_inv (now userId : string) (o : Outcome) (amount : num)
    (m m' : PredictionMarket) (tx : Transaction) :
  Market.sellShares now userId o amount m = (Ok tx, m') →
  tx_cost tx = None ∧ tx_payout tx = Some (calculatePrice o amount m).
Proof.
  unfold Market.sellShares, Eff.bind, Eff.get, Eff.modify, Eff.ret, Eff.throw.
  destruct (negb (isOpen (status m))); [done|].
  destruct (match positions m !! userId with
            | Some p => ltb (side o p) amount
            | None => true
            end); [done|].
  intros [= <- _]. done.
Qed.

(** X19. Every sell that goes through the share manager turns the profit
    statistic of the seller into [NaN]: the profit is increased by the
    payout minus the [cost] of the transaction, and the transaction of a
    sell has no [cost]. *)
Theorem sellShares_makes_profit_NaN
    (now userId : string) (o : Outcome) (amount : num) (w w' : World) (tx : Transaction) :
  Shares.sellShares now userId o amount w = (Ok tx, w') →
  tx_cost tx = None
  ∧ ∃ st', userStats (manager w') !! userId = Some st' ∧ profit st' = NaN.
Proof.
  unfold Shares.sellShares. rewrite bind_get.
  destruct (negb (hasBalance userId (manager w))); [done|].
  intros H.
  apply bind_Ok_inv in H as (tx' & w1 & Hsell & H).
  apply onMarket_inv in Hsell as [Hsell _].
  apply sellShares_Ok_inv in Hsell as [Hcost Hpayout].
  apply bind_Ok_inv in H as (x2 & w2 & _ & H).
  rewrite bind_get in H.
  apply bind_Ok_inv in H as (x3 & w3 & _ & H).
  apply bind_Ok_inv in H as (x4 & w4 & _ & H).
  apply bind_Ok_inv in H as (x5 & w5 & Hlast & H).
  injection H as <- <-.
  apply onManager_inv in Hlast as [Hlast _].
  apply updateStats_Ok_inv in Hlast as (st & _ & ->).
  split; [exact Hcost|]. cbn [userStats]. rewrite lookup_insert_eq.
  eexists. split; [reflexivity|]. cbn [profit]. rewrite Hcost. cbn [to_number default].
  unfold sub, neg, add. by destruct (profit st), (to_number (tx_payout tx')).
Qed.

Lemma sellShares_profit_witness :
  let w := snd (Shares.buyShares "2026-02-02T09:00:00.000Z" "user_alice" YES (of_Z 200)
                                 (mkWorld Shares.create freshMarket)) in
  ∃ tx w',
    Shares.sellShares "2026-02-02T09:05:00.000Z" "user_alice" YES (of_Z 200) w = (Ok tx, w')
    ∧ tx_payout tx = Some (of_Z 250)
    ∧ tx_cost tx = None
    ∧ (∃ st', userStats (manager w') !! "user_alice" = Some st' ∧ profit st' = NaN)
    ∧ credits <$> userBalances (manager w') !! "user_alice" = Some (of_Z 10050).
Proof.
  intros w.
  destruct (Shares.sellShares "2026-02-02T09:05:00.000Z" "user_alice" YES (of_Z 200) w)
    as [[tx|msg] w'] eqn:Hsell.
  - exists tx, w'. split; [reflexivity|].
    pose proof (sellShares_makes_profit_NaN _ _ _ _ _ _ _ Hsell) as [Hcost Hprofit].
    assert (tx = match fst (Shares.sellShares "2026-02-02T09:05:00.000Z" "user_alice" YES
                                               (of_Z 200) w) with
                 | Ok t => t
                 | Throw _ => tx
                 end) as Htx by (by rewrite Hsell).
    assert (w' = snd (Shares.sellShares "2026-02-02T09:05:00.000Z" "user_alice" YES
                                        (of_Z 200) w)) as Hw' by (by rewrite Hsell).
    split; [rewrite Htx; vm_compute; reflexivity|].
    split; [exact Hcost|]. split; [exact Hprofit|].
    rewrite Hw'. vm_compute. reflexivity.
  - exfalso. vm_compute in Hsell. discriminate.
Defined.

(** *** The counters of the statistics *)

Lemma keeps_manager_onManager {A} (I : ShareManager → Prop) (c : M ShareManager A) :
  keeps I c → keeps (fun w => I (manager w)) (onManager c).
Proof.
  intros Hc w Hw. unfold onManager, Eff.zoom.
  specialize (Hc (manager w) Hw). by destruct (c (manager w)).
Qed.

Lemma keeps_manager_onMarket {A} (I : ShareManager → Prop) (c : M PredictionMarket A) :
  keeps (fun w => I (manager w)) (onMarket c).
Proof. intros w Hw. unfold onMarket, Eff.zoom. by destruct (c (market w)). Qed.

Lemma counters_updateBalance (userId : string) (f : Balance → Balance) :
  keeps all_counters_ok (updateBalance userId f).
Proof.
  intros sm Hsm. unfold updateBalance, Eff.bind, Eff.get, Eff.modify, Eff.throw.
  by destruct (userBalances sm !! userId).
Qed.

Lemma counters_updateHolding (userId mid : string) (f : Shares → Shares) :
  keeps all_counters_ok (updateHolding userId mid f).
Proof.
  intros sm Hsm. unfold updateHolding. rewrite bind_get.
  destruct (userBalances sm !! userId) as [b|]; [|done].
  destruct (holdings b !! mid); [|done]. by apply counters_updateBalance.
Qed.

Lemma counters_updateStats (userId : string) (f : Stats → Stats) :
  (∀ st, counters_ok st → counters_ok (f st)) →
  keeps all_counters_ok (updateStats userId f).
Proof.
  intros Hf sm Hsm. unfold updateStats, Eff.bind, Eff.get, Eff.modify, Eff.throw.
  destruct (userStats sm !! userId) as [st|] eqn:Hst; [|done].
  cbn [snd]. intros u st'. cbn [userStats]. rewrite lookup_insert.
  case_decide; [intros [= <-]; apply Hf; by eapply Hsm|by apply Hsm].
Qed.

Lemma counters_initializeUser (userId : string) (c : num) :
  keeps all_counters_ok (initializeUser userId c).
Proof.
  intros sm Hsm. unfold initializeUser. rewrite bind_get.
  destruct (negb (hasBalance userId sm)); cbn [Eff.when]; [|done].
  unfold Eff.modify. cbn [snd]. intros u st. cbn [userStats]. rewrite lookup_insert.
  case_decide; [intros [= <-]; by compute|by apply Hsm].
Qed.

Ltac keeps_counters :=
  repeat first
    [ apply keeps_ret | apply keeps_throw | apply keeps_get
    | apply (keeps_manager_onMarket all_counters_ok)
    | apply (keeps_manager_onManager all_counters_ok)
    | apply counters_updateBalance | apply counters_updateHolding
    | apply counters_initializeUser
    | apply counters_updateStats; intros ? [[? ?] ?]; unfold counters_ok; cbn; lia
    | apply keeps_when
    | apply keeps_bind; [|intros ?]
    | progress cbv zeta
    | match goal with
      | |- keeps _ (if ?b then _ else _) => destruct b
      | |- keeps _ (match ?x with _ => _ end) => destruct x
      end ].

Lemma counters_resolvePosition (userId : string) (m : PredictionMarket) :
  keeps all_counters_ok (resolvePosition userId m).
Proof.
  intros sm Hsm. unfold resolvePosition. rewrite bind_get.
  destruct (userBalances sm !! userId) as [b|] eqn:Hb; [|done].
  destruct (holdings b !! marketID m) as [h|]; [|done].
  set (won := gtb (to_number (winningSharesOf m h)) (of_Z 0)).
  set (lost := gtb (losingSharesOf m h) (of_Z 0)).
  destruct (userStats sm !! userId) as [st|] eqn:Hst.
  - pose proof (Hsm _ _ Hst) as [[Hc0 Hct] Ht].
    assert (∀ sm1, all_counters_ok sm1 →
                   all_counters_ok
                     (snd (updateBalance userId
                             (fun b' => mkBalance (credits b') (delete (marketID m) (holdings b')))
                             sm1))) as Hlast.
    { intros sm1 H1. by apply counters_updateBalance. }
    destruct won.
    + cbn [Eff.when orb].
      rewrite (bind_Ok _ _ _ _ _ (updateStats_Some _ _ _ _ Hst)).
      match goal with
      | |- context [Eff.bind (updateStats userId ?f) _
                             (mkShareManager ?bs (<[userId := ?st1]> ?ss))] =>
          rewrite (bind_Ok _ _ _ _ _
                     (updateStats_Some userId f
                        (mkShareManager bs (<[userId := st1]> ss)) st1
                        (lookup_insert_eq ss userId st1)))
      end.
      apply Hlast. intros u st'. cbn [userStats]. rewrite insert_insert_eq, lookup_insert.
      case_decide; [|by apply Hsm]. intros [= <-]. unfold counters_ok. cbn. lia.
    + cbn [Eff.when orb]. rewrite bind_ret. destruct lost; cbn [Eff.when].
      * rewrite (bind_Ok _ _ _ _ _ (updateStats_Some _ _ _ _ Hst)).
        apply Hlast. intros u st'. cbn [userStats]. rewrite lookup_insert.
        case_decide; [|by apply Hsm]. intros [= <-]. unfold counters_ok. cbn. lia.
      * rewrite bind_ret. by apply Hlast.
  - assert (∀ f, updateStats userId f sm = (Throw typeError, sm)) as Hthrow.
    { intros f. unfold updateStats, Eff.bind, Eff.get, Eff.throw. by rewrite Hst. }
    destruct won; cbn [Eff.when orb].
    + by rewrite (bind_Throw _ _ _ _ _ (Hthrow _)).
    + rewrite bind_ret. destruct lost; cbn [Eff.when].
      * by rewrite (bind_Throw _ _ _ _ _ (Hthrow _)).
      * rewrite bind_ret. by apply counters_updateBalance.
Qed.

Lemma counters_runTrade (w : World) (call : TradeCall) :
  all_counters_ok (manager w) → all_counters_ok (manager (runTrade w call)).
Proof.
  intros Hw. destruct call; cbn [runTrade].
  - by apply (keeps_manager_onManager _ _ (counters_initializeUser _ _)).
  - revert w Hw. change (keeps (fun w => all_counters_ok (manager w))
                               (onManager (getBalance userId))).
    unfold getBalance. keeps_counters.
  - revert w Hw. change (keeps (fun w => all_counters_ok (manager w))
                               (Shares.buyShares now userId outcome amount)).
    unfold Shares.buyShares. keeps_counters.
  - revert w Hw. change (keeps (fun w => all_counters_ok (manager w))
                               (Shares.sellShares now userId outcome amount)).
    unfold Shares.sellShares. keeps_counters.
  - by apply (keeps_manager_onManager _ _ (counters_resolvePosition _ _)).
  - by apply (keeps_manager_onMarket all_counters_ok).
  - by apply (keeps_manager_onMarket all_counters_ok).
  - by apply (keeps_manager_onMarket all_counters_ok).
Qed.

(** X20. The counters of the statistics stay consistent: after any run of
    calls on a new share manager, whether the calls returned or threw, no
    participant has more correct predictions than predictions, and no
    counter is negative. *)
Theorem counters_stay_consistent (calls : list TradeCall) (mk : PredictionMarket)
    (userId : string) (st : Stats) :
  userStats (manager (foldl runTrade (mkWorld Shares.create mk) calls)) !! userId = Some st →
  0 <= correctPredictions st <= totalPredictions st ∧ 0 <= totalTrades st.
Proof.
  revert userId st.
  induction calls as [|call calls IH] using rev_ind.
  - intros u st' Hu. cbn [foldl manager Shares.create userStats] in Hu.
    by rewrite lookup_empty in Hu.
  - rewrite foldl_app. cbn [foldl]. by apply counters_runTrade.
Qed.

Lemma counters_stay_consistent_witness :
  userStats (manager (foldl runTrade (mkWorld Shares.create freshMarket) settledTrades))
    !! "user_alice" = Some (mkStats 1 1 (of_Z 0) 1)
  ∧ 0 <= correctPredictions (mkStats 1 1 (of_Z 0) 1)
       <= totalPredictions (mkStats 1 1 (of_Z 0) 1)
  ∧ 0 <= totalTrades (mkStats 1 1 (of_Z 0) 1).
Proof.
  assert (userStats (manager (foldl runTrade (mkWorld Shares.create freshMarket)
                                    settledTrades))
            !! "user_alice" = Some (mkStats 1 1 (of_Z 0) 1)) as Hl
    by (vm_compute; reflexivity).
  split; [exact Hl|].
  exact (counters_stay_consistent settledTrades freshMarket "user_alice"
           (mkStats 1 1 (of_Z 0) 1) Hl).
Defined.

(** *** Reading an account *)


(** *** Resolving a market for everybody *)

(** The loop of the endpoint on a manager, the market being resolved. *)
Lemma forEach_resolvePosition (keys : list string) (m : PredictionMarket) (o : Outcome)
    (sm : ShareManager) :
  manager_wf sm → winningOutcome m = Some o →
  ∃ sm',
    MarketApi.forEach keys
      (fun userId => Eff.bind Eff.get (fun w =>
         onManager (resolvePosition userId (market w)))) (mkWorld sm m)
    = (Ok tt, mkWorld sm' m)
    ∧ manager_wf sm'
    ∧ (∀ u, userBalances sm' !! u
            = (if bool_decide (u ∈ keys) then closeOut (marketID m) <$> userBalances sm !! u
               else userBalances sm !! u))
    ∧ (∀ u, userStats sm' !! u
            = (if bool_decide (u ∈ keys)
               then match held sm u (marketID m) with
                    | Some h => settle o h <$> userStats sm !! u
                    | None => userStats sm !! u
                    end
               else userStats sm !! u)).
Proof.
  intros Hwf Hwin. revert sm Hwf. induction keys as [|k keys IH]; intros sm Hwf.
  - exists sm. cbn [MarketApi.forEach]. split_and!; try done.
  - destruct (resolvePosition_effect k m o sm Hwf Hwin)
      as (sm1 & Hrun & Hstats & Hheld & Hbal & Hnobal & Hother & _).
    assert (manager_wf sm1) as Hwf1.
    { pose proof (keeps_resolvePosition k m sm Hwf) as H. by rewrite Hrun in H. }
    destruct (IH sm1 Hwf1) as (sm' & Hloop & Hwf' & Hbal' & Hstats').
    exists sm'. cbn [MarketApi.forEach].
    rewrite (bind_Ok _ _ (mkWorld sm m) (mkWorld sm1 m) tt).
    2:{ rewrite bind_get. cbn [market]. by apply onManager_run. }
    split; [exact Hloop|]. split; [exact Hwf'|].
    assert (∀ u, userBalances sm1 !! u
                 = if decide (u = k) then closeOut (marketID m) <$> userBalances sm !! u
                   else userBalances sm !! u) as Hbal1.
    { intros u. destruct (decide (u = k)) as [->|Hne]; [|by apply Hother].
      destruct (userBalances sm !! k) as [b|] eqn:Hb; [by apply Hbal|by apply Hnobal]. }
    assert (∀ u, held sm1 u (marketID m)
                 = if decide (u = k) then None else held sm u (marketID m)) as Hheld1.
    { intros u. destruct (decide (u = k)) as [->|Hne]; [done|].
      unfold held. by rewrite (proj1 (Hother u Hne)). }
    split.
    + intros u. rewrite Hbal'. rewrite Hbal1.
      destruct (decide (u = k)) as [->|Hne].
      * rewrite (bool_decide_eq_true_2 (k ∈ k :: keys)) by left.
        case_bool_decide; [|done].
        destruct (userBalances sm !! k) as [b|]; [|done]. cbn.
        unfold closeOut. cbn. by rewrite delete_delete_eq.
      * case_bool_decide as Hin.
        -- rewrite bool_decide_eq_true_2 by (by right). done.
        -- rewrite bool_decide_eq_false_2; [done|].
           intros [?|?]%elem_of_cons; done.
    + intros u. rewrite Hstats'. rewrite Hheld1.
      destruct (decide (u = k)) as [->|Hne].
      * rewrite (bool_decide_eq_true_2 (k ∈ k :: keys)) by left.
        rewrite Hstats. by case_bool_decide.
      * rewrite (proj2 (Hother u Hne)). case_bool_decide as Hin.
        -- rewrite bool_decide_eq_true_2 by (by right). done.
        -- rewrite bool_decide_eq_false_2; [done|].
           intros [?|?]%elem_of_cons; done.
Qed.

(** X22. The resolve endpoint settles every account exactly once and pays
    nobody: on an open market it records the outcome, removes the holdings
    entry of that market from every account and counts the prediction of
    every participant who held shares (correct when they held winning
    shares), while the credits of every account stay what they were. A
    second request is refused with "Market already closed" and changes
    nothing; an outcome other than YES or NO is refused before anything is
    touched. *)
Theorem resolveMarket_settles_everyone_once
    (keys : list string) (outcome : string) (o : Outcome) (w : World) :
  manager_wf (manager w) →
  status (market w) = OPEN →
  MarketApi.outcomeOf outcome = Some o →
  (∀ u, is_Some (userBalances (manager w) !! u) → u ∈ keys) →
  ∃ w',
    MarketApi.resolveMarket keys outcome w = (Ok tt, w')
    ∧ market w' = set_resolution RESOLVED (Some o) (market w)
    ∧ (∀ u, userBalances (manager w') !! u
            = closeOut (marketID (market w)) <$> userBalances (manager w) !! u)
    ∧ (∀ u, credits <$> userBalances (manager w') !! u
            = credits <$> userBalances (manager w) !! u)
    ∧ (∀ u, held (manager w') u (marketID (market w)) = None)
    ∧ (∀ u, userStats (manager w') !! u
            = match held (manager w) u (marketID (market w)) with
              | Some h => settle o h <$> userStats (manager w) !! u
              | None => userStats (manager w) !! u
              end)
    ∧ (∀ outcome', is_Some (MarketApi.outcomeOf outcome') →
         MarketApi.resolveMarket keys outcome' w' = (Throw "Market already closed", w'))
    ∧ (∀ outcome', MarketApi.outcomeOf outcome' = None →
         MarketApi.resolveMarket keys outcome' w
         = (Throw "Invalid outcome. Must be YES or NO", w)).
Proof.
  intros Hwf Hopen Hout Hkeys. destruct w as [sm mk]. cbn [manager market] in *.
  set (mk' := set_resolution RESOLVED (Some o) mk).
  destruct (forEach_resolvePosition keys mk' o sm Hwf eq_refl)
    as (sm' & Hloop & Hwf' & Hbal & Hstats).
  change (marketID mk') with (marketID mk) in *.
  assert (∀ u, userBalances sm' !! u = closeOut (marketID mk) <$> userBalances sm !! u)
    as Hbal'.
  { intros u. rewrite Hbal. case_bool_decide as Hin; [done|].
    destruct (userBalances sm !! u) as [b|] eqn:Hb; [|done].
    exfalso. apply Hin, Hkeys. by rewrite Hb. }
  exists (mkWorld sm' mk'). cbn [manager market]. split_and!.
  - unfold MarketApi.resolveMarket. rewrite Hout.
    rewrite (bind_Ok _ _ _ _ _ (onMarket_run _ sm _ _ _ (resolve_open o mk Hopen))).
    exact Hloop.
  - done.
  - exact Hbal'.
  - intros u. rewrite Hbal'. by destruct (userBalances sm !! u).
  - intros u. unfold held. rewrite Hbal'.
    destruct (userBalances sm !! u) as [b|]; [|done]. cbn.
    apply lookup_delete_eq.
  - intros u. rewrite Hstats. case_bool_decide as Hin; [done|].
    assert (userBalances sm !! u = None) as Hnone.
    { destruct (userBalances sm !! u) as [b|] eqn:Hb; [|done].
      exfalso. apply Hin, Hkeys. by rewrite Hb. }
    unfold held. by rewrite Hnone.
  - intros outcome' [o' Ho']. unfold MarketApi.resolveMarket. rewrite Ho'.
    rewrite (bind_Throw _ _ (mkWorld sm' mk') (mkWorld sm' mk') "Market already closed");
      [done|].
    apply onMarket_run. by apply resolve_not_open.
  - intros outcome' Ho'. unfold MarketApi.resolveMarket. by rewrite Ho'.
Qed.

Lemma resolveMarket_witness :
  ∃ w',
    MarketApi.resolveMarket ["user_alice"; "user_bob"]%string "YES" tradedWorld = (Ok tt, w')
    ∧ winningOutcome (market w') = Some YES
    ∧ userStats (manager w') !! "user_alice" = Some (mkStats 1 1 (of_Z 0) 1)
    ∧ userStats (manager w') !! "user_bob" = Some (mkStats 0 1 (of_Z 0) 1)
    ∧ credits <$> userBalances (manager tradedWorld) !! "user_alice" = Some (of_Z 9800)
    ∧ credits <$> userBalances (manager w') !! "user_alice" = Some (of_Z 9800)
    ∧ MarketApi.resolveMarket ["user_alice"; "user_bob"]%string "NO" w'
      = (Throw "Market already closed", w').
Proof.
  assert (manager_wf (manager tradedWorld)) as Hwf.
  { unfold tradedWorld.
    rewrite (Shares_buyShares_open _ _ _ _ Shares.create freshMarket manager_wf_create eq_refl).
    cbn [snd].
    rewrite Shares_buyShares_open;
      [|apply afterManagerBuy_wf, manager_wf_create|reflexivity].
    cbn [snd manager]. do 2 apply afterManagerBuy_wf. apply manager_wf_create. }
  assert (status (market tradedWorld) = OPEN) as Hopen by (vm_compute; reflexivity).
  assert (∀ u, is_Some (userBalances (manager tradedWorld) !! u)
               → u ∈ ["user_alice"; "user_bob"]%string) as Hkeys.
  { intros u [b Hb].
    destruct (decide (u = "user_alice"%string)) as [->|Ha]; [by left|].
    destruct (decide (u = "user_bob"%string)) as [->|Hb']; [right; by left|].
    exfalso.
    assert (userBalances (manager tradedWorld)
            = <["user_alice"%string := mkBalance (of_Z 9800)
                  (<["MKT-001"%string := mkShares (of_Z 200) (of_Z 0)]> ∅)]>
                (<["user_bob"%string := mkBalance (of_Z 9760)
                     (<["MKT-001"%string := mkShares (of_Z 0) (of_Z 300)]> ∅)]> ∅)) as Hmap
      by (vm_compute; reflexivity).
    rewrite Hmap, !lookup_insert_ne, lookup_empty in Hb by done. discriminate Hb. }
  destruct (resolveMarket_settles_everyone_once
              ["user_alice"; "user_bob"]%string "YES" YES tradedWorld Hwf Hopen eq_refl Hkeys)
    as (w' & Hrun & _ & _ & _ & _ & _ & Hagain & _).
  exists w'. split; [exact Hrun|].
  assert (w' = snd (MarketApi.resolveMarket ["user_alice"; "user_bob"]%string "YES"
                                            tradedWorld)) as Hw' by (by rewrite Hrun).
  split; [rewrite Hw'; vm_compute; reflexivity|].
  split; [rewrite Hw'; vm_compute; reflexivity|].
  split; [rewrite Hw'; vm_compute; reflexivity|].
  split; [vm_compute; reflexivity|].
  split; [rewrite Hw'; vm_compute; reflexivity|].
  apply Hagain. by exists NO.
Defined.

(** *** The leaderboard *)

Lemma insertEntry_Permutation (x : LeaderboardEntry) (l : list LeaderboardEntry) :
  Views.insertEntry x l ≡ₚ x :: l.
Proof.
  induction l as [|y l IH]; cbn [Views.insertEntry]; [done|].
  destruct (gtb _ _); [|done]. rewrite IH. apply Permutation_swap.
Qed.

Lemma sortEntries_Permutation (l : list LeaderboardEntry) : Views.sortEntries l ≡ₚ l.
Proof.
  unfold Views.sortEntries. induction l as [|x l IH]; cbn [foldr]; [done|].
  by rewrite insertEntry_Permutation, IH.
Qed.

Lemma compareEntries_gt (x y : LeaderboardEntry) :
  isFinite (accuracy x) → isFinite (accuracy y) →
  isFinite (profit (entry_stats x)) → isFinite (profit (entry_stats y)) →
  if gtb (Views.compareEntries x y) (of_Z 0) then precedes y x else precedes x y.
Proof.
  intros [xa Hxa] [ya Hya] [xp Hxp] [yp Hyp].
  unfold Views.compareEntries, precedes, gtb. rewrite Hxa, Hya, Hxp, Hyp.
  cbn [valueOf Views.differ].
  destruct (sub_Fin ya xa) as (da & -> & Hda).
  destruct (sub_Fin yp xp) as (dp & -> & Hdp).
  unfold of_Z. change (inject_Z 0) with 0%Q.
  destruct (Qeq_bool ya xa) eqn:Heq; cbn [negb].
  - apply Qeq_bool_iff in Heq.
    destruct (ltb (Fin 0) (Fin dp)) eqn:Hlt.
    + apply ltb_Fin in Hlt. right. split; lra.
    + apply not_true_iff_false in Hlt. rewrite ltb_Fin in Hlt. right. split; lra.
  - apply Qeq_bool_neq in Heq.
    destruct (ltb (Fin 0) (Fin da)) eqn:Hlt.
    + apply ltb_Fin in Hlt. left. lra.
    + apply not_true_iff_false in Hlt. rewrite ltb_Fin in Hlt. left.
      destruct (Qlt_le_dec ya xa) as [?|Hle]; [done|].
      exfalso. apply Heq. lra.
Qed.

Lemma precedes_trans (a b c : LeaderboardEntry) :
  precedes a b → precedes b c → precedes a c.
Proof.
  unfold precedes. intros [H1|[H1 H1']] [H2|[H2 H2']].
  - left. lra.
  - left. lra.
  - left. lra.
  - right. split; lra.
Qed.

Lemma insertEntry_sorted (x : LeaderboardEntry) (l : list LeaderboardEntry) :
  isFinite (accuracy x) → isFinite (profit (entry_stats x)) →
  Forall (fun e => isFinite (accuracy e) ∧ isFinite (profit (entry_stats e))) l →
  StronglySorted precedes l → StronglySorted precedes (Views.insertEntry x l).
Proof.
  intros Hxa Hxp Hfin Hs. induction Hs as [|y l Hs IH Hall]; cbn [Views.insertEntry].
  - repeat constructor.
  - apply Forall_cons in Hfin as [[Hya Hyp] Hfin].
    pose proof (compareEntries_gt x y Hxa Hya Hxp Hyp) as Hcmp.
    destruct (gtb (Views.compareEntries x y) (of_Z 0)).
    + constructor; [by apply IH|].
      rewrite insertEntry_Permutation. by constructor.
    + constructor; [by constructor|]. constructor; [done|].
      eapply Forall_impl; [exact Hall|]. intros z Hz. by eapply precedes_trans.
Qed.

Lemma sortEntries_sorted (l : list LeaderboardEntry) :
  Forall (fun e => isFinite (accuracy e) ∧ isFinite (profit (entry_stats e))) l →
  StronglySorted precedes (Views.sortEntries l).
Proof.
  unfold Views.sortEntries. induction 1 as [|x l [Hxa Hxp] Hfin IH]; cbn [foldr].
  - constructor.
  - apply insertEntry_sorted; [done|done| |done].
    change (foldr Views.insertEntry [] l) with (Views.sortEntries l).
    by rewrite sortEntries_Permutation.
Qed.

Lemma accuracy_percentage (sm : ShareManager) (userId : string) (st : Stats) :
  counters_ok st →
  ∃ k : Z, 0 <= k <= 100 ∧ accuracy (Views.entryOf sm userId st) = Fin (inject_Z k).
Proof.
  intros [[Hc Hct] _]. unfold Views.entryOf. cbn [accuracy].
  destruct (0 <? totalPredictions st) eqn:Ht.
  - apply Z.ltb_lt in Ht. unfold of_Z.
    assert (0 < inject_Z (totalPredictions st))%Q as Htq.
    { change 0%Q with (inject_Z 0). by rewrite <- Zlt_Qlt. }
    assert (0 <= inject_Z (correctPredictions st))%Q as Hcq.
    { change 0%Q with (inject_Z 0). by rewrite <- Zle_Qle. }
    assert (inject_Z (correctPredictions st) <= inject_Z (totalPredictions st))%Q as Hctq.
    { by rewrite <- Zle_Qle. }
    destruct (div_Fin (inject_Z (correctPredictions st)) (inject_Z (totalPredictions st)))
      as (r & -> & Hr); [lra|].
    destruct (mul_Fin r (inject_Z 100)) as (x & -> & Hx).
    assert (0 <= r <= 1)%Q as [Hr0 Hr1].
    { rewrite Hr. split.
      - apply Qle_shift_div_l; [done|]. lra.
      - apply Qle_shift_div_r; [done|]. lra. }
    change (inject_Z 100) with 100%Q in Hx.
    exists (Qfloor (x + (1 # 2))). split; [|reflexivity]. split.
    + assert (0 <= x + (1 # 2))%Q as H0 by lra. by apply Qfloor_resp_le in H0.
    + assert (x + (1 # 2) <= 100 + (1 # 2))%Q as H1 by lra.
      by apply Qfloor_resp_le in H1.
  - exists 0. split; [lia|reflexivity].
Qed.

(** X21. The leaderboard ranks by accuracy, then by profit. When the
    counters of every participant are consistent and no profit is [NaN],
    [getLeaderboard] returns one row for each key of the statistics, each
    with an accuracy that is a whole percentage between 0 and 100, ordered
    so that a row never stands before one with a higher accuracy, nor
    before one with the same accuracy and a higher profit. *)
Theorem getLeaderboard_ranks_by_accuracy (keys : list string) (sm : ShareManager) :
  (∀ u st, userStats sm !! u = Some st → counters_ok st ∧ isFinite (profit st)) →
  (∀ u, u ∈ keys → is_Some (userStats sm !! u)) →
  let board := Views.getLeaderboard keys sm in
  entry_userId <$> board ≡ₚ keys
  ∧ (∀ e, e ∈ board →
       userStats sm !! entry_userId e = Some (entry_stats e)
       ∧ entry_credits e = Views.orZero (credits <$> userBalances sm !! entry_userId e)
       ∧ ∃ k : Z, 0 <= k <= 100 ∧ accuracy e = Fin (inject_Z k))
  ∧ StronglySorted precedes board.
Proof.
  intros Hok Hkeys board.
  assert (board ≡ₚ boardRows keys sm) as Hperm by apply sortEntries_Permutation.
  assert (∀ e, e ∈ boardRows keys sm →
               ∃ st, userStats sm !! entry_userId e = Some st
                     ∧ e = Views.entryOf sm (entry_userId e) st) as Hrows.
  { intros e He. unfold boardRows in He. apply list_elem_of_omap in He as (u & _ & He).
    destruct (userStats sm !! u) as [st|] eqn:Hst; [|done].
    injection He as <-. by exists st. }
  split_and!.
  - rewrite Hperm. unfold boardRows. clear -Hkeys.
    induction keys as [|k keys IH]; [done|]. cbn [omap list_omap].
    destruct (Hkeys k) as [st ->]; [left|]. cbn [fmap option_fmap option_map].
    rewrite fmap_cons. cbn [entry_userId Views.entryOf]. f_equiv.
    apply IH. intros u Hu. apply Hkeys. by right.
  - intros e He. rewrite Hperm in He.
    destruct (Hrows e He) as (st & Hst & ->). cbn [entry_userId entry_stats Views.entryOf].
    cbn [entry_userId Views.entryOf] in Hst.
    split; [done|]. split; [done|].
    apply accuracy_percentage. by apply (Hok _ _ Hst).
  - apply sortEntries_sorted. apply Forall_forall. intros e He.
    destruct (Hrows e He) as (st & Hst & ->).
    cbn [entry_userId Views.entryOf] in Hst.
    destruct (Hok _ _ Hst) as [Hc Hp]. split; [|done].
    destruct (accuracy_percentage sm (entry_userId (Views.entryOf sm (entry_userId e) st))
                st Hc) as (k & _ & Hk).
    cbn [entry_userId Views.entryOf] in Hk. cbn [Views.entryOf]. eexists. exact Hk.
Qed.

Lemma getLeaderboard_witness :
  let keys := ["user_alice"; "user_bob"; "user_carol"]%string in
  entry_userId <$> Views.getLeaderboard keys rankedManager
  = ["user_bob"; "user_alice"; "user_carol"]%string
  ∧ accuracy <$> Views.getLeaderboard keys rankedManager = [of_Z 100; of_Z 50; of_Z 0]
  ∧ entry_credits <$> Views.getLeaderboard keys rankedManager
    = [of_Z 0; of_Z 9800; of_Z 10000]
  ∧ StronglySorted precedes (Views.getLeaderboard keys rankedManager).
Proof.
  intros keys.
  assert (∀ u st, userStats rankedManager !! u = Some st
                  → counters_ok st ∧ isFinite (profit st)) as Hok.
  { intros u st. unfold rankedManager. cbn [userStats].
    rewrite !lookup_insert, lookup_empty.
    repeat case_decide; intros [= <-];
      (split; [unfold counters_ok; cbn; lia|eexists; reflexivity]). }
  assert (∀ u, u ∈ keys → is_Some (userStats rankedManager !! u)) as Hkeys.
  { intros u Hu. unfold keys in Hu. unfold rankedManager. cbn [userStats].
    rewrite !lookup_insert.
    repeat (apply elem_of_cons in Hu as [->|Hu]);
      [| | |by apply elem_of_nil in Hu];
      repeat case_decide; try done; eauto. }
  destruct (getLeaderboard_ranks_by_accuracy keys rankedManager Hok Hkeys)
    as (_ & _ & Hsorted).
  split; [vm_compute; reflexivity|]. split; [vm_compute; reflexivity|].
  split; [vm_compute; reflexivity|]. exact Hsorted.
Defined.

(** *** Amounts and accounts that are not checked *)





End ManagerRuns.

(* ===================================================================== *)
(** * Further invariants of the ledger and of the accounts                *)
(* ===================================================================== *)

Section MoreLedgerFacts.
Import Blockchain.

Lemma scanFrom_throws (chain : list Block) (todo : list nat) (acc : list TamperReport) :
  (∀ k, k ∈ todo → hashValidAt chain k && linkValidAt chain k = true) →
  (∃ k b, k ∈ todo ∧ (0 < k)%nat ∧ chain !! k = Some b ∧ data b = JNull) →
  scanFrom chain todo acc = Throw typeError.
Proof.
  revert acc. induction todo as [|k0 todo IH]; intros acc Hok (k & b & Hk & Hpos & Hb & Hnull).
  - by apply elem_of_nil in Hk.
  - cbn [scanFrom]. unfold tamperAt.
    pose proof (Hok k0 (list_elem_of_here _ _)) as Hk0.
    apply andb_prop in Hk0 as [Hh Hl]. rewrite Hh, Hl. cbn [negb].
    destruct (chain !! k0) as [b0|] eqn:Hb0.
    + destruct ((0 <? k0)%nat && negb (canReadProperty (data b0))) eqn:Hbad; [done|].
      rewrite app_nil_r. apply IH; [intros j Hj; apply Hok; by right|].
      exists k, b. split_and!; try done.
      apply elem_of_cons in Hk as [->|Hk]; [|done]. exfalso.
      rewrite Hb in Hb0. injection Hb0 as <-. rewrite Hnull in Hbad.
      apply Nat.ltb_lt in Hpos. by rewrite Hpos in Hbad.
    + rewrite app_nil_r. apply IH; [intros j Hj; apply Hok; by right|].
      exists k, b. split_and!; try done.
      apply elem_of_cons in Hk as [->|Hk]; [|done]. congruence.
Qed.

(** X25. A [null] payload blinds the tamper audit: when a run of
    [addBlock] calls with a steady clock stores [null] in any block but the
    first, the ledger is valid for [validateChain] and for the audit of
    server.js, while [detectTampering] throws a TypeError on reading the
    payload, and the audit of test-asset.js answers with that error. *)
Theorem null_payload_blinds_detectTampering (calls : list Append) (i : nat) (c : Append) :
  (∀ c, c ∈ calls → stamp_reading c = hash_reading c) →
  calls !! S i = Some c → payload c = JNull →
  validateChain (getFullChain (appendAll calls ∅)) = true
  ∧ detectTampering (getFullChain (appendAll calls ∅)) = Throw typeError
  ∧ Gateway.audit (appendAll calls ∅) = AuditError typeError
  ∧ Server.audit (appendAll calls ∅) = AuditSecure (length calls).
Proof.
  intros Hclock Hc Hnull.
  assert (validateChain (getFullChain (appendAll calls ∅)) = true) as Hvalid
    by (by apply addBlock_valid_stable_clock).
  assert (length (getFullChain (appendAll calls ∅)) = length calls) as Hlen.
  { rewrite getFullChain_appendAll, foldl_grow_chainFrom. cbn [app]. apply chainFrom_length. }
  assert (∃ b, getFullChain (appendAll calls ∅) !! S i = Some b ∧ data b = JNull)
    as (b & Hb & Hdata).
  { rewrite getFullChain_appendAll, foldl_grow_chainFrom. cbn [app length last].
    destruct (chainFrom_lookup calls (N.of_nat 0) genesisPreviousHash (S i) c Hc)
      as (b & Hb & _ & _ & Hd & _).
    exists b. split; [done|]. by rewrite Hd. }
  assert (detectTampering (getFullChain (appendAll calls ∅)) = Throw typeError) as Hthrow.
  { unfold detectTampering. apply scanFrom_throws.
    - intros k Hk. apply elem_of_seq in Hk.
      pose proof (proj1 (validateChain_true _) Hvalid k) as Hk'.
      destruct Hk' as [-> ->]; [lia|done].
    - exists (S i), b. split_and!; [|lia|done|done].
      apply elem_of_seq. apply lookup_lt_Some in Hb. lia. }
  assert (appendAll calls ∅ ≠ ∅) as Hne.
  { intros H. apply getFullChain_nil in H. by rewrite H in Hb. }
  split_and!; [done|done| |].
  - unfold Gateway.audit. rewrite Hthrow.
    destruct (length (getFullChain (appendAll calls ∅)) =? 0)%nat eqn:Hz; [|done].
    apply Nat.eqb_eq, nil_length_inv in Hz. by rewrite Hz in Hb.
  - rewrite <- Hlen. by apply server_audit_secure.
Qed.

Lemma null_payload_witness :
  validateChain (getFullChain (appendAll nullAppends ∅)) = true
  ∧ detectTampering (getFullChain (appendAll nullAppends ∅)) = Throw typeError
  ∧ Gateway.audit (appendAll nullAppends ∅) = AuditError typeError
  ∧ Server.audit (appendAll nullAppends ∅) = AuditSecure 3.
Proof.
  apply (null_payload_blinds_detectTampering nullAppends 0
           (mkAppend "2026-03-02T07:00:00.000Z" "2026-03-02T07:00:00.000Z" JNull)).
  - intros c Hc. unfold nullAppends in Hc.
    repeat (apply elem_of_cons in Hc as [->|Hc]); try reflexivity.
    by apply elem_of_nil in Hc.
  - reflexivity.
  - reflexivity.
Defined.



End MoreLedgerFacts.

Section MoreAccountFacts.
Import JsNum Market Shares.

Lemma same_users_updateBalance (userId : string) (f : Balance → Balance) :
  keeps same_users (updateBalance userId f).
Proof.
  intros sm Hsm. unfold updateBalance, Eff.bind, Eff.get, Eff.modify, Eff.throw.
  destruct (userBalances sm !! userId) as [b|] eqn:Hb; [|done].
  cbn [snd]. intros u. cbn [userBalances userStats]. rewrite lookup_insert.
  case_decide as Hu; [|apply Hsm]. subst u. rewrite <- (Hsm userId), Hb.
  split; intros _; eauto.
Qed.

Lemma same_users_updateHolding (userId mid : string) (f : Shares → Shares) :
  keeps same_users (updateHolding userId mid f).
Proof.
  intros sm Hsm. unfold updateHolding. rewrite bind_get.
  destruct (userBalances sm !! userId) as [b|]; [|done].
  destruct (holdings b !! mid); [|done]. by apply same_users_updateBalance.
Qed.

Lemma same_users_updateStats (userId : string) (f : Stats → Stats) :
  keeps same_users (updateStats userId f).
Proof.
  intros sm Hsm. unfold updateStats, Eff.bind, Eff.get, Eff.modify, Eff.throw.
  destruct (userStats sm !! userId) as [st|] eqn:Hst; [|done].
  cbn [snd]. intros u. cbn [userBalances userStats]. rewrite lookup_insert.
  case_decide as Hu; [|apply Hsm]. subst u. rewrite (Hsm userId), Hst.
  split; intros _; eauto.
Qed.

Lemma same_users_initializeUser (userId : string) (c : num) :
  keeps same_users (initializeUser userId c).
Proof.
  intros sm Hsm. unfold initializeUser. rewrite bind_get.
  destruct (negb (hasBalance userId sm)); cbn [Eff.when]; [|done].
  unfold Eff.modify. cbn [snd]. intros u. cbn [userBalances userStats].
  rewrite !lookup_insert. case_decide; [|apply Hsm]. split; intros _; eauto.
Qed.

Ltac keeps_users :=
  repeat first
    [ apply keeps_ret | apply keeps_throw | apply keeps_get
    | apply (keeps_manager_onMarket same_users)
    | apply (keeps_manager_onManager same_users)
    | apply same_users_updateBalance | apply same_users_updateHolding
    | apply same_users_updateStats | apply same_users_initializeUser
    | apply keeps_when
    | apply keeps_bind; [|intros ?]
    | progress cbv zeta
    | match goal with
      | |- keeps _ (if ?b then _ else _) => destruct b
      | |- keeps _ (match ?x with _ => _ end) => destruct x
      end ].

Lemma same_users_runTrade (w : World) (call : TradeCall) :
  same_users (manager w) → same_users (manager (runTrade w call)).
Proof.
  intros Hw. destruct call; cbn [runTrade].
  - by apply (keeps_manager_onManager _ _ (same_users_initializeUser _ _)).
  - revert w Hw. change (keeps (fun w => same_users (manager w))
                               (onManager (getBalance userId))).
    unfold getBalance. keeps_users.
  - revert w Hw. change (keeps (fun w => same_users (manager w))
                               (Shares.buyShares now userId outcome amount)).
    unfold Shares.buyShares. keeps_users.
  - revert w Hw. change (keeps (fun w => same_users (manager w))
                               (Shares.sellShares now userId outcome amount)).
    unfold Shares.sellShares. keeps_users.
  - revert Hw. generalize (market w). intros m.
    revert w. change (keeps (fun w => same_users (manager w))
                            (onManager (resolvePosition userId m))).
    unfold resolvePosition. keeps_users.
  - by apply (keeps_manager_onMarket same_users).
  - by apply (keeps_manager_onMarket same_users).
  - by apply (keeps_manager_onMarket same_users).
Qed.

(** X27. Accounts and statistics always belong to the same participants:
    after any run of calls on a new share manager, whether the calls
    returned or threw, a participant has a balance exactly when they have
    statistics, so the leaderboard lists exactly the account holders and
    no method ever meets an account without statistics. *)
Theorem accounts_and_statistics_match (calls : list TradeCall) (mk : PredictionMarket)
    (userId : string) :
  let sm := manager (foldl runTrade (mkWorld Shares.create mk) calls) in
  is_Some (userBalances sm !! userId) ↔ is_Some (userStats sm !! userId).
Proof.
  intros sm. subst sm. revert userId.
  induction calls as [|call calls IH] using rev_ind.
  - intros u. cbn [foldl manager Shares.create userBalances userStats].
    rewrite !lookup_empty. done.
  - rewrite foldl_app. cbn [foldl]. by apply same_users_runTrade.
Qed.

(** *** Positions *)





End MoreAccountFacts.
